(** * keepalive_random: a verified model of the keep-alive loop

    A shallow embedding of [keepalive_random.py].  The program is one
    coroutine, [worker], that forever picks a URL, tries to deliver a GET
    with bounded retries and exponential backoff, and then sleeps for a
    randomised interval.

    Modelling choices, used throughout:
    - Python [int] is [Z]; Python [float] is an exact rational [Q] (rounding
      of IEEE doubles is not modelled); the one float a draw of
      [random.random()] is compared with, the literal [0.7], is the double
      it denotes, since that comparison is exact;
    - everything the program obtains from outside (network, event loop,
      random generator, clocks) is read from a [world], an oracle indexed by
      the number of calls made so far; the program threads a [state] with
      those call counts and the trace of what it has done;
    - an awaited call can return, raise an error (a subclass of Python's
      [Exception]), or be cancelled from outside (a [BaseException] such as
      [CancelledError] or [KeyboardInterrupt], which [except Exception]
      does not catch);
    - [urllib.parse] is an interface ([UrlLib]); the program is written
      against it, and one reference instance is given to run examples;
    - the [aiohttp] session and its connection pool are not modelled: a
      request is the call of [session.get] and the reading of the body. *)

From Stdlib Require Import ZArith QArith List String Ascii Bool Lia Lqa.
From Stdlib Require Import DecimalString.
From Equations Require Import Equations.
Import ListNotations.

Local Open Scope Z_scope.

(* ------------------------------------------------------------------ *)
(** ** Configuration (module-level constants of the script) *)

Definition URLS : list string :=
  ["https://aimatrix-e8zs.onrender.com/upload_files_pyrus"%string].

Definition MIN_INTERVAL_SECONDS : Z := 60 * 10.
Definition MAX_INTERVAL_SECONDS : Z := 60 * 25.
Definition JITTER_PCT : Q := 15 # 100.
Definition REQUEST_TIMEOUT : Z := 30.
Definition MAX_RETRIES : Z := 3.
Definition BACKOFF_BASE : Z := 5.

Definition USER_AGENTS : list string :=
  ["Mozilla/5.0 (Windows NT 10.0; Win64; x64) AppleWebKit/537.36 (KHTML, like Gecko)";
   "Mozilla/5.0 (Macintosh; Intel Mac OS X 10_15_7) AppleWebKit/605.1.15 (KHTML, like Gecko)";
   "Mozilla/5.0 (X11; Linux x86_64) AppleWebKit/537.36 (KHTML, like Gecko)";
   "curl/7.85.0";
   "Wget/1.21.3 (linux-gnu)"]%string.

Definition EXTRA_QUERY_KEYS : list string := ["t"; "v"; "rand"; "token"; "src"]%string.

(* ------------------------------------------------------------------ *)
(** ** Errors, results and the outside world *)

(** The subclasses of [Exception] the script tells apart: [do_request] has
    one handler for [asyncio.TimeoutError] and one for everything else. *)
Inductive exn : Type :=
| TimeoutError
| ClientError (detail : string)
| OtherError (detail : string).

(** How a call ends.  [Cancelled] stands for a [BaseException] that is not
    an [Exception]: no handler of the script catches it. *)
Inductive result (A : Type) : Type :=
| Ok (a : A)
| Raise (e : exn)
| Cancelled.
Arguments Ok {A} a.
Arguments Raise {A} e.
Arguments Cancelled {A}.

(** An HTTP response as the script uses it: [resp.status], and what
    [await resp.text()] does. *)
Record response : Type := mkResponse {
  status : Z;
  text : result string
}.

Record world : Type := mkWorld {
  net : nat -> result response;   (* fate of the k-th [session.get] *)
  naps : nat -> Q -> result unit; (* fate of the k-th [asyncio.sleep], by its delay *)
  entropy : nat -> N;             (* k-th raw output of the generator *)
  wall : nat -> Q;                (* k-th reading of [time.time()] *)
  perf : nat -> Q                 (* k-th reading of [time.perf_counter()] *)
}.

Inductive level : Type := INFO | WARNING | ERROR.

(** Log records, one constructor per f-string of the script. *)
Inductive message : Type :=
| MsgResponse (url2 : string) (st : Z) (elapsed : Q) (len : nat)
| MsgTimeout (elapsed : Q) (url2 : string)
| MsgRequestError (url2 : string) (e : exn) (elapsed : Q)
| MsgMaxRetries (url : string) (backoff : Z) (errors : Z)
| MsgRetry (attempt : Z) (max_retries : Z) (retry_wait : Z)
| MsgNextPing (interval : Q)
| MsgFatal (e : exn).

Inductive event : Type :=
| EvGet (url2 : string) (headers : list (string * string)) (timeout : Z)
| EvSleep (seconds : Q)
| EvLog (lvl : level) (m : message).

(** The state threaded through the script: how many times each oracle of
    the world has been consulted, what has been done so far, and the one
    variable of [worker] that lives across iterations. *)
Record state : Type := mkState {
  consecutive_errors : Z;
  reqs : nat;
  slept : nat;
  drawn : nat;
  walls : nat;
  perfs : nat;
  trace : list event
}.

Definition init : state := mkState 0 0 0 0 0 0 [].

Definition with_errors (n : Z) (s : state) : state :=
  mkState n (reqs s) (slept s) (drawn s) (walls s) (perfs s) (trace s).

Definition logged (ev : event) (s : state) : state :=
  mkState (consecutive_errors s) (reqs s) (slept s) (drawn s) (walls s) (perfs s)
          (trace s ++ [ev]).

Definition tick_reqs (s : state) : state :=
  mkState (consecutive_errors s) (S (reqs s)) (slept s) (drawn s) (walls s) (perfs s)
          (trace s).

Definition tick_slept (s : state) : state :=
  mkState (consecutive_errors s) (reqs s) (S (slept s)) (drawn s) (walls s) (perfs s)
          (trace s).

Definition tick_drawn (s : state) : state :=
  mkState (consecutive_errors s) (reqs s) (slept s) (S (drawn s)) (walls s) (perfs s)
          (trace s).

Definition tick_walls (s : state) : state :=
  mkState (consecutive_errors s) (reqs s) (slept s) (drawn s) (S (walls s)) (perfs s)
          (trace s).

Definition tick_perfs (s : state) : state :=
  mkState (consecutive_errors s) (reqs s) (slept s) (drawn s) (walls s) (S (perfs s))
          (trace s).

(* ------------------------------------------------------------------ *)
(** ** The monad of the script: state with errors that keep the state *)

Definition M (A : Type) : Type := state -> result A * state.

Definition ret {A} (a : A) : M A := fun s => (Ok a, s).

Definition bind {A B} (m : M A) (k : A -> M B) : M B :=
  fun s =>
    match m s with
    | (Ok a, s') => k a s'
    | (Raise e, s') => (Raise e, s')
    | (Cancelled, s') => (Cancelled, s')
    end.

Definition raise {A} (e : exn) : M A := fun s => (Raise e, s).

(** [try: m  except Exception as e: h e] *)
Definition try_except {A} (m : M A) (h : exn -> M A) : M A :=
  fun s =>
    match m s with
    | (Raise e, s') => h e s'
    | r => r
    end.

Declare Scope py_scope.
Delimit Scope py_scope with py.
Notation "x <- m ;; k" := (bind m (fun x => k))
  (at level 100, m at next level, right associativity) : py_scope.
Notation "m ;; k" := (bind m (fun _ => k))
  (at level 100, right associativity) : py_scope.
Local Open Scope py_scope.

Definition emit (ev : event) : M unit := fun s => (Ok tt, logged ev s).

Definition log (lvl : level) (m : message) : M unit := emit (EvLog lvl m).

(** [int(x)] on a float: truncation toward zero. *)
Definition py_int (x : Q) : Z := Z.quot (Qnum x) (Zpos (Qden x)).

(** [str(n)] on an int. *)
Definition str (n : Z) : string := NilZero.string_of_int (Z.to_int n).

(** [max(1, value)]: the first argument is kept unless the second is
    strictly greater. *)
Definition py_max1 (value : Q) : Q :=
  if Qlt_le_dec 1 value then value else 1%Q.


(* ------------------------------------------------------------------ *)
(** ** URLs, query strings and dictionaries *)

(** [urllib.parse.ParseResult], the six components of a URL. *)
Record ParseResult : Type := mkParseResult {
  scheme : string;
  netloc : string;
  path : string;
  params : string;
  query : string;
  fragment : string
}.

(** [parsed._replace(query=new_query)] *)
Definition replace_query (parsed : ParseResult) (new_query : string) : ParseResult :=
  mkParseResult (scheme parsed) (netloc parsed) (path parsed) (params parsed)
                new_query (fragment parsed).

(** The four functions the script imports from [urllib.parse].  [urlparse]
    answers [None] where Python raises [ValueError]; [parse_qsl] is the
    call with [keep_blank_values=True]; [urlencode] is applied to the items
    of a dictionary, in order. *)
Class UrlLib : Type := mkUrlLib {
  urlparse : string -> option ParseResult;
  urlunparse : ParseResult -> string;
  parse_qsl : string -> list (string * string);
  urlencode : list (string * string) -> string
}.

(** A Python [dict] with string keys: its items in insertion order, every
    key once. *)
Definition pydict : Type := list (string * string).

(** [d[k] = v]: an existing key keeps its place and takes the new value, a
    new key goes last. *)
Fixpoint dict_set (k v : string) (d : pydict) : pydict :=
  match d with
  | [] => [(k, v)]
  | (k', v') :: rest =>
      if String.eqb k k' then (k', v) :: rest
      else (k', v') :: dict_set k v rest
  end.

(** [dict(pairs)] *)
Definition dict (pairs : list (string * string)) : pydict :=
  fold_left (fun d kv => dict_set (fst kv) (snd kv) d) pairs [].

(** [d.get(k)] *)
Fixpoint dict_get (k : string) (d : pydict) : option string :=
  match d with
  | [] => None
  | (k', v') :: rest => if String.eqb k k' then Some v' else dict_get k rest
  end.

Definition keys (d : pydict) : list string := map fst d.

Section Script.

Variable W : world.
Context {lib : UrlLib}.

(** *** Primitives answered by the world *)

Definition raw_draw : M N :=
  fun s => (Ok (entropy W (drawn s)), tick_drawn s).

(** [random.random()]: a multiple of 2^-53 in [0, 1). *)
Definition two53 : positive := (2 ^ 53)%positive.

Definition unit_of_raw (r : N) : Q := (Z.of_N r mod Zpos two53) # two53.

(** The literal [0.7]: the double nearest to 7/10, which is
    6305039478318694 * 2^-53.  The values of [random.random()] are
    multiples of 2^-53 too, so [random.random() < 0.7] compares them as
    they are. *)
Definition float_0_7 : Q := 6305039478318694 # two53.

Definition random_random : M Q :=
  r <- raw_draw ;; ret (unit_of_raw r).

(** [random.uniform(a, b)] is [a + (b - a) * random()]. *)
Definition random_uniform (a b : Q) : M Q :=
  u <- random_random ;; ret (a + (b - a) * u)%Q.

(** [random._randbelow(n)] for n > 0. *)
Definition randbelow (n : Z) : M Z :=
  r <- raw_draw ;; ret (Z.of_N r mod n).

(** [random.randint(a, b)] is [a + _randbelow(b - a + 1)]. *)
Definition random_randint (a b : Z) : M Z :=
  k <- randbelow (b - a + 1) ;; ret (a + k).

(** [random.choice(seq)] is [seq[_randbelow(len(seq))]]; on an empty
    sequence it raises [IndexError]. *)
Definition random_choice (seq : list string) : M string :=
  match seq with
  | [] => raise (OtherError "IndexError")
  | d :: _ =>
      i <- randbelow (Z.of_nat (List.length seq)) ;;
      ret (nth (Z.to_nat i) seq d)
  end.

Definition time_time : M Q :=
  fun s => (Ok (wall W (walls s)), tick_walls s).

Definition perf_counter : M Q :=
  fun s => (Ok (perf W (perfs s)), tick_perfs s).

(** [await asyncio.sleep(seconds)] *)
Definition asyncio_sleep (seconds : Q) : M unit :=
  fun s => (naps W (slept s) seconds, tick_slept (logged (EvSleep seconds) s)).

(** [session.get(url2, headers=headers, timeout=timeout)] *)
Definition session_get (url2 : string) (headers : list (string * string))
    (timeout : Z) : M response :=
  fun s => (net W (reqs s), tick_reqs (logged (EvGet url2 headers timeout) s)).

(** [await resp.text()] *)
Definition resp_text (resp : response) : M string :=
  fun s => (text resp, s).

(** *** [random_interval] *)

Definition random_interval : M Q :=
  base <- random_uniform (inject_Z MIN_INTERVAL_SECONDS)
                         (inject_Z MAX_INTERVAL_SECONDS) ;;
  let jitter := (base * JITTER_PCT)%Q in
  value <- random_uniform (base - jitter)%Q (base + jitter)%Q ;;
  ret (py_max1 value).

(** *** [random_headers] *)

Definition random_headers : M (list (string * string)) :=
  ua <- random_choice USER_AGENTS ;;
  ret [("User-Agent"%string, ua); ("Accept"%string, "*/*"%string)].

(** *** [randomize_url] *)

Definition randomize_url (url : string) : M string :=
  match urlparse url with
  | None => raise (OtherError "ValueError")
  | Some parsed =>
      let q := dict (parse_qsl (query parsed)) in
      r <- random_random ;;
      q <- (if Qlt_le_dec r float_0_7 then
              key <- random_choice EXTRA_QUERY_KEYS ;;
              now <- time_time ;;
              n <- random_randint 1 99999 ;;
              ret (dict_set key (str (py_int now) ++ "_" ++ str n) q)
            else ret q) ;;
      let new_query := urlencode q in
      let new := replace_query parsed new_query in
      ret (urlunparse new)
  end.

(** *** [do_request] *)

Definition do_request (url : string) : M (Z * Q) :=
  headers <- random_headers ;;
  url2 <- randomize_url url ;;
  start <- perf_counter ;;
  try_except
    (resp <- session_get url2 headers REQUEST_TIMEOUT ;;
     now <- perf_counter ;;
     let elapsed := (now - start)%Q in
     text_snippet <- resp_text resp ;;
     log INFO (MsgResponse url2 (status resp) elapsed (String.length text_snippet)) ;;
     ret (status resp, elapsed))
    (fun e =>
       now <- perf_counter ;;
       let elapsed := (now - start)%Q in
       match e with
       | TimeoutError => log WARNING (MsgTimeout elapsed url2)
       | _ => log ERROR (MsgRequestError url2 e elapsed)
       end ;;
       raise e).

(** *** [worker] *)

Definition get_errors : M Z := fun s => (Ok (consecutive_errors s), s).

Definition set_errors (n : Z) : M unit := fun s => (Ok tt, with_errors n s).

(** What makes the inner loop end: the attempts still allowed. *)
Definition attempts_left (attempt : Z) : nat := Z.to_nat (MAX_RETRIES - attempt).
Arguments attempts_left : simpl never.

(** The inner [while True].  [attempt0] is the number of attempts already
    made in this cycle; the loop is left by [break], after a success or
    after the backoff of the last attempt, and the value returned is that
    of [attempt] at that point.  The next pass of the loop is written at
    the end of the handler it follows: an error raised there, as one
    raised in the handler, is not caught by this [try]. *)
Equations? retry_loop (url : string) (attempt0 : Z) : M Z
  by wf (attempts_left attempt0) lt :=
  retry_loop url attempt0 :=
    let attempt := attempt0 + 1 in
    try_except
      (_ <- do_request url ;;
       set_errors 0 ;;
       ret attempt)
      (fun _ =>
         match Z_ge_dec attempt MAX_RETRIES with
         | left _ =>
             n <- get_errors ;;
             set_errors (n + 1) ;;
             n <- get_errors ;;
             let backoff := BACKOFF_BASE * 2 ^ (n - 1) in
             log WARNING (MsgMaxRetries url backoff n) ;;
             asyncio_sleep (inject_Z backoff) ;;
             ret attempt
         | right _ =>
             let retry_wait := BACKOFF_BASE * 2 ^ (attempt - 1) in
             log INFO (MsgRetry attempt MAX_RETRIES retry_wait) ;;
             asyncio_sleep (inject_Z retry_wait) ;;
             retry_loop url attempt
         end).
Proof. subst attempt. unfold attempts_left. lia. Qed.

(** The body of the outer [try]. *)
Definition cycle (url : string) : M unit :=
  _ <- retry_loop url 0 ;;
  interval <- random_interval ;;
  log INFO (MsgNextPing interval) ;;
  asyncio_sleep interval.

(** One pass through the body of the outer [while True]. *)
Definition iteration : M unit :=
  url <- random_choice URLS ;;
  try_except
    (cycle url)
    (fun e =>
       log ERROR (MsgFatal e) ;;
       asyncio_sleep 60).

(** The first [n] passes of the outer loop. *)
Fixpoint worker_loop (n : nat) : M unit :=
  match n with
  | O => ret tt
  | S n' => iteration ;; worker_loop n'
  end.

Definition worker (n : nat) : M unit :=
  set_errors 0 ;;
  worker_loop n.

End Script.

(* ------------------------------------------------------------------ *)
(** ** A reference [UrlLib]

    [urllib.parse] as CPython 3.13 behaves on byte strings (a Python [str]
    is taken as its UTF-8 encoding).  Left out: the stripping of leading
    control characters and of tab and newline, the NFKC check of the host,
    the check that a host in brackets is an IPv6 or IPvFuture literal (a
    host whose brackets match is accepted as it stands), and the
    replacement of byte sequences that are not UTF-8 after
    percent-decoding. *)

Module Reference.

Local Open Scope string_scope.
Local Open Scope char_scope.

Definition is_alpha (c : ascii) : bool :=
  let n := nat_of_ascii c in
  ((65 <=? n) && (n <=? 90) || (97 <=? n) && (n <=? 122))%nat.

Definition is_digit (c : ascii) : bool :=
  let n := nat_of_ascii c in ((48 <=? n) && (n <=? 57))%nat.

Definition lower (c : ascii) : ascii :=
  let n := nat_of_ascii c in
  if ((65 <=? n) && (n <=? 90))%nat then ascii_of_nat (n + 32) else c.

Fixpoint smap (f : ascii -> ascii) (s : string) : string :=
  match s with
  | EmptyString => EmptyString
  | String c r => String (f c) (smap f r)
  end.

Fixpoint sall (p : ascii -> bool) (s : string) : bool :=
  match s with
  | EmptyString => true
  | String c r => p c && sall p r
  end.

Fixpoint contains (c : ascii) (s : string) : bool :=
  match s with
  | EmptyString => false
  | String a r => Ascii.eqb a c || contains c r
  end.

(** The longest prefix without a character satisfying [stop], and the rest. *)
Fixpoint span_until (stop : ascii -> bool) (s : string) : string * string :=
  match s with
  | EmptyString => (EmptyString, EmptyString)
  | String a r =>
      if stop a then (EmptyString, s)
      else let (h, t) := span_until stop r in (String a h, t)
  end.

(** [s.split(c, 1)] when [c] occurs in [s]. *)
Fixpoint split_first (c : ascii) (s : string) : option (string * string) :=
  match s with
  | EmptyString => None
  | String a r =>
      if Ascii.eqb a c then Some (EmptyString, r)
      else match split_first c r with
           | Some (h, t) => Some (String a h, t)
           | None => None
           end
  end.

(** [s.split(c)] *)
Fixpoint split_all (c : ascii) (s : string) : list string :=
  match s with
  | EmptyString => [EmptyString]
  | String a r =>
      if Ascii.eqb a c then EmptyString :: split_all c r
      else match split_all c r with
           | h :: t => String a h :: t
           | [] => [String a EmptyString]
           end
  end.

(** [s] cut after its last ["/"]: what comes up to it, and the last segment. *)
Fixpoint cut_last_slash (s : string) : string * string :=
  match s with
  | EmptyString => (EmptyString, EmptyString)
  | String a r =>
      let (h, t) := cut_last_slash r in
      match h with
      | EmptyString =>
          if Ascii.eqb a "/" then (String a EmptyString, r)
          else (EmptyString, s)
      | _ => (String a h, t)
      end
  end.

Definition uses_params : list string :=
  [""; "ftp"; "hdl"; "prospero"; "http"; "imap"; "https"; "shttp"; "rtsp";
   "rtspu"; "sip"; "sips"; "mms"; "sftp"; "tel"]%string.

Definition uses_netloc : list string :=
  [""; "ftp"; "http"; "gopher"; "nntp"; "telnet"; "imap"; "wais"; "file";
   "mms"; "https"; "shttp"; "snews"; "prospero"; "rtsp"; "rtspu"; "rsync";
   "svn"; "svn+ssh"; "sftp"; "nfs"; "git"; "git+ssh"; "ws"; "wss";
   "itms-services"]%string.

Definition mem (s : string) (l : list string) : bool :=
  existsb (String.eqb s) l.

Definition scheme_char (c : ascii) : bool :=
  is_alpha c || is_digit c || Ascii.eqb c "+" || Ascii.eqb c "-" || Ascii.eqb c ".".

(** The scheme of a URL and what follows its colon. *)
Definition split_scheme (url : string) : string * string :=
  match split_first ":" url with
  | Some (String c0 r as pre, rest) =>
      if is_alpha c0 && sall scheme_char pre then (smap lower pre, rest)
      else (EmptyString, url)
  | _ => (EmptyString, url)
  end.

Definition is_delim (c : ascii) : bool :=
  Ascii.eqb c "/" || Ascii.eqb c "?" || Ascii.eqb c "#".

(** [_splitnetloc(url, 2)] when [url] starts with two slashes. *)
Definition split_netloc (url : string) : string * string :=
  match url with
  | String "/" (String "/" r) => span_until is_delim r
  | _ => (EmptyString, url)
  end.

Definition split_or (c : ascii) (s : string) : string * string :=
  match split_first c s with
  | Some p => p
  | None => (s, EmptyString)
  end.

(** [_splitparams(url)] *)
Definition splitparams (url : string) : string * string :=
  let (dir, seg) := cut_last_slash url in
  match split_first ";" seg with
  | Some (h, t) => ((dir ++ h)%string, t)
  | None => (url, EmptyString)
  end.

Definition urlparse (url : string) : option ParseResult :=
  let (sch, url1) := split_scheme url in
  let (loc, url2) := split_netloc url1 in
  if xorb (contains "[" loc) (contains "]" loc) then None
  else
    let (url3, frag) := split_or "#" url2 in
    let (url4, qry) := split_or "?" url3 in
    let (pth, prm) :=
      if mem sch uses_params && contains ";" url4 then splitparams url4
      else (url4, EmptyString) in
    Some (mkParseResult sch loc pth prm qry frag).

Definition nonempty (s : string) : bool :=
  match s with EmptyString => false | _ => true end.

Definition starts_slash (s : string) : bool :=
  match s with String "/" _ => true | _ => false end.

Definition starts_two_slashes (s : string) : bool :=
  match s with String "/" (String "/" _) => true | _ => false end.

Definition urlunparse (p : ParseResult) : string :=
  let url := if nonempty (params p) then (path p ++ ";" ++ params p)%string
             else path p in
  let url :=
    if nonempty (netloc p) then
      let url := if nonempty url && negb (starts_slash url)
                 then String "/" url else url in
      ("//" ++ netloc p ++ url)%string
    else if starts_two_slashes url then ("//" ++ url)%string
    else if nonempty (scheme p) && mem (scheme p) uses_netloc
            && (negb (nonempty url) || starts_slash url)
         then ("//" ++ url)%string
    else url in
  let url := if nonempty (scheme p) then (scheme p ++ ":" ++ url)%string else url in
  let url := if nonempty (query p) then (url ++ "?" ++ query p)%string else url in
  if nonempty (fragment p) then (url ++ "#" ++ fragment p)%string else url.

(** *** Percent-encoding *)

Definition hex_value (c : ascii) : option nat :=
  let n := nat_of_ascii c in
  if ((48 <=? n) && (n <=? 57))%nat then Some (n - 48)%nat
  else if ((65 <=? n) && (n <=? 70))%nat then Some (n - 55)%nat
  else if ((97 <=? n) && (n <=? 102))%nat then Some (n - 87)%nat
  else None.

Definition hex_digit (n : nat) : ascii :=
  if (n <? 10)%nat then ascii_of_nat (48 + n) else ascii_of_nat (55 + n).

(** [unquote] *)
Fixpoint unquote (s : string) : string :=
  match s with
  | EmptyString => EmptyString
  | String "%" (String h (String l r as r1) as r2) =>
      match hex_value h, hex_value l with
      | Some a, Some b => String (ascii_of_nat (16 * a + b)) (unquote r)
      | _, _ => String "%" (unquote r2)
      end
  | String c r => String c (unquote r)
  end.

Definition always_safe (c : ascii) : bool :=
  is_alpha c || is_digit c || Ascii.eqb c "_" || Ascii.eqb c "." ||
  Ascii.eqb c "-" || Ascii.eqb c "~".

(** [quote_plus] *)
Fixpoint quote_plus (s : string) : string :=
  match s with
  | EmptyString => EmptyString
  | String c r =>
      if always_safe c then String c (quote_plus r)
      else if Ascii.eqb c " " then String "+" (quote_plus r)
      else
        let n := nat_of_ascii c in
        String "%" (String (hex_digit (n / 16)) (String (hex_digit (n mod 16))
          (quote_plus r)))
  end.

Definition plus_to_space (c : ascii) : ascii :=
  if Ascii.eqb c "+" then " " else c.

Definition decode (s : string) : string := unquote (smap plus_to_space s).

(** [parse_qsl(qs, keep_blank_values=True)] *)
Definition parse_qsl (qs : string) : list (string * string) :=
  flat_map
    (fun name_value =>
       match name_value with
       | EmptyString => []
       | _ => let (n, v) := split_or "=" name_value in [(decode n, decode v)]
       end)
    (split_all "&" qs).

(** [urlencode(d)] *)
Definition urlencode (d : list (string * string)) : string :=
  String.concat "&"
    (map (fun kv => (quote_plus (fst kv) ++ "=" ++ quote_plus (snd kv))%string) d).

#[export] Instance lib : UrlLib := mkUrlLib urlparse urlunparse parse_qsl urlencode.

End Reference.

(* ------------------------------------------------------------------ *)
(** ** Vocabulary of the specification *)

(** Steps that touch neither the loop variable, nor the network, nor the
    event loop, nor the trace: drawing random numbers and reading clocks. *)
Definition quiet (s s' : state) : Prop :=
  consecutive_errors s' = consecutive_errors s /\ reqs s' = reqs s /\
  slept s' = slept s /\ trace s' = trace s.

(** The record [do_request] writes when the request fails with [e]. *)
Definition failure_msg (url2 : string) (e : exn) (ev : event) : Prop :=
  match e with
  | TimeoutError => exists el, ev = EvLog WARNING (MsgTimeout el url2)
  | _ => exists el, ev = EvLog ERROR (MsgRequestError url2 e el)
  end.

(** What can happen to a request once [session.get] is called in state
    [s], with the result of [do_request] and what it logs. *)
Inductive delivery (W : world) (url2 : string) (s : state)
  : result (Z * Q) -> list event -> Prop :=
| delivery_ok resp body el :
    net W (reqs s) = Ok resp -> text resp = Ok body ->
    delivery W url2 s (Ok (status resp, el))
      [EvLog INFO (MsgResponse url2 (status resp) el (String.length body))]
| delivery_refused e ev :
    net W (reqs s) = Raise e -> failure_msg url2 e ev ->
    delivery W url2 s (Raise e) [ev]
| delivery_broken resp e ev :
    net W (reqs s) = Ok resp -> text resp = Raise e -> failure_msg url2 e ev ->
    delivery W url2 s (Raise e) [ev]
| delivery_cancelled :
    net W (reqs s) = Cancelled \/
    (exists resp, net W (reqs s) = Ok resp /\ text resp = Cancelled) ->
    delivery W url2 s Cancelled [].

(** The result of an awaited call that returns nothing, turned into the
    result of the code that goes on with [a] after it. *)
Definition after {A} (r : result unit) (a : A) : result A :=
  match r with
  | Ok _ => Ok a
  | Raise e => Raise e
  | Cancelled => Cancelled
  end.

(** The state in which a failed attempt leaves the script when attempts
    remain: the retry is announced and waited for. *)
Definition retrying (attempt : Z) (s1 : state) : state :=
  let retry_wait := BACKOFF_BASE * 2 ^ (attempt - 1) in
  tick_slept (logged (EvSleep (inject_Z retry_wait))
                (logged (EvLog INFO (MsgRetry attempt MAX_RETRIES retry_wait)) s1)).

(** The state in which the failure of the last attempt leaves the script:
    the counter is incremented, the backoff announced and waited for. *)
Definition given_up (url : string) (s1 : state) : state :=
  let n := consecutive_errors s1 + 1 in
  let backoff := BACKOFF_BASE * 2 ^ (n - 1) in
  tick_slept (logged (EvSleep (inject_Z backoff))
                (logged (EvLog WARNING (MsgMaxRetries url backoff n))
                   (with_errors n s1))).

(** The state after the handler of the outer [try] has run on [e]. *)
Definition recovered (e : exn) (s1 : state) : state :=
  tick_slept (logged (EvSleep 60) (logged (EvLog ERROR (MsgFatal e)) s1)).

(** The interval drawn when the retry loop has been left in [s1], and the
    state in which the cycle then ends: the interval announced and slept. *)
Definition interval_of (W : world) (s1 : state) : Q :=
  match random_interval W s1 with
  | (Ok v, _) => v
  | _ => 1%Q
  end.

Definition rested (W : world) (s1 : state) : state :=
  tick_slept (logged (EvSleep (interval_of W s1))
                (logged (EvLog INFO (MsgNextPing (interval_of W s1)))
                   (snd (random_interval W s1)))).

(** The fates of the four sleeps of the script when they start in [s1]:
    the wait before a retry, the backoff of a cycle given up, the interval
    between cycles and the pause of the handler. *)
Definition retry_nap (W : world) (attempt : Z) (s1 : state) : result unit :=
  naps W (slept s1) (inject_Z (BACKOFF_BASE * 2 ^ (attempt - 1))).

Definition backoff_nap (W : world) (s1 : state) : result unit :=
  naps W (slept s1) (inject_Z (BACKOFF_BASE * 2 ^ (consecutive_errors s1 + 1 - 1))).

Definition interval_nap (W : world) (s1 : state) : result unit :=
  naps W (slept s1) (interval_of W s1).

Definition recovery_nap (W : world) (s1 : state) : result unit :=
  naps W (slept s1) 60.

(** The records left by [n] cycles given up in a row, the first of them
    entered with the counter at [c]. *)
Fixpoint streak (c : Z) (n : nat) : list (Z * Z) :=
  match n with
  | O => []
  | S n' => (BACKOFF_BASE * 2 ^ c, c + 1) :: streak (c + 1) n'
  end.

Definition is_response (ev : event) : bool :=
  match ev with
  | EvLog _ (MsgResponse _ _ _ _) => true
  | _ => false
  end.

(** Successful deliveries recorded in a trace. *)
Definition deliveries (t : list event) : nat := List.length (filter is_response t).

(** The (backoff, consecutive errors) pairs of the cycles a trace records
    as given up. *)
Definition exhaustions (t : list event) : list (Z * Z) :=
  flat_map (fun ev => match ev with
                      | EvLog _ (MsgMaxRetries _ b n) => [(b, n)]
                      | _ => []
                      end) t.

(** A delivery that fails with an error, at connection or while the body
    is read. *)
Definition failing (r : result response) : Prop :=
  match r with
  | Raise _ => True
  | Ok resp => exists e, text resp = Raise e
  | Cancelled => False
  end.

(** Every request carries the configured timeout. *)
Definition timed (ev : event) : Prop :=
  match ev with
  | EvGet _ _ timeout => timeout = REQUEST_TIMEOUT
  | _ => True
  end.

(** A delivery that succeeds: a response arrives and its body is read. *)
Definition delivers (r : result response) : Prop :=
  match r with
  | Ok resp => exists body, text resp = Ok body
  | _ => False
  end.

(** The claim that any response received is a success, whatever becomes
    of it afterwards: if the request started in [s] is answered, the
    attempt succeeds. *)
Definition response_is_success {lib : UrlLib} (W : world) (url : string)
    (s : state) : Prop :=
  forall resp, net W (reqs s) = Ok resp ->
    exists x s1, do_request W url s = (Ok x, s1).

(** *** Records and the sleeps they announce *)

(** What [do_request] leaves in the trace: the request, with the
    configured timeout, and the record of its outcome. *)
Definition of_request (ev : event) : Prop :=
  match ev with
  | EvGet _ _ timeout => timeout = REQUEST_TIMEOUT
  | EvLog _ (MsgResponse _ _ _ _) => True
  | EvLog _ (MsgTimeout _ _) => True
  | EvLog _ (MsgRequestError _ _ _) => True
  | _ => False
  end.

(** The sleep announced by the record of a cycle given up, and by the
    record of a retry. *)
Definition backoff_of (ev : event) : option Q :=
  match ev with
  | EvLog _ (MsgMaxRetries _ backoff _) => Some (inject_Z backoff)
  | _ => None
  end.

Definition retry_wait_of (ev : event) : option Q :=
  match ev with
  | EvLog _ (MsgRetry _ _ retry_wait) => Some (inject_Z retry_wait)
  | _ => None
  end.

(** Every record that announces a sleep is followed at once by a sleep of
    exactly the delay announced. *)
Fixpoint kept (announce : event -> option Q) (t : list event) : Prop :=
  match t with
  | [] => True
  | ev :: rest =>
      match announce ev with
      | Some d => match rest with
                  | EvSleep d' :: _ => d' = d
                  | _ => False
                  end
      | None => True
      end /\ kept announce rest
  end.

(** The backoff recorded for [n] consecutive failures is
    [BACKOFF_BASE * 2 ^ (n - 1)]. *)
Definition sound_backoff (ev : event) : Prop :=
  match ev with
  | EvLog _ (MsgMaxRetries _ backoff n) => backoff = BACKOFF_BASE * 2 ^ (n - 1)
  | _ => True
  end.

(** The number of consecutive failures recorded is at least 1. *)
Definition counted (ev : event) : Prop :=
  match ev with
  | EvLog _ (MsgMaxRetries _ _ n) => 1 <= n
  | _ => True
  end.

(** The wait recorded after the failure of attempt [attempt] is
    [BACKOFF_BASE * 2 ^ (attempt - 1)], and attempts remain. *)
Definition sound_retry (ev : event) : Prop :=
  match ev with
  | EvLog _ (MsgRetry attempt m retry_wait) =>
      1 <= attempt < MAX_RETRIES /\ m = MAX_RETRIES /\
      retry_wait = BACKOFF_BASE * 2 ^ (attempt - 1)
  | _ => True
  end.

(** What holds of the events of any stretch of a run. *)
Definition paced (T : list event) : Prop :=
  kept backoff_of T /\ kept retry_wait_of T /\
  Forall sound_backoff T /\ Forall sound_retry T.

(** What a stretch of a run that starts in [s] and ends in [s'] adds to
    the trace. *)
Definition stretch (s s' : state) (T : list event) : Prop :=
  trace s' = trace s ++ T /\ paced T /\
  (0 <= consecutive_errors s -> Forall counted T /\ 0 <= consecutive_errors s').

(** *** Telling failures apart, or not *)

(** Two fates of a request that differ at most in which error is raised. *)
Definition same_fate (a b : result response) : Prop :=
  match a, b with
  | Ok r1, Ok r2 =>
      status r1 = status r2 /\
      match text r1, text r2 with
      | Ok b1, Ok b2 => b1 = b2
      | Raise _, Raise _ => True
      | Cancelled, Cancelled => True
      | _, _ => False
      end
  | Raise _, Raise _ => True
  | Cancelled, Cancelled => True
  | _, _ => False
  end.

(** The world [W] with another network. *)
Definition with_net (W : world) (net' : nat -> result response) : world :=
  mkWorld net' (naps W) (entropy W) (wall W) (perf W).

(** The URL and the elapsed time of a record of a failed request. *)
Definition failure_of (ev : event) : option (string * Q) :=
  match ev with
  | EvLog _ (MsgTimeout el url2) => Some (url2, el)
  | EvLog _ (MsgRequestError url2 _ el) => Some (url2, el)
  | _ => None
  end.

(** Events that are equal, or both record the failure of the same request. *)
Definition same_event (a b : event) : Prop :=
  a = b \/ (failure_of a = failure_of b /\ failure_of a <> None).

Definition same_state (s1 s2 : state) : Prop :=
  consecutive_errors s1 = consecutive_errors s2 /\
  reqs s1 = reqs s2 /\ slept s1 = slept s2 /\ drawn s1 = drawn s2 /\
  walls s1 = walls s2 /\ perfs s1 = perfs s2 /\
  Forall2 same_event (trace s1) (trace s2).

(** Results that agree; when [strict] they raise the same error, otherwise
    any two errors agree. *)
Definition same_result {A} (strict : bool) (r1 r2 : result A) : Prop :=
  match r1, r2 with
  | Ok a, Ok b => a = b
  | Raise e1, Raise e2 => strict = true -> e1 = e2
  | Cancelled, Cancelled => True
  | _, _ => False
  end.

Definition sim {A} (strict : bool) (m1 m2 : M A) : Prop :=
  forall s1 s2, same_state s1 s2 ->
    same_result strict (fst (m1 s1)) (fst (m2 s2)) /\
    same_state (snd (m1 s1)) (snd (m2 s2)).

(** *** What [randomize_url] draws *)

(** The first draw decides whether a parameter is injected. *)
Definition injects (W : world) (s : state) : Prop :=
  (unit_of_raw (entropy W (drawn s)) < float_0_7)%Q.

(** The key chosen by the second draw. *)
Definition chosen_key (W : world) (s : state) : string :=
  nth (Z.to_nat (Z.of_N (entropy W (S (drawn s)))
                 mod Z.of_nat (List.length EXTRA_QUERY_KEYS)))
      EXTRA_QUERY_KEYS "t"%string.

(** The value built from the clock and the third draw. *)
Definition fresh_value (W : world) (s : state) : string :=
  (str (py_int (wall W (walls s))) ++ "_" ++
   str (1 + Z.of_N (entropy W (S (S (drawn s)))) mod (99999 - 1 + 1)))%string.




(** The dictionary [randomize_url] encodes into the new query. *)
Definition new_params {lib : UrlLib} (W : world) (s : state) (parsed : ParseResult)
  : pydict :=
  let q := dict (parse_qsl (query parsed)) in
  if Qlt_le_dec (unit_of_raw (entropy W (drawn s))) float_0_7
  then dict_set (chosen_key W s) (fresh_value W s) q
  else q.

(** [dict] is a fold; its properties are those of the fold from any
    dictionary. *)
Definition dict_from (acc : pydict) (pairs : list (string * string)) : pydict :=
  fold_left (fun d kv => dict_set (fst kv) (snd kv) d) pairs acc.

(** *** Repeated keys *)

(** The value a repeated key ends with: that of its last occurrence. *)
Fixpoint last_value (k : string) (pairs : list (string * string)) : option string :=
  match pairs with
  | [] => None
  | (k', v) :: rest =>
      match last_value k rest with
      | Some v' => Some v'
      | None => if String.eqb k k' then Some v else None
      end
  end.

(** The keys of a list of pairs, each once, in the order of their first
    occurrences. *)
Fixpoint first_keys (pairs : list (string * string)) : list string :=
  match pairs with
  | [] => []
  | (k, _) :: rest =>
      k :: filter (fun k' => negb (String.eqb k k')) (first_keys rest)
  end.

(** *** What the draws cost *)

(** The state [randomize_url] leaves: one draw to decide, and when a
    parameter is injected one draw for the key, one reading of the clock
    and one draw for the number. *)
Definition randomized (W : world) (s : state) : state :=
  if Qlt_le_dec (unit_of_raw (entropy W (drawn s))) float_0_7
  then tick_drawn (tick_walls (tick_drawn (tick_drawn s)))
  else tick_drawn s.

(** The jittered value [random_interval] computes from two draws, before
    the floor at one second. *)
Definition jittered (W : world) (s : state) : Q :=
  let u1 := unit_of_raw (entropy W (drawn s)) in
  let u2 := unit_of_raw (entropy W (S (drawn s))) in
  let lo := inject_Z MIN_INTERVAL_SECONDS in
  let hi := inject_Z MAX_INTERVAL_SECONDS in
  let base := (lo + (hi - lo) * u1)%Q in
  let jitter := (base * JITTER_PCT)%Q in
  ((base - jitter) + ((base + jitter) - (base - jitter)) * u2)%Q.

(** *** The report of a request *)

(** The record [do_request] writes for a request to [url2] that fails with
    [e] after [elapsed] seconds. *)
Definition failure_record (url2 : string) (e : exn) (elapsed : Q) : event :=
  match e with
  | TimeoutError => EvLog WARNING (MsgTimeout elapsed url2)
  | _ => EvLog ERROR (MsgRequestError url2 e elapsed)
  end.

(** The time between the reading of the performance counter made in state
    [s] and the [k]-th reading after it. *)
Definition elapsed_since (W : world) (s : state) (k : nat) : Q :=
  (perf W (k + perfs s) - perf W (perfs s))%Q.

(** What [worker] itself leaves in the trace: its sleeps and its four
    records. *)
Definition of_worker (ev : event) : Prop :=
  match ev with
  | EvSleep _ => True
  | EvLog _ (MsgMaxRetries _ _ _) => True
  | EvLog _ (MsgRetry _ _ _) => True
  | EvLog _ (MsgNextPing _) => True
  | EvLog _ (MsgFatal _) => True
  | _ => False
  end.

(** A request as [do_request] sends it: the configured timeout, the two
    headers with a user agent of the pool, and a URL put together from
    the components of a configured URL with another query. *)
Definition well_sent {lib : UrlLib} (ev : event) : Prop :=
  match ev with
  | EvGet url2 headers timeout =>
      timeout = REQUEST_TIMEOUT /\
      (exists ua, In ua USER_AGENTS /\
                  headers = [("User-Agent", ua); ("Accept", "*/*")]%string) /\
      (exists url parsed q,
          In url URLS /\ urlparse url = Some parsed /\
          url2 = urlunparse (replace_query parsed (urlencode q)))
  | _ => True
  end.

(** The elapsed time a record of a request carries. *)
Definition elapsed_of (ev : event) : option Q :=
  match ev with
  | EvLog _ (MsgResponse _ _ el _) => Some el
  | EvLog _ (MsgTimeout el _) => Some el
  | EvLog _ (MsgRequestError _ _ el) => Some el
  | _ => None
  end.

Definition timely (ev : event) : Prop :=
  match elapsed_of ev with
  | Some el => (0 <= el)%Q
  | None => True
  end.

(** *** The counter read off the records *)

(** The counter of consecutive failures as the records tell it: the
    record of a response sets it to 0, the record of a cycle given up adds
    one. *)
Definition tally_step (c : Z) (ev : event) : Z :=
  match ev with
  | EvLog _ (MsgResponse _ _ _ _) => 0
  | EvLog _ (MsgMaxRetries _ _ _) => c + 1
  | _ => c
  end.

Definition tally (c : Z) (T : list event) : Z := fold_left tally_step T c.

(** Every record of a cycle given up carries the count the records before
    it add up to, plus one, and the backoff that goes with it. *)
Fixpoint tallied (c : Z) (T : list event) : Prop :=
  match T with
  | [] => True
  | ev :: rest =>
      match ev with
      | EvLog _ (MsgMaxRetries _ backoff n) =>
          n = c + 1 /\ backoff = BACKOFF_BASE * 2 ^ c
      | _ => True
      end /\ tallied (tally_step c ev) rest
  end.

(** A stretch of a run from [s] to [s'] whose records account for the
    counter. *)
Definition audited (s s' : state) (T : list event) : Prop :=
  trace s' = trace s ++ T /\
  consecutive_errors s' = tally (consecutive_errors s) T /\
  tallied (consecutive_errors s) T.

(** *** Cancellation and progress *)

(** An awaited call the world cancelled: a request cancelled as it was
    sent or as the body was read, or a sleep. *)
Definition cancelled_call (W : world) (ev : event) : Prop :=
  match ev with
  | EvGet _ _ _ =>
      exists k, net W k = Cancelled \/
                exists resp, net W k = Ok resp /\ text resp = Cancelled
  | EvSleep seconds => exists k, naps W k seconds = Cancelled
  | EvLog _ _ => False
  end.

(** A trace that ends with a call the world cancelled. *)
Definition cut_short (W : world) (t : list event) : Prop :=
  exists pre ev, t = pre ++ [ev] /\ cancelled_call W ev.

(** A trace that ends with a sleep in which the world raised [e]. *)
Definition nap_failed (W : world) (e : exn) (t : list event) : Prop :=
  exists pre seconds k, t = pre ++ [EvSleep seconds] /\ naps W k seconds = Raise e.

Definition is_next_ping (ev : event) : bool :=
  match ev with
  | EvLog _ (MsgNextPing _) => true
  | _ => false
  end.

Definition is_fatal (ev : event) : bool :=
  match ev with
  | EvLog _ (MsgFatal _) => true
  | _ => false
  end.

(** Intervals announced, and errors recorded by the handler of the loop. *)
Definition pings (t : list event) : nat := List.length (filter is_next_ping t).
Definition fatals (t : list event) : nat := List.length (filter is_fatal t).

(** A world whose network always answers or fails, and never cancels. *)
Definition answering (W : world) : Prop :=
  forall k, match net W k with
            | Ok resp => text resp <> Cancelled
            | Raise _ => True
            | Cancelled => False
            end.

(** *** Records and sleeps in pairs *)

(** The sleep a record of [worker] announces. *)
Definition pause_of (ev : event) : option Q :=
  match ev with
  | EvLog _ (MsgMaxRetries _ backoff _) => Some (inject_Z backoff)
  | EvLog _ (MsgRetry _ _ retry_wait) => Some (inject_Z retry_wait)
  | EvLog _ (MsgNextPing interval) => Some interval
  | EvLog _ (MsgFatal _) => Some 60%Q
  | _ => None
  end.

(** Every sleep of a trace comes right after the record that announces
    it; [prev] is the event before the trace. *)
Fixpoint announced (prev : option event) (T : list event) : Prop :=
  match T with
  | [] => True
  | ev :: rest =>
      match ev with
      | EvSleep seconds =>
          match prev with
          | Some p => pause_of p = Some seconds
          | None => False
          end
      | _ => True
      end /\ announced (Some ev) rest
  end.

(** The interval a record announces lies within the configured bounds
    widened by the jitter. *)
Definition sound_interval (ev : event) : Prop :=
  match ev with
  | EvLog _ (MsgNextPing interval) => (510 <= interval /\ interval <= 1725)%Q
  | _ => True
  end.

(** Records and sleeps go in pairs. *)
Definition in_step (T : list event) : Prop :=
  kept pause_of T /\ announced None T /\ Forall sound_interval T.

(* ------------------------------------------------------------------ *)
(** ** Sample worlds

    Worlds on which the script is run in the examples: every request has
    the same fate, the generator always answers 0, the wall clock stands at
    1700000000 and the performance counter advances by one second a
    reading. *)

Definition steady (fate : result response) (nap : nat -> Q -> result unit) : world :=
  mkWorld (fun _ => fate) nap (fun _ => 0%N)
          (fun _ => inject_Z 1700000000) (fun k => inject_Z (Z.of_nat k)).

Definition sound_sleep : nat -> Q -> result unit := fun _ _ => Ok tt.

(** The least integer delay the event loop cannot add to its clock: the
    least that rounds to a double out of range. *)
Definition float_limit : Q := inject_Z (2 ^ 1024 - 2 ^ 970).

(** Sleeps as the event loop of CPython takes them: a delay too large for
    a double raises [OverflowError], any other sleep completes. *)
Definition float_sleep : nat -> Q -> result unit :=
  fun _ seconds =>
    if Qle_bool float_limit seconds then Raise (OtherError "OverflowError")
    else Ok tt.

Definition timeouts : world := steady (Raise TimeoutError) sound_sleep.

Definition refusals : world :=
  steady (Raise (ClientError "Connection refused")) sound_sleep.

Definition healthy : world := steady (Ok (mkResponse 200 (Ok "ok"%string))) sound_sleep.

Definition sick : world :=
  steady (Ok (mkResponse 500 (Ok "Internal Server Error"%string))) sound_sleep.

Definition jolted : world := steady (Raise TimeoutError) float_sleep.

Definition target : string :=
  "https://aimatrix-e8zs.onrender.com/upload_files_pyrus"%string.

Definition tagged_target : string :=
  "https://aimatrix-e8zs.onrender.com/upload_files_pyrus?t=1"%string.

Definition repeated_target : string :=
  "https://aimatrix-e8zs.onrender.com/upload_files_pyrus?a=1&b=2&a=3"%string.

Definition plain_target : string :=
  "https://aimatrix-e8zs.onrender.com/upload_files_pyrus?a=1&b=2"%string.

(** A world like [healthy] whose generator always answers its largest
    output: [random.random()] is just below 1 and no parameter is
    injected. *)
Definition calm : world :=
  mkWorld (fun _ => Ok (mkResponse 200 (Ok "ok"%string))) sound_sleep
          (fun _ => (2 ^ 53 - 1)%N)
          (fun _ => inject_Z 1700000000) (fun k => inject_Z (Z.of_nat k)).

(** A world cancelled from outside at the first request. *)
Definition interrupted : world := steady Cancelled sound_sleep.

(** A world in which the body of every response fails to arrive. *)
Definition truncated : world :=
  steady (Ok (mkResponse 200 (Raise (ClientError "Response payload is not completed"))))
         sound_sleep.

(** A world in which every response arrives, with status 200, and its
    body cannot be decoded. *)
Definition garbled : world :=
  steady (Ok (mkResponse 200 (Raise (OtherError "UnicodeDecodeError")))) sound_sleep.

(** A world like [healthy] whose generator makes [random.random()] answer
    the double 0.7 itself: the test [random.random() < 0.7] fails by a
    hair and no parameter is injected. *)
Definition brink : world :=
  mkWorld (fun _ => Ok (mkResponse 200 (Ok "ok"%string))) sound_sleep
          (fun _ => 6305039478318694%N)
          (fun _ => inject_Z 1700000000) (fun k => inject_Z (Z.of_nat k)).

(** A world whose first request times out and whose other requests are
    answered. *)
Definition flaky : world :=
  mkWorld (fun k => match k with
                    | O => Raise TimeoutError
                    | S _ => Ok (mkResponse 200 (Ok "ok"%string))
                    end)
          sound_sleep (fun _ => 0%N)
          (fun _ => inject_Z 1700000000) (fun k => inject_Z (Z.of_nat k)).

(** A URL [urlparse] rejects: the bracket of the host is not closed. *)
Definition malformed_target : string := "http://[::1/ping"%string.

(* ------------------------------------------------------------------ *)
(** ** Tactics *)

(** Two runs of a primitive from states with the same counters. *)
Ltac same_counters :=
  intros s1 s2 (H1 & H2 & H3 & H4 & H5 & H6 & H7); unfold with_net;
  cbv [raw_draw time_time perf_counter asyncio_sleep
       tick_drawn tick_walls tick_perfs tick_slept tick_reqs logged with_errors];
  cbn; rewrite ?H1, ?H2, ?H3, ?H4, ?H5, ?H6;
  split; [try reflexivity|repeat split; try assumption; try congruence].

(* ================================================================== *)
(** * Properties *)

(** ** The monad *)

Lemma bind_ok {A B} (m : M A) (k : A -> M B) s a s' :
  m s = (Ok a, s') -> bind m k s = k a s'.
Proof. unfold bind. intros ->. reflexivity. Qed.

Lemma bind_raise {A B} (m : M A) (k : A -> M B) s e s' :
  m s = (Raise e, s') -> bind m k s = (Raise e, s').
Proof. unfold bind. intros ->. reflexivity. Qed.

Lemma bind_cancelled {A B} (m : M A) (k : A -> M B) s s' :
  m s = (Cancelled, s') -> bind m k s = (Cancelled, s').
Proof. unfold bind. intros ->. reflexivity. Qed.

Lemma try_ok {A} (m : M A) h s a s' :
  m s = (Ok a, s') -> try_except m h s = (Ok a, s').
Proof. unfold try_except. intros ->. reflexivity. Qed.

Lemma try_raise {A} (m : M A) h s e s' :
  m s = (Raise e, s') -> try_except m h s = h e s'.
Proof. unfold try_except. intros ->. reflexivity. Qed.

Lemma try_cancelled {A} (m : M A) h s s' :
  m s = (Cancelled, s') -> try_except m h s = (Cancelled, s').
Proof. unfold try_except. intros ->. reflexivity. Qed.

Lemma quiet_trans s1 s2 s3 : quiet s1 s2 -> quiet s2 s3 -> quiet s1 s3.
Proof. unfold quiet. intuition congruence. Qed.

(** ** Numbers *)

Lemma unit_of_raw_range (r : N) : (0 <= unit_of_raw r /\ unit_of_raw r < 1)%Q.
Proof.
  unfold unit_of_raw, Qle, Qlt; simpl.
  pose proof (Z.mod_pos_bound (Z.of_N r) (Zpos two53) eq_refl) as H.
  lia.
Qed.

Lemma py_max1_spec (v : Q) :
  (1 <= py_max1 v /\ v <= py_max1 v /\ (py_max1 v == v \/ py_max1 v == 1))%Q.
Proof.
  unfold py_max1. destruct (Qlt_le_dec 1 v); repeat split; try lra.
Qed.

Section Facts.

Variable W : world.
Context {lib : UrlLib}.

(** ** Random draws and clocks are quiet *)

Lemma random_choice_run (seq : list string) (s : state) :
  seq <> [] ->
  exists x s', random_choice W seq s = (Ok x, s') /\ In x seq /\ quiet s s'.
Proof.
  destruct seq as [|d seq']; [congruence|]. intros _.
  eexists; eexists. split; [reflexivity|]. split; [|repeat split].
  set (l := d :: seq').
  assert (Hn : (0 < Z.of_nat (List.length l))) by (subst l; cbn [List.length]; lia).
  pose proof (Z.mod_pos_bound (Z.of_N (entropy W (drawn s))) _ Hn).
  apply nth_In. lia.
Qed.

Lemma random_headers_run (s : state) :
  exists ua s', random_headers W s =
                (Ok [("User-Agent"%string, ua); ("Accept"%string, "*/*"%string)], s') /\
                In ua USER_AGENTS /\ quiet s s'.
Proof.
  destruct (random_choice_run USER_AGENTS s) as (ua & s' & H & Hin & Hq);
    [discriminate|].
  exists ua, s'. unfold random_headers. rewrite (bind_ok _ _ _ _ _ H). auto.
Qed.

Lemma random_interval_run (s : state) :
  exists v s', random_interval W s = (Ok v, s') /\ quiet s s'.
Proof.
  eexists; eexists. split.
  - cbv [random_interval random_uniform random_random raw_draw bind ret]. reflexivity.
  - repeat split.
Qed.

Lemma randomize_url_run (url : string) (s : state) :
  match urlparse url with
  | None => randomize_url W url s = (Raise (OtherError "ValueError"), s)
  | Some _ => exists url2 s', randomize_url W url s = (Ok url2, s') /\ quiet s s'
  end.
Proof.
  unfold randomize_url. destruct (urlparse url) as [parsed|]; [|reflexivity].
  cbv [bind random_random raw_draw ret].
  match goal with |- context [Qlt_le_dec ?a ?b] => destruct (Qlt_le_dec a b) end.
  - match goal with |- context [random_choice W ?l ?st] =>
      destruct (random_choice_run l st) as (k & s1 & -> & _ & Hq); [discriminate|]
    end.
    cbv [time_time random_randint randbelow raw_draw bind ret].
    eexists; eexists; split; [reflexivity|].
    destruct Hq as (? & ? & ? & ?). repeat split; cbn; assumption.
  - eexists; eexists; split; [reflexivity|]. repeat split.
Qed.

(** ** Reading traces *)

Lemma deliveries_app (t1 t2 : list event) :
  deliveries (t1 ++ t2) = (deliveries t1 + deliveries t2)%nat.
Proof. unfold deliveries. rewrite filter_app, length_app. reflexivity. Qed.

Lemma exhaustions_app (t1 t2 : list event) :
  exhaustions (t1 ++ t2) = exhaustions t1 ++ exhaustions t2.
Proof. unfold exhaustions. apply flat_map_app. Qed.

Lemma deliveries_pause lvl m d :
  is_response (EvLog lvl m) = false -> deliveries [EvLog lvl m; EvSleep d] = 0%nat.
Proof. intros H. unfold deliveries. cbn [filter]. rewrite H. reflexivity. Qed.

Lemma exhaustions_given_up lvl url b n d :
  exhaustions [EvLog lvl (MsgMaxRetries url b n); EvSleep d] = [(b, n)].
Proof. reflexivity. Qed.

(** ** One request *)

Lemma do_request_cases (url : string) (s : state) (r : result (Z * Q)) (s1 : state) :
  do_request W url s = (r, s1) ->
  consecutive_errors s1 = consecutive_errors s /\ slept s1 = slept s /\
  ((urlparse url = None /\ r = Raise (OtherError "ValueError") /\
    trace s1 = trace s /\ reqs s1 = reqs s) \/
   (exists parsed url2 headers evs,
      urlparse url = Some parsed /\ reqs s1 = S (reqs s) /\
      trace s1 = trace s ++ EvGet url2 headers REQUEST_TIMEOUT :: evs /\
      delivery W url2 s r evs)).
Proof.
  unfold do_request.
  destruct (random_headers_run s) as (ua & sa & Hh & _ & Ha).
  rewrite (bind_ok _ _ _ _ _ Hh). clear Hh.
  pose proof (randomize_url_run url sa) as Hu.
  destruct (urlparse url) as [parsed|].
  2:{ rewrite (bind_raise _ _ _ _ _ Hu). intros [= <- <-].
      destruct Ha as (? & ? & ? & ?). intuition congruence. }
  destruct Hu as (url2 & sb & Hu & Hb).
  rewrite (bind_ok _ _ _ _ _ Hu). clear Hu.
  pose proof (quiet_trans _ _ _ Ha Hb) as (Hce & Hrq & Hsl & Htr). clear Ha Hb.
  cbv [bind perf_counter session_get resp_text try_except log emit ret raise].
  cbv [tick_reqs tick_perfs logged].
  cbn [consecutive_errors reqs slept drawn walls perfs trace].
  rewrite Hrq, Hce, Hsl, Htr.
  set (get := EvGet url2 [("User-Agent"%string, ua); ("Accept"%string, "*/*"%string)]
                REQUEST_TIMEOUT) in *.
  intros H.
  enough (consecutive_errors s1 = consecutive_errors s /\
          slept s1 = slept s /\ reqs s1 = S (reqs s) /\
          exists evs, trace s1 = trace s ++ get :: evs /\
                      delivery W url2 s r evs) as (G1 & G2 & G3 & evs & G4 & G5).
  { split; [congruence|]. split; [congruence|]. right.
    exists parsed, url2, [("User-Agent"%string, ua); ("Accept"%string, "*/*"%string)], evs.
    auto. }
  destruct (net W (reqs s)) as [resp|e|] eqn:Hn.
  - destruct (text resp) as [body|e|] eqn:Ht.
    + injection H as <- <-. cbn. repeat split.
      eexists. split; [rewrite <- app_assoc; reflexivity|].
      econstructor; eassumption.
    + destruct e; injection H as <- <-; cbn; repeat split;
        (eexists; split; [rewrite <- app_assoc; reflexivity|]);
        eapply delivery_broken; try eassumption; cbn; eauto.
    + injection H as <- <-. cbn. repeat split.
      eexists. split; [reflexivity|]. constructor. eauto.
  - destruct e; injection H as <- <-; cbn; repeat split;
      (eexists; split; [rewrite <- app_assoc; reflexivity|]);
      eapply delivery_refused; try eassumption; cbn; eauto.
  - injection H as <- <-. cbn. repeat split.
    eexists. split; [reflexivity|]. constructor. eauto.
Qed.

Lemma delivery_events url2 s r evs :
  delivery W url2 s r evs ->
  Forall timed evs /\ exhaustions evs = [] /\
  deliveries evs = match r with Ok _ => 1%nat | _ => 0%nat end.
Proof.
  assert (Hf : forall e ev, failure_msg url2 e ev ->
                 timed ev /\ exhaustions [ev] = [] /\ deliveries [ev] = 0%nat).
  { intros e ev Hm. destruct e; destruct Hm as [el ->]; cbn; auto. }
  intros [resp body el _ _ | e ev _ Hm | resp e ev _ _ Hm | _].
  - repeat split. repeat constructor.
  - destruct (Hf _ _ Hm) as (? & ? & ?). repeat split; auto.
  - destruct (Hf _ _ Hm) as (? & ? & ?). repeat split; auto.
  - repeat split. constructor.
Qed.

Lemma do_request_summary (url : string) (s : state) (r : result (Z * Q)) (s1 : state) :
  do_request W url s = (r, s1) ->
  consecutive_errors s1 = consecutive_errors s /\ slept s1 = slept s /\
  (reqs s <= reqs s1 <= S (reqs s))%nat /\
  (urlparse url <> None -> reqs s1 = S (reqs s)) /\
  exists T, trace s1 = trace s ++ T /\ Forall timed T /\ exhaustions T = [] /\
            deliveries T = match r with Ok _ => 1%nat | _ => 0%nat end.
Proof.
  intros H. destruct (do_request_cases _ _ _ _ H) as (Hce & Hsl & Hc).
  split; [assumption|]. split; [assumption|].
  destruct Hc as [(Hp & -> & Ht & Hr) | (parsed & url2 & hd & evs & Hp & Hr & Ht & Hd)].
  - split; [lia|]. split; [congruence|].
    exists []. rewrite app_nil_r. repeat split; auto.
  - split; [lia|]. split; [auto|].
    destruct (delivery_events _ _ _ _ Hd) as (F & E & D).
    exists (EvGet url2 hd REQUEST_TIMEOUT :: evs). repeat split; auto.
    constructor; [reflexivity|assumption].
Qed.

(** ** One pass through the retry loop *)

Lemma retry_loop_success url attempt0 s x s1 :
  do_request W url s = (Ok x, s1) ->
  retry_loop W url attempt0 s = (Ok (attempt0 + 1), with_errors 0 s1).
Proof.
  intros H. rewrite retry_loop_equation_1. cbv zeta.
  erewrite try_ok; [reflexivity|].
  rewrite (bind_ok _ _ _ _ _ H). reflexivity.
Qed.

Lemma retry_loop_cancelled url attempt0 s s1 :
  do_request W url s = (Cancelled, s1) ->
  retry_loop W url attempt0 s = (Cancelled, s1).
Proof.
  intros H. rewrite retry_loop_equation_1. cbv zeta.
  erewrite try_cancelled; [reflexivity|].
  rewrite (bind_cancelled _ _ _ _ H). reflexivity.
Qed.

Lemma retry_loop_exhausted url attempt0 s e s1 :
  do_request W url s = (Raise e, s1) ->
  attempt0 + 1 >= MAX_RETRIES ->
  retry_loop W url attempt0 s =
  (after (backoff_nap W s1) (attempt0 + 1), given_up url s1).
Proof.
  intros H Hge. unfold given_up, backoff_nap. rewrite retry_loop_equation_1. cbv zeta.
  erewrite try_raise; [|rewrite (bind_raise _ _ _ _ _ H); reflexivity].
  destruct (Z_ge_dec (attempt0 + 1) MAX_RETRIES) as [_|Hn]; [|contradiction].
  cbv [bind get_errors set_errors log emit asyncio_sleep ret].
  cbn [consecutive_errors with_errors slept logged].
  destruct (naps W (slept s1) _) as [[]| |]; reflexivity.
Qed.

Lemma retry_loop_retry url attempt0 s e s1 :
  do_request W url s = (Raise e, s1) ->
  attempt0 + 1 < MAX_RETRIES ->
  retry_loop W url attempt0 s =
  match retry_nap W (attempt0 + 1) s1 with
  | Ok _ => retry_loop W url (attempt0 + 1) (retrying (attempt0 + 1) s1)
  | Raise e' => (Raise e', retrying (attempt0 + 1) s1)
  | Cancelled => (Cancelled, retrying (attempt0 + 1) s1)
  end.
Proof.
  intros H Hlt. unfold retrying, retry_nap.
  rewrite (retry_loop_equation_1 W url attempt0). cbv zeta.
  erewrite try_raise; [|rewrite (bind_raise _ _ _ _ _ H); reflexivity].
  destruct (Z_ge_dec (attempt0 + 1) MAX_RETRIES) as [Hn|_]; [lia|].
  cbv [bind log emit asyncio_sleep].
  cbn [slept logged].
  destruct (naps W (slept s1) _) as [[]| |]; reflexivity.
Qed.


(** Induction over the runs of the retry loop, one case per way a pass
    through its body can end. *)
Lemma retry_loop_runs (url : string) (P : Z -> state -> result Z -> state -> Prop) :
  (forall a s x s1,
      do_request W url s = (Ok x, s1) ->
      P a s (Ok (a + 1)) (with_errors 0 s1)) ->
  (forall a s s1,
      do_request W url s = (Cancelled, s1) ->
      P a s Cancelled s1) ->
  (forall a s e s1,
      do_request W url s = (Raise e, s1) -> a + 1 >= MAX_RETRIES ->
      P a s (after (backoff_nap W s1) (a + 1)) (given_up url s1)) ->
  (forall a s e s1 r s',
      do_request W url s = (Raise e, s1) -> a + 1 < MAX_RETRIES ->
      retry_nap W (a + 1) s1 = Ok tt ->
      retry_loop W url (a + 1) (retrying (a + 1) s1) = (r, s') ->
      P (a + 1) (retrying (a + 1) s1) r s' ->
      P a s r s') ->
  (forall a s e s1,
      do_request W url s = (Raise e, s1) -> a + 1 < MAX_RETRIES ->
      retry_nap W (a + 1) s1 <> Ok tt ->
      P a s (after (retry_nap W (a + 1) s1) a) (retrying (a + 1) s1)) ->
  forall a s r s', retry_loop W url a s = (r, s') -> P a s r s'.
Proof.
  intros Hok Hcan Hex Hre Hint a.
  remember (attempts_left a) as k eqn:Hk. revert a Hk.
  induction k as [k IH] using lt_wf_ind. intros a Hk s r s' Hrun.
  destruct (do_request W url s) as [[x|e|] s1] eqn:Hd.
  - rewrite (retry_loop_success _ _ _ _ _ Hd) in Hrun. injection Hrun as <- <-. eauto.
  - destruct (Z_ge_dec (a + 1) MAX_RETRIES) as [Hge|Hlt].
    + rewrite (retry_loop_exhausted _ _ _ _ _ Hd Hge) in Hrun.
      injection Hrun as <- <-. eapply Hex; eauto.
    + assert (Hlt' : a + 1 < MAX_RETRIES) by lia.
      rewrite (retry_loop_retry _ _ _ _ _ Hd Hlt') in Hrun.
      destruct (retry_nap W (a + 1) s1) as [[]|e'|] eqn:Hn.
      * eapply Hre; eauto.
        eapply (IH (attempts_left (a + 1))); eauto.
        subst k. unfold attempts_left. lia.
      * injection Hrun as <- <-.
        specialize (Hint a s e s1 Hd Hlt'). rewrite Hn in Hint. apply Hint. discriminate.
      * injection Hrun as <- <-.
        specialize (Hint a s e s1 Hd Hlt'). rewrite Hn in Hint. apply Hint. discriminate.
  - rewrite (retry_loop_cancelled _ _ _ _ Hd) in Hrun. injection Hrun as <- <-. eauto.
Qed.


(** What a run of the retry loop from [a] attempts does to the state. *)
Lemma retry_loop_summary (url : string) (a : Z) (s : state) (r : result Z) (s' : state) :
  retry_loop W url a s = (r, s') ->
  exists T,
    trace s' = trace s ++ T /\ Forall timed T /\
    (reqs s <= reqs s')%nat /\
    Z.of_nat (reqs s') <= Z.of_nat (reqs s) + Z.max 1 (MAX_RETRIES - a) /\
    (deliveries T <= 1)%nat /\
    (deliveries T = 1%nat -> consecutive_errors s' = 0 /\ exhaustions T = [] /\
                             exists a', r = Ok a') /\
    (deliveries T = 0%nat ->
     consecutive_errors s <= consecutive_errors s' <= consecutive_errors s + 1) /\
    (forall a', r = Ok a' ->
       a + 1 <= a' <= Z.max (a + 1) MAX_RETRIES /\
       (urlparse url <> None -> Z.of_nat (reqs s') = Z.of_nat (reqs s) + (a' - a)) /\
       (deliveries T = 1%nat \/
        a' >= MAX_RETRIES /\ consecutive_errors s' = consecutive_errors s + 1 /\
        exhaustions T = [(BACKOFF_BASE * 2 ^ consecutive_errors s,
                          consecutive_errors s + 1)])).
Proof.
  revert a s r s'. apply retry_loop_runs.
  - intros a s x s1 Hd.
    destruct (do_request_summary _ _ _ _ Hd) as (Hce & Hsl & Hrq & Hrq' & T & Ht & Ft & Et & Dt).
    exists T. cbn [with_errors trace reqs consecutive_errors].
    split; [assumption|]. split; [assumption|]. split; [lia|]. split; [lia|].
    split; [lia|]. split; [eauto|]. split; [lia|].
    intros a' [= <-]. split; [lia|]. split; [|left; assumption].
    intros Hp. rewrite (Hrq' Hp). lia.
  - intros a s s1 Hd.
    destruct (do_request_summary _ _ _ _ Hd) as (Hce & Hsl & Hrq & Hrq' & T & Ht & Ft & Et & Dt).
    exists T.
    split; [assumption|]. split; [assumption|]. split; [lia|]. split; [lia|].
    split; [lia|]. split; [intros; lia|]. split; [lia|].
    discriminate.
  - intros a s e s1 Hd Hge.
    destruct (do_request_summary _ _ _ _ Hd) as (Hce & Hsl & Hrq & Hrq' & T & Ht & Ft & Et & Dt).
    unfold given_up. cbn [tick_slept logged with_errors trace reqs consecutive_errors].
    rewrite Ht, <- !app_assoc. cbn [app].
    match goal with |- context [trace s ++ T ++ ?l] => exists (T ++ l) end.
    rewrite deliveries_app, exhaustions_app, Et, Dt, Hce.
    rewrite deliveries_pause by reflexivity. rewrite exhaustions_given_up. cbn [app Nat.add].
    split; [reflexivity|].
    split; [apply Forall_app; split; [assumption|repeat constructor]|].
    split; [lia|]. split; [lia|]. split; [lia|]. split; [discriminate|]. split; [lia|].
    intros a' Ha'.
    assert (a' = a + 1) as -> by (destruct (backoff_nap W s1); cbn in Ha'; congruence).
    split; [lia|]. split; [intros Hp; rewrite (Hrq' Hp); lia|].
    right. split; [lia|]. split; [reflexivity|].
    replace (consecutive_errors s + 1 - 1) with (consecutive_errors s) by lia.
    reflexivity.
  - intros a s e s1 r s' Hd Hlt Hn _ (T2 & Ht2 & Ft2 & Hr1 & Hr2 & D1 & D2 & D3 & D4).
    destruct (do_request_summary _ _ _ _ Hd) as (Hce & Hsl & Hrq & Hrq' & T & Ht & Ft & Et & Dt).
    unfold retrying in *.
    cbn [tick_slept logged with_errors trace reqs consecutive_errors] in *.
    rewrite Ht2, Ht, <- !app_assoc. cbn [app].
    match goal with |- context [trace s ++ T ++ ?x :: ?y :: T2] =>
      exists (T ++ [x; y] ++ T2) end. cbn [app].
    rewrite !deliveries_app, Dt.
    change (?x :: ?y :: T2) with ([x; y] ++ T2).
    rewrite deliveries_app, deliveries_pause by reflexivity. cbn [app Nat.add].
    rewrite Hce in *.
    split; [reflexivity|].
    split; [rewrite Forall_app; split; [assumption|repeat constructor; assumption]|].
    split; [lia|]. split; [lia|]. split; [exact D1|].
    split.
    { intros HD. destruct (D2 HD) as (? & E2 & ?). repeat split; auto.
      rewrite exhaustions_app, Et. assumption. }
    split; [auto|].
    intros a' Ha'. destruct (D4 a' Ha') as (B1 & B2 & B3).
    split; [lia|]. split.
    { intros Hp. rewrite (B2 Hp), (Hrq' Hp). lia. }
    destruct B3 as [B3 | (B3 & B4 & B5)]; [left; assumption|right].
    repeat split; auto; try lia. rewrite exhaustions_app, Et. assumption.
  - intros a s e s1 Hd Hlt Hn.
    destruct (do_request_summary _ _ _ _ Hd) as (Hce & Hsl & Hrq & Hrq' & T & Ht & Ft & Et & Dt).
    unfold retrying. cbn [tick_slept logged with_errors trace reqs consecutive_errors].
    rewrite Ht, <- !app_assoc. cbn [app].
    match goal with |- context [trace s ++ T ++ ?l] => exists (T ++ l) end.
    rewrite deliveries_app, Dt, Hce.
    rewrite deliveries_pause by reflexivity. cbn [app Nat.add].
    split; [reflexivity|].
    split; [apply Forall_app; split; [assumption|repeat constructor]|].
    split; [lia|]. split; [lia|]. split; [lia|]. split; [discriminate|]. split; [lia|].
    intros a' Ha'. exfalso.
    destruct (retry_nap W (a + 1) s1) as [[]| |]; cbn in Ha'; congruence.
Qed.


(** ** One cycle and one iteration *)

Lemma rested_quiet s1 :
  consecutive_errors (rested W s1) = consecutive_errors s1 /\
  reqs (rested W s1) = reqs s1 /\ slept (rested W s1) = S (slept s1) /\
  trace (rested W s1) =
  trace s1 ++ [EvLog INFO (MsgNextPing (interval_of W s1)); EvSleep (interval_of W s1)].
Proof.
  destruct (random_interval_run s1) as (v & sq & Hv & Hce & Hrq & Hsl & Htr).
  unfold rested. rewrite Hv.
  cbn [snd tick_slept logged consecutive_errors reqs slept trace].
  rewrite <- app_assoc, Htr. auto.
Qed.

Lemma cycle_cases (url : string) (s : state) :
  cycle W url s =
  match retry_loop W url 0 s with
  | (Ok _, s1) => (interval_nap W s1, rested W s1)
  | (Raise e, s1) => (Raise e, s1)
  | (Cancelled, s1) => (Cancelled, s1)
  end.
Proof.
  unfold cycle. destruct (retry_loop W url 0 s) as [[a|e|] s1] eqn:Hr.
  - rewrite (bind_ok _ _ _ _ _ Hr).
    destruct (random_interval_run s1) as (v & sq & Hv & Hq).
    rewrite (bind_ok _ _ _ _ _ Hv).
    unfold rested, interval_nap, interval_of. rewrite Hv.
    destruct Hq as (_ & _ & Hsl & _).
    cbv [bind log emit asyncio_sleep]. cbn [slept logged snd]. rewrite Hsl.
    destruct (naps W (slept s1) v) as [[]| |]; reflexivity.
  - apply bind_raise. assumption.
  - apply bind_cancelled. assumption.
Qed.

Lemma URLS_inhabited : URLS <> [].
Proof. discriminate. Qed.

Lemma iteration_cases (s : state) :
  exists url s0,
    random_choice W URLS s = (Ok url, s0) /\ In url URLS /\ quiet s s0 /\
    iteration W s =
    match cycle W url s0 with
    | (Raise e, s1) => (recovery_nap W s1, recovered e s1)
    | other => other
    end.
Proof.
  destruct (random_choice_run URLS s URLS_inhabited) as (url & s0 & Hc & Hin & Hq).
  exists url, s0. split; [assumption|]. split; [assumption|]. split; [assumption|].
  unfold iteration. rewrite (bind_ok _ _ _ _ _ Hc). unfold try_except.
  destruct (cycle W url s0) as [[[]|e|] s1]; reflexivity.
Qed.


Lemma iteration_summary (s : state) (r : result unit) (s' : state) :
  iteration W s = (r, s') ->
  exists T,
    trace s' = trace s ++ T /\ Forall timed T /\
    (deliveries T <= 1)%nat /\
    (deliveries T = 1%nat -> consecutive_errors s' = 0) /\
    (deliveries T = 0%nat ->
     consecutive_errors s <= consecutive_errors s' <= consecutive_errors s + 1) /\
    (reqs s <= reqs s')%nat /\
    Z.of_nat (reqs s') <= Z.of_nat (reqs s) + Z.max 1 MAX_RETRIES /\
    (forall e, r = Raise e ->
       exists e0 s1, s' = recovered e0 s1 /\ recovery_nap W s1 = Raise e).
Proof.
  destruct (iteration_cases s) as (url & s0 & _ & _ & (Hce0 & Hrq0 & _ & Htr0) & ->).
  rewrite cycle_cases.
  destruct (retry_loop W url 0 s0) as [r1 s1] eqn:Hr.
  destruct (retry_loop_summary _ _ _ _ _ Hr)
    as (T & Ht & Ft & Hr1 & Hr2 & D1 & D2' & D3 & _).
  rewrite Htr0 in Ht. rewrite Hce0 in D3. rewrite Hrq0 in Hr1, Hr2.
  replace (MAX_RETRIES - 0) with MAX_RETRIES in Hr2 by lia.
  assert (D2 : deliveries T = 1%nat -> consecutive_errors s1 = 0)
    by (intros HD; apply D2'; assumption).
  assert (Hrec : forall e s2 T2,
             trace s2 = trace s ++ T2 -> Forall timed T2 ->
             trace (recovered e s2) = trace s ++ T2 ++ [EvLog ERROR (MsgFatal e); EvSleep 60] /\
             Forall timed (T2 ++ [EvLog ERROR (MsgFatal e); EvSleep 60]) /\
             deliveries (T2 ++ [EvLog ERROR (MsgFatal e); EvSleep 60]) = deliveries T2 /\
             consecutive_errors (recovered e s2) = consecutive_errors s2 /\
             reqs (recovered e s2) = reqs s2).
  { intros e s2 T2 H2 F2. unfold recovered.
    cbn [tick_slept logged consecutive_errors reqs trace].
    rewrite H2, <- !app_assoc, deliveries_app.
    rewrite deliveries_pause by reflexivity. rewrite Nat.add_0_r.
    repeat split. apply Forall_app; split; [assumption|repeat constructor]. }
  destruct (rested_quiet s1) as (Qce & Qrq & _ & Qtr).
  rewrite Ht, <- app_assoc in Qtr.
  assert (Fq : Forall timed
                 (T ++ [EvLog INFO (MsgNextPing (interval_of W s1));
                        EvSleep (interval_of W s1)])).
  { apply Forall_app; split; [assumption|repeat constructor]. }
  assert (Dq : deliveries (T ++ [EvLog INFO (MsgNextPing (interval_of W s1));
                                 EvSleep (interval_of W s1)]) = deliveries T).
  { rewrite deliveries_app, deliveries_pause by reflexivity. apply Nat.add_0_r. }
  destruct r1 as [a|e|]; cbv beta iota.
  - destruct (interval_nap W s1) as [[]|e|] eqn:Hn; intros [= <- <-].
    + eexists. split; [exact Qtr|]. rewrite Dq, Qce, Qrq.
      split; [assumption|]. split; [assumption|]. split; [assumption|].
      split; [assumption|]. split; [assumption|]. split; [assumption|].
      discriminate.
    + destruct (Hrec e _ _ Qtr Fq) as (R1 & R2 & R3 & R4 & R5).
      eexists. split; [exact R1|]. rewrite R3, R4, R5, Dq, Qce, Qrq.
      split; [assumption|]. split; [assumption|]. split; [assumption|].
      split; [assumption|]. split; [assumption|]. split; [assumption|].
      intros e' He'. eauto.
    + eexists. split; [exact Qtr|]. rewrite Dq, Qce, Qrq.
      split; [assumption|]. split; [assumption|]. split; [assumption|].
      split; [assumption|]. split; [assumption|]. split; [assumption|].
      discriminate.
  - intros [= <- <-].
    destruct (Hrec e _ _ Ht Ft) as (R1 & R2 & R3 & R4 & R5).
    eexists. split; [exact R1|]. rewrite R3, R4, R5.
    split; [assumption|]. split; [assumption|]. split; [assumption|].
    split; [assumption|]. split; [assumption|]. split; [assumption|].
    intros e' He'. eauto.
  - intros [= <- <-]. exists T.
    split; [assumption|]. split; [assumption|].
    split; [assumption|]. split; [intros HD; apply D2; assumption|].
    split; [assumption|]. split; [assumption|]. split; [assumption|].
    discriminate.
Qed.

(** ** The outer loop *)

Lemma worker_loop_step (n : nat) (s : state) :
  worker_loop W (S n) s =
  match iteration W s with
  | (Ok _, s1) => worker_loop W n s1
  | (Raise e, s1) => (Raise e, s1)
  | (Cancelled, s1) => (Cancelled, s1)
  end.
Proof.
  cbn [worker_loop]. unfold bind. destruct (iteration W s) as [[[]|e|] s1]; reflexivity.
Qed.

Lemma worker_loop_summary (n : nat) (s : state) (r : result unit) (s' : state) :
  worker_loop W n s = (r, s') ->
  exists T,
    trace s' = trace s ++ T /\ Forall timed T /\
    (deliveries T = 0%nat ->
     consecutive_errors s <= consecutive_errors s' <= consecutive_errors s + Z.of_nat n) /\
    (0 <= consecutive_errors s -> 0 <= consecutive_errors s') /\
    Z.of_nat (reqs s') <= Z.of_nat (reqs s) + Z.of_nat n * Z.max 1 MAX_RETRIES /\
    (forall e, r = Raise e ->
       exists e0 s1, s' = recovered e0 s1 /\ recovery_nap W s1 = Raise e).
Proof.
  revert s. induction n as [|n IH]; intros s.
  - intros [= <- <-]. exists []. rewrite app_nil_r.
    split; [reflexivity|]. split; [constructor|]. split; [intros; lia|].
    split; [auto|]. split; [lia|]. discriminate.
  - rewrite worker_loop_step.
    destruct (iteration W s) as [r1 s1] eqn:Hi.
    destruct (iteration_summary _ _ _ Hi) as (T1 & Ht1 & Ft1 & D1 & D2 & D3 & _ & Hr1 & He1).
    assert (Hpos : 0 <= consecutive_errors s -> 0 <= consecutive_errors s1).
    { intros Hc. destruct (deliveries T1) as [|[|k]] eqn:HD; [|rewrite D2 by reflexivity|]; lia. }
    destruct r1 as [[]|e|].
    + intros Hw. destruct (IH _ Hw) as (T2 & Ht2 & Ft2 & E2 & P2 & R2 & X2).
      exists (T1 ++ T2). rewrite Ht2, Ht1, <- app_assoc, deliveries_app.
      split; [reflexivity|]. split; [apply Forall_app; auto|].
      split; [intros HD; specialize (D3 ltac:(lia)); specialize (E2 ltac:(lia)); lia|].
      split; [auto|]. split; [lia|]. assumption.
    + intros [= <- <-]. exists T1.
      split; [assumption|]. split; [assumption|].
      split; [intros HD; specialize (D3 HD); lia|].
      split; [assumption|]. split; [lia|].
      intros e' [= <-]. apply He1. reflexivity.
    + intros [= <- <-]. exists T1.
      split; [assumption|]. split; [assumption|].
      split; [intros HD; specialize (D3 HD); lia|].
      split; [assumption|]. split; [lia|]. discriminate.
Qed.


(** ** A world in which every delivery fails *)

Section Outage.

Hypothesis outage : forall k, failing (net W k).
Hypothesis awake : forall k seconds, naps W k seconds = Ok tt.

Lemma do_request_outage url s r s1 :
  do_request W url s = (r, s1) -> exists e, r = Raise e.
Proof.
  intros H. destruct (do_request_cases _ _ _ _ H) as (_ & _ & Hc).
  destruct Hc as [(_ & -> & _) | (parsed & url2 & hd & evs & _ & _ & _ & Hd)]; [eauto|].
  specialize (outage (reqs s)).
  destruct Hd as [resp body el Hn Ht | e ev _ _ | resp e ev _ _ _ | [Hn | (resp & Hn & Ht)]];
    eauto; rewrite Hn in outage; cbn in outage.
  - destruct outage as [e He]. congruence.
  - contradiction.
  - destruct outage as [e He]. congruence.
Qed.

Lemma retry_loop_outage url a s r s' :
  retry_loop W url a s = (r, s') ->
  (exists a', r = Ok a') /\
  consecutive_errors s' = consecutive_errors s + 1 /\
  exhaustions (trace s') =
  exhaustions (trace s) ++ [(BACKOFF_BASE * 2 ^ consecutive_errors s,
                             consecutive_errors s + 1)].
Proof.
  revert a s r s'. apply retry_loop_runs.
  - intros a s x s1 Hd. destruct (do_request_outage _ _ _ _ Hd). discriminate.
  - intros a s s1 Hd. destruct (do_request_outage _ _ _ _ Hd). discriminate.
  - intros a s e s1 Hd Hge.
    destruct (do_request_summary _ _ _ _ Hd) as (Hce & _ & _ & _ & T & Ht & _ & Et & _).
    unfold backoff_nap. rewrite awake. split; [cbn; eauto|].
    unfold given_up. cbn [tick_slept logged with_errors trace consecutive_errors].
    rewrite Ht, Hce, <- !app_assoc, !exhaustions_app, Et. cbn [app].
    split; [reflexivity|].
    replace (consecutive_errors s + 1 - 1) with (consecutive_errors s) by lia.
    reflexivity.
  - intros a s e s1 r s' Hd Hlt Hn _ (Hr & Hc & He).
    destruct (do_request_summary _ _ _ _ Hd) as (Hce & _ & _ & _ & T & Ht & _ & Et & _).
    unfold retrying in Hc, He.
    cbn [tick_slept logged trace consecutive_errors] in Hc, He.
    rewrite Hce in Hc, He.
    rewrite Ht, <- !app_assoc, !exhaustions_app, Et in He.
    cbn [exhaustions flat_map app] in He. rewrite app_nil_r in He.
    auto.
  - intros a s e s1 _ _ Hn. unfold retry_nap in Hn. rewrite awake in Hn. congruence.
Qed.

Lemma iteration_outage s :
  exists s',
    iteration W s = (Ok tt, s') /\
    consecutive_errors s' = consecutive_errors s + 1 /\
    exhaustions (trace s') =
    exhaustions (trace s) ++ [(BACKOFF_BASE * 2 ^ consecutive_errors s,
                               consecutive_errors s + 1)].
Proof.
  destruct (iteration_cases s) as (url & s0 & _ & _ & (Hce0 & _ & _ & Htr0) & ->).
  rewrite cycle_cases.
  destruct (retry_loop W url 0 s0) as [r1 s1] eqn:Hr.
  destruct (retry_loop_outage _ _ _ _ _ Hr) as ((a' & ->) & Hc & He).
  unfold interval_nap. rewrite awake. exists (rested W s1). split; [reflexivity|].
  destruct (rested_quiet s1) as (Qce & _ & _ & Qtr).
  rewrite Qce, Qtr, exhaustions_app, He, Hc, Hce0, Htr0.
  split; [reflexivity|]. cbn [exhaustions flat_map app]. apply app_nil_r.
Qed.

Lemma worker_loop_outage n s :
  exists s',
    worker_loop W n s = (Ok tt, s') /\
    consecutive_errors s' = consecutive_errors s + Z.of_nat n /\
    exhaustions (trace s') = exhaustions (trace s) ++ streak (consecutive_errors s) n.
Proof.
  revert s. induction n as [|n IH]; intros s.
  - exists s. split; [reflexivity|]. split; [cbn; lia|].
    cbn [streak]. symmetry. apply app_nil_r.
  - destruct (iteration_outage s) as (s1 & Hi & Hc1 & He1).
    destruct (IH s1) as (s' & Hw & Hc & He).
    exists s'. rewrite worker_loop_step, Hi. split; [assumption|].
    split; [lia|]. rewrite He, He1, Hc1, <- app_assoc. reflexivity.
Qed.

End Outage.

End Facts.

(** ** Records are followed by the sleeps they announce *)

Lemma kept_app announce t1 t2 :
  kept announce t1 -> kept announce t2 -> kept announce (t1 ++ t2).
Proof.
  induction t1 as [|ev rest IH]; cbn [kept app]; [auto|].
  intros [H1 H2] H3. split; [|auto].
  destruct (announce ev); [|exact I].
  destruct rest as [|[] rest']; cbn [app]; auto; contradiction.
Qed.

Lemma kept_silent announce t :
  Forall (fun ev => announce ev = None) t -> kept announce t.
Proof.
  induction 1 as [|ev rest H _ IH]; cbn [kept]; [exact I|].
  rewrite H. auto.
Qed.

Lemma paced_app T1 T2 : paced T1 -> paced T2 -> paced (T1 ++ T2).
Proof.
  intros (A1 & B1 & C1 & D1) (A2 & B2 & C2 & D2).
  repeat split; auto using kept_app; apply Forall_app; auto.
Qed.

Lemma paced_nil : paced [].
Proof. repeat split; constructor. Qed.

Lemma of_request_paced T : Forall of_request T -> paced T.
Proof.
  intros H. repeat split.
  - apply kept_silent. eapply Forall_impl; [|exact H].
    intros [| |lvl []]; cbn; auto; contradiction.
  - apply kept_silent. eapply Forall_impl; [|exact H].
    intros [| |lvl []]; cbn; auto; contradiction.
  - eapply Forall_impl; [|exact H]. intros [| |lvl []]; cbn; auto; contradiction.
  - eapply Forall_impl; [|exact H]. intros [| |lvl []]; cbn; auto; contradiction.
Qed.

Section Pace.

Variable W : world.
Context {lib : UrlLib}.

Lemma do_request_events url s r s1 :
  do_request W url s = (r, s1) ->
  exists T, trace s1 = trace s ++ T /\ Forall of_request T.
Proof.
  intros H. destruct (do_request_cases W _ _ _ _ H) as (_ & _ & Hc).
  destruct Hc as [(_ & _ & Ht & _) | (parsed & url2 & hd & evs & _ & _ & Ht & Hd)].
  - exists []. rewrite app_nil_r. auto.
  - exists (EvGet url2 hd REQUEST_TIMEOUT :: evs). split; [assumption|].
    constructor; [reflexivity|].
    assert (Hf : forall e ev, failure_msg url2 e ev -> of_request ev).
    { intros e ev Hm. destruct e; destruct Hm as [el ->]; exact I. }
    destruct Hd as [resp body el _ _ | e ev _ Hm | resp e ev _ _ Hm | _];
      repeat constructor; eauto.
Qed.

Lemma paced_pause lvl m d :
  backoff_of (EvLog lvl m) = None \/ backoff_of (EvLog lvl m) = Some d ->
  retry_wait_of (EvLog lvl m) = None \/ retry_wait_of (EvLog lvl m) = Some d ->
  sound_backoff (EvLog lvl m) -> sound_retry (EvLog lvl m) ->
  paced [EvLog lvl m; EvSleep d].
Proof.
  intros Hb Hr Sb Sr. unfold paced. cbn [kept].
  split; [|split; [|split]].
  - destruct Hb as [->| ->]; cbn; auto.
  - destruct Hr as [->| ->]; cbn; auto.
  - repeat constructor. assumption.
  - repeat constructor. assumption.
Qed.

Lemma of_request_counted T : Forall of_request T -> Forall counted T.
Proof.
  intros H. eapply Forall_impl; [|exact H]. intros [| |lvl []]; cbn; auto; contradiction.
Qed.

Lemma stretch_trans s1 s2 s3 T1 T2 :
  stretch s1 s2 T1 -> stretch s2 s3 T2 -> stretch s1 s3 (T1 ++ T2).
Proof.
  intros (H1 & P1 & C1) (H2 & P2 & C2). split; [|split].
  - rewrite H2, H1, app_assoc. reflexivity.
  - apply paced_app; assumption.
  - intros Hc. destruct (C1 Hc) as [F1 Hc1]. destruct (C2 Hc1) as [F2 Hc2].
    split; [apply Forall_app; auto|assumption].
Qed.

Lemma stretch_request url s r s1 :
  do_request W url s = (r, s1) -> exists T, stretch s s1 T.
Proof.
  intros Hd. destruct (do_request_events _ _ _ _ Hd) as (T & Ht & Ft).
  destruct (do_request_summary W _ _ _ _ Hd) as (Hce & _).
  exists T. split; [assumption|]. split; [apply of_request_paced; assumption|].
  intros Hc. split; [apply of_request_counted; assumption|lia].
Qed.

(** A record and the sleep it announces, appended to the trace, the
    counter set to [n]. *)
Lemma stretch_pause lvl m d n s1 s2 :
  trace s2 = trace s1 ++ [EvLog lvl m; EvSleep d] ->
  consecutive_errors s2 = n ->
  backoff_of (EvLog lvl m) = None \/ backoff_of (EvLog lvl m) = Some d ->
  retry_wait_of (EvLog lvl m) = None \/ retry_wait_of (EvLog lvl m) = Some d ->
  sound_backoff (EvLog lvl m) -> sound_retry (EvLog lvl m) ->
  (0 <= consecutive_errors s1 -> counted (EvLog lvl m) /\ 0 <= n) ->
  stretch s1 s2 [EvLog lvl m; EvSleep d].
Proof.
  intros Ht Hn Hb Hr Sb Sr Hc. split; [assumption|].
  split; [apply paced_pause; assumption|].
  intros H0. destruct (Hc H0) as [Hcount Hpos]. rewrite Hn.
  split; [repeat constructor; assumption|assumption].
Qed.

Lemma retry_loop_stretch url a s r s' :
  retry_loop W url a s = (r, s') -> 0 <= a -> exists T, stretch s s' T.
Proof.
  revert a s r s'.
  apply (retry_loop_runs W url (fun a s r s' => 0 <= a -> exists T, stretch s s' T)).
  - intros a s x s1 Hd _.
    destruct (stretch_request _ _ _ _ Hd) as (T & Ht & Pt & Ct).
    exists T. split; [assumption|]. split; [assumption|].
    intros Hc. split; [apply Ct; assumption|cbn; lia].
  - intros a s s1 Hd _. apply (stretch_request _ _ _ _ Hd).
  - intros a s e s1 Hd Hge _.
    destruct (stretch_request _ _ _ _ Hd) as (T & HT).
    eexists. eapply stretch_trans; [exact HT|].
    unfold given_up. eapply stretch_pause.
    + cbn [tick_slept logged with_errors trace]. rewrite <- app_assoc. reflexivity.
    + reflexivity.
    + right. reflexivity.
    + left. reflexivity.
    + reflexivity.
    + exact I.
    + cbn. lia.
  - intros a s e s1 r s' Hd Hlt Hn _ IH Ha.
    destruct (stretch_request _ _ _ _ Hd) as (T & HT).
    destruct IH as (T2 & HT2); [lia|].
    eexists. eapply stretch_trans; [exact HT|].
    eapply stretch_trans; [|exact HT2].
    unfold retrying. eapply stretch_pause.
    + cbn [tick_slept logged trace]. rewrite <- app_assoc. reflexivity.
    + reflexivity.
    + left. reflexivity.
    + right. reflexivity.
    + exact I.
    + split; [lia|split; reflexivity].
    + cbn. auto.
  - intros a s e s1 Hd Hlt Hn Ha.
    destruct (stretch_request _ _ _ _ Hd) as (T & HT).
    eexists. eapply stretch_trans; [exact HT|].
    unfold retrying. eapply stretch_pause.
    + cbn [tick_slept logged trace]. rewrite <- app_assoc. reflexivity.
    + reflexivity.
    + left. reflexivity.
    + right. reflexivity.
    + exact I.
    + split; [lia|split; reflexivity].
    + cbn. auto.
Qed.

Lemma stretch_quiet s s0 s' T : quiet s s0 -> stretch s0 s' T -> stretch s s' T.
Proof.
  intros (Hce & _ & _ & Htr) (H1 & P1 & C1). rewrite Hce, Htr in *.
  split; [assumption|]. split; assumption.
Qed.

Lemma stretch_rested s1 :
  stretch s1 (rested W s1)
    [EvLog INFO (MsgNextPing (interval_of W s1)); EvSleep (interval_of W s1)].
Proof.
  destruct (rested_quiet W s1) as (Qce & _ & _ & Qtr).
  eapply stretch_pause; try eassumption; cbn; auto.
Qed.

Lemma stretch_recovered e s1 :
  stretch s1 (recovered e s1) [EvLog ERROR (MsgFatal e); EvSleep 60].
Proof.
  unfold recovered. eapply stretch_pause.
  - cbn [tick_slept logged trace]. rewrite <- app_assoc. reflexivity.
  - reflexivity.
  - left. reflexivity.
  - left. reflexivity.
  - exact I.
  - exact I.
  - cbn. auto.
Qed.

Lemma iteration_stretch s r s' :
  iteration W s = (r, s') -> exists T, stretch s s' T.
Proof.
  destruct (iteration_cases W s) as (url & s0 & _ & _ & Hq & ->).
  rewrite cycle_cases. intros Hrun.
  destruct (retry_loop W url 0 s0) as [r1 s1] eqn:Hr.
  destruct (retry_loop_stretch _ _ _ _ _ Hr) as (T & HT); [lia|].
  apply (stretch_quiet _ _ _ _ Hq) in HT.
  pose proof (stretch_trans _ _ _ _ _ HT (stretch_rested s1)) as HQ.
  destruct r1 as [a|e|]; cbv beta iota in Hrun.
  - destruct (interval_nap W s1) as [[]|e|]; injection Hrun as <- <-.
    + eauto.
    + eexists. eapply stretch_trans; [exact HQ|apply stretch_recovered].
    + eauto.
  - injection Hrun as <- <-.
    eexists. eapply stretch_trans; [exact HT|apply stretch_recovered].
  - injection Hrun as <- <-. eauto.
Qed.

Lemma stretch_refl s : stretch s s [].
Proof.
  split; [symmetry; apply app_nil_r|]. split; [apply paced_nil|]. auto.
Qed.

Lemma worker_loop_stretch n s r s' :
  worker_loop W n s = (r, s') -> exists T, stretch s s' T.
Proof.
  revert s. induction n as [|n IH]; intros s.
  - intros [= <- <-]. exists []. apply stretch_refl.
  - rewrite worker_loop_step.
    destruct (iteration W s) as [r1 s1] eqn:Hi. intros Hrun.
    destruct (iteration_stretch _ _ _ Hi) as (T1 & HT1).
    destruct r1 as [[]|e|].
    + destruct (IH _ Hrun) as (T2 & HT2).
      eexists. eapply stretch_trans; eassumption.
    + injection Hrun as <- <-. eauto.
    + injection Hrun as <- <-. eauto.
Qed.

End Pace.

(** ** Two worlds whose requests fail alike *)

Lemma same_event_refl ev : same_event ev ev.
Proof. left. reflexivity. Qed.

Lemma same_trace_refl t : Forall2 same_event t t.
Proof. induction t; constructor; auto using same_event_refl. Qed.

Lemma same_state_refl s : same_state s s.
Proof. repeat split. apply same_trace_refl. Qed.

Lemma sim_ret {A} strict (a : A) : sim strict (ret a) (ret a).
Proof. intros s1 s2 H. split; [reflexivity|assumption]. Qed.

Lemma sim_raise {A} (e1 e2 : exn) : sim (A:=A) false (raise e1) (raise e2).
Proof. intros s1 s2 H. split; [discriminate|assumption]. Qed.

Lemma sim_bind {A B} strict (m1 m2 : M A) (k1 k2 : A -> M B) :
  sim strict m1 m2 -> (forall a, sim strict (k1 a) (k2 a)) ->
  sim strict (bind m1 k1) (bind m2 k2).
Proof.
  intros Hm Hk s1 s2 Hs. specialize (Hm s1 s2 Hs). unfold bind.
  destruct (m1 s1) as [[a1|e1|] t1], (m2 s2) as [[a2|e2|] t2];
    cbn [fst snd same_result] in Hm; destruct Hm as [Hr Ht]; try contradiction.
  - subst a2. apply Hk. assumption.
  - split; assumption.
  - split; assumption.
Qed.

Lemma sim_weaken {A} (m1 m2 : M A) : sim true m1 m2 -> sim false m1 m2.
Proof.
  intros Hm s1 s2 Hs. destruct (Hm s1 s2 Hs) as [Hr Ht]. split; [|assumption].
  destruct (fst (m1 s1)), (fst (m2 s2)); cbn in *; auto; discriminate.
Qed.

Lemma sim_try_loose {A} strict (m1 m2 : M A) (h1 h2 : exn -> M A) :
  sim false m1 m2 -> (forall e1 e2, sim strict (h1 e1) (h2 e2)) ->
  sim strict (try_except m1 h1) (try_except m2 h2).
Proof.
  intros Hm Hh s1 s2 Hs. specialize (Hm s1 s2 Hs). unfold try_except.
  destruct (m1 s1) as [[a1|e1|] t1], (m2 s2) as [[a2|e2|] t2];
    cbn [fst snd same_result] in Hm; destruct Hm as [Hr Ht]; try contradiction.
  - subst a2. split; [reflexivity|assumption].
  - apply Hh. assumption.
  - split; [exact I|assumption].
Qed.

Lemma sim_try_strict {A} strict (m1 m2 : M A) (h1 h2 : exn -> M A) :
  sim true m1 m2 -> (forall e, sim strict (h1 e) (h2 e)) ->
  sim strict (try_except m1 h1) (try_except m2 h2).
Proof.
  intros Hm Hh s1 s2 Hs. specialize (Hm s1 s2 Hs). unfold try_except.
  destruct (m1 s1) as [[a1|e1|] t1], (m2 s2) as [[a2|e2|] t2];
    cbn [fst snd same_result] in Hm; destruct Hm as [Hr Ht]; try contradiction.
  - subst a2. split; [reflexivity|assumption].
  - rewrite (Hr eq_refl). apply Hh. assumption.
  - split; [exact I|assumption].
Qed.

Lemma sim_emit strict (ev1 ev2 : event) :
  same_event ev1 ev2 -> sim strict (emit ev1) (emit ev2).
Proof.
  intros He s1 s2 (H1 & H2 & H3 & H4 & H5 & H6 & H7).
  split; [reflexivity|]. cbn. repeat split; try assumption.
  apply Forall2_app; [assumption|]. constructor; [assumption|constructor].
Qed.

Lemma sim_set_errors strict n : sim strict (set_errors n) (set_errors n).
Proof.
  intros s1 s2 (H1 & H2 & H3 & H4 & H5 & H6 & H7).
  split; [reflexivity|]. cbn. repeat split; assumption.
Qed.

Lemma sim_get_errors strict : sim strict get_errors get_errors.
Proof.
  intros s1 s2 Hs. split; [|assumption]. cbn. apply Hs.
Qed.

Section Alike.

Variable W : world.
Variable net' : nat -> result response.
Hypothesis alike : forall k, same_fate (net W k) (net' k).
Context {lib : UrlLib}.

Lemma sim_raw_draw strict :
  sim strict (raw_draw W) (raw_draw (with_net W net')).
Proof. same_counters. Qed.

Lemma sim_time_time strict :
  sim strict (time_time W) (time_time (with_net W net')).
Proof. same_counters. Qed.

Lemma sim_perf_counter strict :
  sim strict (perf_counter W) (perf_counter (with_net W net')).
Proof. same_counters. Qed.

Lemma sim_asyncio_sleep d :
  sim true (asyncio_sleep W d) (asyncio_sleep (with_net W net') d).
Proof.
  same_counters.
  - destruct (naps W (slept s2) d) as [[]| |]; cbn; auto.
  - apply Forall2_app; [assumption|]. constructor; [apply same_event_refl|constructor].
Qed.

Lemma sim_random_choice strict seq :
  sim strict (random_choice W seq) (random_choice (with_net W net') seq).
Proof.
  destruct seq as [|d seq']; cbn [random_choice].
  - intros s1 s2 Hs. split; [|assumption]. cbn. destruct strict; auto.
  - apply sim_bind; [|intros; apply sim_ret].
    unfold randbelow. apply sim_bind; [apply sim_raw_draw|intros; apply sim_ret].
Qed.

Lemma sim_random_uniform strict a b :
  sim strict (random_uniform W a b) (random_uniform (with_net W net') a b).
Proof.
  unfold random_uniform, random_random.
  repeat (apply sim_bind; [|intros; try apply sim_ret]).
  apply sim_raw_draw.
Qed.

Lemma sim_random_interval strict :
  sim strict (random_interval W) (random_interval (with_net W net')).
Proof.
  unfold random_interval.
  apply sim_bind; [apply sim_random_uniform|intros base].
  apply sim_bind; [apply sim_random_uniform|intros; apply sim_ret].
Qed.

Lemma sim_random_headers strict :
  sim strict (random_headers W) (random_headers (with_net W net')).
Proof.
  unfold random_headers.
  apply sim_bind; [apply sim_random_choice|intros; apply sim_ret].
Qed.

Lemma sim_randomize_url url :
  sim true (randomize_url W url) (randomize_url (with_net W net') url).
Proof.
  unfold randomize_url. destruct (urlparse url) as [parsed|].
  2:{ intros s1 s2 Hs. split; [|assumption]. cbn. auto. }
  apply sim_bind; [|intros r].
  { unfold random_random. apply sim_bind; [apply sim_raw_draw|intros; apply sim_ret]. }
  apply sim_bind; [|intros; apply sim_ret].
  destruct (Qlt_le_dec r float_0_7); [|apply sim_ret].
  apply sim_bind; [apply sim_random_choice|intros key].
  apply sim_bind; [apply sim_time_time|intros now].
  apply sim_bind; [|intros; apply sim_ret].
  unfold random_randint, randbelow.
  apply sim_bind; [|intros; apply sim_ret].
  apply sim_bind; [apply sim_raw_draw|intros; apply sim_ret].
Qed.


(** The body of the [try] of [do_request]: what is received may differ in
    the error only. *)
Lemma sim_delivery url2 headers start :
  sim false
    (resp <- session_get W url2 headers REQUEST_TIMEOUT ;;
     now <- perf_counter W ;;
     let elapsed := (now - start)%Q in
     text_snippet <- resp_text resp ;;
     log INFO (MsgResponse url2 (status resp) elapsed (String.length text_snippet)) ;;
     ret (status resp, elapsed))
    (resp <- session_get (with_net W net') url2 headers REQUEST_TIMEOUT ;;
     now <- perf_counter (with_net W net') ;;
     let elapsed := (now - start)%Q in
     text_snippet <- resp_text resp ;;
     log INFO (MsgResponse url2 (status resp) elapsed (String.length text_snippet)) ;;
     ret (status resp, elapsed)).
Proof.
  intros s1 s2 (H1 & H2 & H3 & H4 & H5 & H6 & H7).
  assert (H8 : Forall2 same_event (trace s1 ++ [EvGet url2 headers REQUEST_TIMEOUT])
                 (trace s2 ++ [EvGet url2 headers REQUEST_TIMEOUT])).
  { apply Forall2_app; [assumption|]. constructor; [apply same_event_refl|constructor]. }
  pose proof (alike (reqs s2)) as Ha.
  unfold with_net.
  cbv [bind session_get perf_counter resp_text log emit ret
       tick_reqs tick_perfs logged].
  cbn [net perf consecutive_errors reqs slept drawn walls perfs trace].
  rewrite H2, H6.
  destruct (net W (reqs s2)) as [r1|e1|], (net' (reqs s2)) as [r2|e2|];
    cbn [same_fate] in Ha; try contradiction.
  - destruct Ha as [Hst Ha].
    destruct (text r1) as [b1|x1|], (text r2) as [b2|x2|]; try contradiction.
    + subst b2. rewrite Hst. split; [reflexivity|].
      repeat split; cbn; try congruence;
        try (apply Forall2_app; [assumption|]; constructor;
             [apply same_event_refl|constructor]).
    + split; [discriminate|]. repeat split; cbn; try congruence; try assumption.
    + split; [exact I|]. repeat split; cbn; try congruence; try assumption.
  - split; [discriminate|]. repeat split; cbn; try congruence; try assumption.
  - split; [exact I|]. repeat split; cbn; try congruence; try assumption.
Qed.

Lemma sim_do_request url :
  sim false (do_request W url) (do_request (with_net W net') url).
Proof.
  unfold do_request.
  apply sim_bind; [apply sim_random_headers|intros headers].
  apply sim_bind; [apply sim_weaken, sim_randomize_url|intros url2].
  apply sim_bind; [apply sim_perf_counter|intros start].
  apply sim_try_loose; [apply sim_delivery|intros e1 e2].
  apply sim_bind; [apply sim_perf_counter|intros now].
  apply sim_bind; [|intros; apply sim_raise].
  destruct e1, e2; apply sim_emit; right; cbn; split; congruence.
Qed.

Lemma sim_retry_loop url a :
  sim true (retry_loop W url a) (retry_loop (with_net W net') url a).
Proof.
  remember (attempts_left a) as k eqn:Hk. revert a Hk.
  induction k as [k IH] using lt_wf_ind. intros a Hk.
  rewrite !retry_loop_equation_1. cbv zeta.
  apply sim_try_loose.
  - apply sim_bind; [apply sim_do_request|intros _].
    apply sim_bind; [apply sim_set_errors|intros _; apply sim_ret].
  - intros _ _. destruct (Z_ge_dec (a + 1) MAX_RETRIES) as [Hge|Hlt].
    + apply sim_bind; [apply sim_get_errors|intros n].
      apply sim_bind; [apply sim_set_errors|intros _].
      apply sim_bind; [apply sim_get_errors|intros m].
      apply sim_bind; [apply sim_emit, same_event_refl|intros _].
      apply sim_bind; [apply sim_asyncio_sleep|intros _; apply sim_ret].
    + apply sim_bind; [apply sim_emit, same_event_refl|intros _].
      apply sim_bind; [apply sim_asyncio_sleep|intros _].
      apply (IH (attempts_left (a + 1))); [|reflexivity].
      subst k. unfold attempts_left. lia.
Qed.

Lemma sim_cycle url : sim true (cycle W url) (cycle (with_net W net') url).
Proof.
  unfold cycle.
  apply sim_bind; [apply sim_retry_loop|intros _].
  apply sim_bind; [apply sim_random_interval|intros interval].
  apply sim_bind; [apply sim_emit, same_event_refl|intros _].
  apply sim_asyncio_sleep.
Qed.

Lemma sim_iteration : sim true (iteration W) (iteration (with_net W net')).
Proof.
  unfold iteration.
  apply sim_bind; [apply sim_random_choice|intros url].
  apply sim_try_strict; [apply sim_cycle|intros e].
  apply sim_bind; [apply sim_emit, same_event_refl|intros _].
  apply sim_asyncio_sleep.
Qed.

Lemma sim_worker_loop n :
  sim true (worker_loop W n) (worker_loop (with_net W net') n).
Proof.
  induction n as [|n IH]; cbn [worker_loop].
  - apply sim_ret.
  - apply sim_bind; [apply sim_iteration|intros _; apply IH].
Qed.

End Alike.

(** ** Dictionaries *)

Lemma dict_set_keys k v d :
  keys (dict_set k v d) = if existsb (String.eqb k) (keys d) then keys d else keys d ++ [k].
Proof.
  induction d as [|[k' v'] d IH]; cbn [dict_set keys map existsb fst]; [reflexivity|].
  destruct (String.eqb k k') eqn:E; cbn [orb map fst]; [reflexivity|].
  fold (keys (dict_set k v d)). fold (keys d). rewrite IH.
  destruct (existsb (String.eqb k) (keys d)); reflexivity.
Qed.

Lemma existsb_eqb_In k l : existsb (String.eqb k) l = true <-> In k l.
Proof.
  rewrite existsb_exists. split.
  - intros (x & Hin & He). apply String.eqb_eq in He. congruence.
  - intros Hin. exists k. split; [assumption|apply String.eqb_refl].
Qed.

Lemma dict_set_keys_present k v d : In k (keys d) -> keys (dict_set k v d) = keys d.
Proof.
  intros H. rewrite dict_set_keys. apply existsb_eqb_In in H. rewrite H. reflexivity.
Qed.

Lemma dict_set_keys_absent k v d : ~ In k (keys d) -> keys (dict_set k v d) = keys d ++ [k].
Proof.
  intros H. rewrite dict_set_keys.
  destruct (existsb (String.eqb k) (keys d)) eqn:E; [|reflexivity].
  apply existsb_eqb_In in E. contradiction.
Qed.

Lemma dict_set_NoDup k v d : NoDup (keys d) -> NoDup (keys (dict_set k v d)).
Proof.
  intros H. destruct (in_dec string_dec k (keys d)) as [Hin|Hin].
  - rewrite dict_set_keys_present; assumption.
  - rewrite dict_set_keys_absent by assumption.
    apply NoDup_app; [assumption|repeat constructor; intros []|].
    intros x Hx [<-|[]]. contradiction.
Qed.

Lemma dict_get_set_same k v d : dict_get k (dict_set k v d) = Some v.
Proof.
  induction d as [|[k' v'] d IH]; cbn [dict_set dict_get].
  - rewrite String.eqb_refl. reflexivity.
  - destruct (String.eqb k k') eqn:E; cbn [dict_get]; rewrite E; auto.
Qed.

Lemma dict_get_set_other k k' v d : k' <> k -> dict_get k' (dict_set k v d) = dict_get k' d.
Proof.
  intros Hne. induction d as [|[k0 v0] d IH]; cbn [dict_set dict_get].
  - destruct (String.eqb_spec k' k); [contradiction|reflexivity].
  - destruct (String.eqb_spec k k0) as [->|Hk]; cbn [dict_get].
    + destruct (String.eqb_spec k' k0); [contradiction|reflexivity].
    + rewrite IH. reflexivity.
Qed.

Lemma In_dict_get k v d : NoDup (keys d) -> In (k, v) d -> dict_get k d = Some v.
Proof.
  induction d as [|[k' v'] d IH]; cbn [dict_get keys map fst]; [intros _ []|].
  intros Hnd [[= -> ->]|Hin].
  - rewrite String.eqb_refl. reflexivity.
  - inversion Hnd as [|? ? Hnotin Hnd']; subst.
    destruct (String.eqb_spec k k') as [->|Hk].
    + exfalso. apply Hnotin. change k' with (fst (k', v)). apply in_map. assumption.
    + apply IH; assumption.
Qed.

Lemma dict_set_length_present k v d :
  In k (keys d) -> List.length (dict_set k v d) = List.length d.
Proof.
  intros H. rewrite <- (length_map fst (dict_set k v d)), <- (length_map fst d).
  fold (keys (dict_set k v d)). fold (keys d).
  rewrite dict_set_keys_present by assumption. reflexivity.
Qed.

Lemma dict_set_length k v d :
  (List.length (dict_set k v d) <= S (List.length d))%nat.
Proof.
  induction d as [|[k' v'] d IH]; cbn [dict_set List.length]; [lia|].
  destruct (String.eqb k k'); cbn [List.length]; lia.
Qed.

Lemma dict_from_cons acc k v pairs :
  dict_from acc ((k, v) :: pairs) = dict_from (dict_set k v acc) pairs.
Proof. reflexivity. Qed.

Lemma dict_from_NoDup pairs : forall acc, NoDup (keys acc) -> NoDup (keys (dict_from acc pairs)).
Proof.
  induction pairs as [|[k v] pairs IH]; intros acc H; [assumption|].
  rewrite dict_from_cons. apply IH, dict_set_NoDup, H.
Qed.

Lemma dict_from_keys pairs : forall acc k,
  In k (keys (dict_from acc pairs)) <-> In k (keys acc) \/ In k (map fst pairs).
Proof.
  induction pairs as [|[k0 v0] pairs IH]; intros acc k.
  - cbn. tauto.
  - rewrite dict_from_cons, IH. cbn [map fst In].
    rewrite dict_set_keys.
    destruct (existsb (String.eqb k0) (keys acc)) eqn:E.
    + apply existsb_eqb_In in E. intuition (subst; auto).
    + rewrite in_app_iff. cbn [In]. tauto.
Qed.


Lemma dict_from_length pairs : forall acc,
  (List.length (dict_from acc pairs) <= List.length acc + List.length pairs)%nat.
Proof.
  induction pairs as [|[k v] pairs IH]; intros acc.
  - cbn. lia.
  - rewrite dict_from_cons. cbn [List.length].
    specialize (IH (dict_set k v acc)).
    pose proof (dict_set_length k v acc). lia.
Qed.

Lemma dict_NoDup pairs : NoDup (keys (dict pairs)).
Proof. apply (dict_from_NoDup pairs []). constructor. Qed.

Lemma dict_keys pairs k : In k (keys (dict pairs)) <-> In k (map fst pairs).
Proof.
  unfold dict. pose proof (dict_from_keys pairs [] k) as H. cbn in H. tauto.
Qed.


Lemma dict_length pairs : (List.length (dict pairs) <= List.length pairs)%nat.
Proof. apply (dict_from_length pairs []). Qed.

Lemma dict_set_absent k v d : ~ In k (keys d) -> dict_set k v d = d ++ [(k, v)].
Proof.
  induction d as [|[k' v'] d IH]; intros Hn; [reflexivity|].
  cbn [dict_set]. destruct (String.eqb_spec k k') as [->|Hne].
  - exfalso. apply Hn. left. reflexivity.
  - cbn [app]. rewrite IH; [reflexivity|]. intros H. apply Hn. right. exact H.
Qed.

Lemma dict_from_distinct pairs : forall acc,
  NoDup (keys acc ++ map fst pairs) -> dict_from acc pairs = acc ++ pairs.
Proof.
  induction pairs as [|[k v] rest IH]; intros acc Hnd.
  - cbn. rewrite app_nil_r. reflexivity.
  - rewrite dict_from_cons.
    assert (Hk : ~ In k (keys acc)).
    { intros Hin. cbn [map fst] in Hnd. apply NoDup_remove_2 in Hnd.
      apply Hnd. apply in_or_app. left. exact Hin. }
    rewrite (dict_set_absent _ _ _ Hk).
    rewrite IH.
    + rewrite <- app_assoc. reflexivity.
    + unfold keys in *. rewrite map_app, <- app_assoc. exact Hnd.
Qed.

Lemma dict_distinct pairs : NoDup (map fst pairs) -> dict pairs = pairs.
Proof. intros H. apply (dict_from_distinct pairs []). exact H. Qed.

(** ** [randomize_url] *)

Section Url.

Variable W : world.
Context {lib : UrlLib}.

Lemma chosen_key_extra s : In (chosen_key W s) EXTRA_QUERY_KEYS.
Proof.
  unfold chosen_key. apply nth_In.
  pose proof (Z.mod_pos_bound (Z.of_N (entropy W (S (drawn s))))
                (Z.of_nat (List.length EXTRA_QUERY_KEYS)) eq_refl).
  lia.
Qed.

Lemma randomize_url_result url s parsed :
  urlparse url = Some parsed ->
  exists s',
    randomize_url W url s =
    (Ok (urlunparse (replace_query parsed (urlencode (new_params W s parsed)))), s') /\
    quiet s s'.
Proof.
  intros Hp. unfold randomize_url, new_params. rewrite Hp.
  cbv [bind random_random raw_draw ret].
  destruct (Qlt_le_dec (unit_of_raw (entropy W (drawn s))) float_0_7).
  - eexists. split; [reflexivity|]. repeat split.
  - eexists. split; [reflexivity|]. repeat split.
Qed.

End Url.

(** ** How the retry loop is left *)

Section Exits.

Variable W : world.
Context {lib : UrlLib}.

(** What the result of a request says of the world. *)
Lemma delivery_fate url2 s r evs :
  delivery W url2 s r evs ->
  match r with
  | Ok _ => delivers (net W (reqs s))
  | Raise _ => failing (net W (reqs s))
  | Cancelled => ~ delivers (net W (reqs s))
  end.
Proof.
  intros [resp body el Hn Ht | e ev Hn _ | resp e ev Hn Ht _ | Hc].
  - rewrite Hn. exists body. exact Ht.
  - rewrite Hn. exact I.
  - rewrite Hn. exists e. exact Ht.
  - destruct Hc as [Hn|(resp & Hn & Ht)]; rewrite Hn; [intros []|].
    intros [body Hb]. congruence.
Qed.

Lemma delivers_not_failing r : delivers r -> failing r -> False.
Proof.
  destruct r as [resp|e|]; cbn; [|intros []|intros []].
  intros [body Hb] [e He]. congruence.
Qed.

(** A request cancelled leaves the request as the last event. *)
Lemma do_request_cancelled url s s1 :
  do_request W url s = (Cancelled, s1) -> cut_short W (trace s1).
Proof.
  intros Hd. destruct (do_request_cases W _ _ _ _ Hd) as (_ & _ & Hc).
  destruct Hc as [(_ & Hx & _) | (parsed & url2 & hd & evs & _ & _ & Ht & Hdel)];
    [discriminate|].
  inversion Hdel as [| | |Hcan Hr Hev]. subst evs.
  exists (trace s), (EvGet url2 hd REQUEST_TIMEOUT). split; [exact Ht|].
  exists (reqs s). exact Hcan.
Qed.

(** How the retry loop is left when it is not left by [break]: by the
    error of one of its sleeps, or by the cancellation of a request or of
    a sleep. *)
Lemma retry_loop_left url a s r s' :
  retry_loop W url a s = (r, s') ->
  match r with
  | Ok _ => True
  | Raise e => nap_failed W e (trace s')
  | Cancelled => cut_short W (trace s')
  end.
Proof.
  revert a s r s'.
  apply (retry_loop_runs W url (fun a s r s' =>
           match r with
           | Ok _ => True
           | Raise e => nap_failed W e (trace s')
           | Cancelled => cut_short W (trace s')
           end)).
  - intros; exact I.
  - intros a s s1 Hd. exact (do_request_cancelled _ _ _ Hd).
  - intros a s e s1 _ _. unfold backoff_nap, given_up.
    destruct (naps W (slept s1) _) as [[]|e'|] eqn:Hn; cbn [after]; [exact I| |].
    + eexists. eexists. exists (slept s1).
      cbn [trace tick_slept logged with_errors]. split; [reflexivity|exact Hn].
    + eexists. eexists.
      cbn [trace tick_slept logged with_errors]. split; [reflexivity|].
      exists (slept s1). exact Hn.
  - intros a s e s1 r s' _ _ _ _ IH. exact IH.
  - intros a s e s1 _ _ _. unfold retry_nap, retrying.
    destruct (naps W (slept s1) _) as [[]|e'|] eqn:Hn; cbn [after]; [exact I| |].
    + eexists. eexists. exists (slept s1).
      cbn [trace tick_slept logged]. split; [reflexivity|exact Hn].
    + eexists. eexists.
      cbn [trace tick_slept logged]. split; [reflexivity|].
      exists (slept s1). exact Hn.
Qed.

(** The attempts of a run of the retry loop on a URL that parses, read
    off the world: [n] requests fail, each followed by the wait for the
    next, and the request after them decides how the loop is left. *)
Lemma retry_loop_attempts url a s r s' :
  urlparse url <> None ->
  retry_loop W url a s = (r, s') ->
  exists (n : nat) T,
    reqs s' = S (reqs s + n) /\
    trace s' = trace s ++ T /\
    (forall i, (i < n)%nat -> failing (net W (reqs s + i))) /\
    match r with
    | Ok a' =>
        a' = a + Z.of_nat (S n) /\
        ((delivers (net W (reqs s + n)) /\ deliveries T = 1%nat) \/
         (failing (net W (reqs s + n)) /\ a' >= MAX_RETRIES /\ deliveries T = 0%nat))
    | Raise _ => failing (net W (reqs s + n))
    | Cancelled => ~ delivers (net W (reqs s + n))
    end.
Proof.
  intros Hp. revert a s r s'.
  assert (Hreq : forall s r s1,
             do_request W url s = (r, s1) ->
             reqs s1 = S (reqs s) /\
             exists T, trace s1 = trace s ++ T /\
                       deliveries T = match r with Ok _ => 1%nat | _ => 0%nat end /\
                       match r with
                       | Ok _ => delivers (net W (reqs s))
                       | Raise _ => failing (net W (reqs s))
                       | Cancelled => ~ delivers (net W (reqs s))
                       end).
  { intros s r s1 Hd.
    destruct (do_request_summary W _ _ _ _ Hd) as (_ & _ & _ & Hrq & T & Ht & _ & _ & HD).
    split; [exact (Hrq Hp)|]. exists T. split; [exact Ht|]. split; [exact HD|].
    destruct (do_request_cases W _ _ _ _ Hd) as (_ & _ & Hc).
    destruct Hc as [(Hn & _) | (parsed & url2 & hd & evs & _ & _ & _ & Hdel)];
      [contradiction|].
    exact (delivery_fate _ _ _ _ Hdel). }
  apply (retry_loop_runs W url (fun a s r s' =>
    exists (n : nat) T,
      reqs s' = S (reqs s + n) /\
      trace s' = trace s ++ T /\
      (forall i, (i < n)%nat -> failing (net W (reqs s + i))) /\
      match r with
      | Ok a' =>
          a' = a + Z.of_nat (S n) /\
          ((delivers (net W (reqs s + n)) /\ deliveries T = 1%nat) \/
           (failing (net W (reqs s + n)) /\ a' >= MAX_RETRIES /\ deliveries T = 0%nat))
      | Raise _ => failing (net W (reqs s + n))
      | Cancelled => ~ delivers (net W (reqs s + n))
      end)).
  - intros a s x s1 Hd. destruct (Hreq _ _ _ Hd) as (Hrq & T & Ht & HD & Hf).
    exists 0%nat, T. rewrite Nat.add_0_r. cbn [reqs trace with_errors].
    split; [exact Hrq|]. split; [exact Ht|]. split; [intros i Hi; lia|].
    split; [lia|]. left. auto.
  - intros a s s1 Hd. destruct (Hreq _ _ _ Hd) as (Hrq & T & Ht & HD & Hf).
    exists 0%nat, T. rewrite Nat.add_0_r.
    split; [exact Hrq|]. split; [exact Ht|]. split; [intros i Hi; lia|]. exact Hf.
  - intros a s e s1 Hd Hge. destruct (Hreq _ _ _ Hd) as (Hrq & T & Ht & HD & Hf).
    exists 0%nat. eexists. rewrite Nat.add_0_r. unfold given_up.
    cbn [reqs trace tick_slept logged with_errors].
    split; [exact Hrq|]. split; [rewrite Ht, <- !app_assoc; reflexivity|].
    split; [intros i Hi; lia|].
    destruct (backoff_nap W s1) as [[]|e'|]; cbn [after]; [|exact Hf|].
    + split; [lia|]. right. split; [exact Hf|]. split; [lia|].
      rewrite deliveries_app, HD. reflexivity.
    + intros Hdel. exact (delivers_not_failing _ Hdel Hf).
  - intros a s e s1 r s' Hd Hlt _ _ (n & T2 & Hrq2 & Ht2 & Hfail & Hlast).
    destruct (Hreq _ _ _ Hd) as (Hrq & T & Ht & HD & Hf).
    unfold retrying in Hrq2, Ht2, Hfail, Hlast.
    cbn [reqs trace tick_slept logged] in Hrq2, Ht2, Hfail, Hlast.
    rewrite Hrq in Hrq2, Hfail, Hlast.
    exists (S n). eexists.
    split; [rewrite Hrq2; lia|].
    split; [rewrite Ht2, Ht, <- !app_assoc; reflexivity|].
    split.
    { intros [|i] Hi; [rewrite Nat.add_0_r; exact Hf|].
      replace (reqs s + S i)%nat with (S (reqs s) + i)%nat by lia.
      apply Hfail. lia. }
    replace (reqs s + S n)%nat with (S (reqs s) + n)%nat by lia.
    destruct r as [a'|e'|]; [|exact Hlast|exact Hlast].
    destruct Hlast as (Ha' & Hcase). split; [lia|].
    destruct Hcase as [(Hdel & HD2)|(Hf2 & Hge & HD2)]; [left|right].
    + split; [exact Hdel|]. rewrite !deliveries_app, HD, HD2. reflexivity.
    + split; [exact Hf2|]. split; [exact Hge|].
      rewrite !deliveries_app, HD, HD2. reflexivity.
  - intros a s e s1 Hd Hlt Hn. destruct (Hreq _ _ _ Hd) as (Hrq & T & Ht & HD & Hf).
    exists 0%nat. eexists. rewrite Nat.add_0_r. unfold retrying.
    cbn [reqs trace tick_slept logged].
    split; [exact Hrq|]. split; [rewrite Ht, <- !app_assoc; reflexivity|].
    split; [intros i Hi; lia|].
    destruct (retry_nap W (a + 1) s1) as [[]|e'|]; cbn [after];
      [congruence|exact Hf|].
    intros Hdel. exact (delivers_not_failing _ Hdel Hf).
Qed.

(** On a URL that does not parse no request is sent. *)
Lemma retry_loop_unsent url a s r s' :
  urlparse url = None ->
  retry_loop W url a s = (r, s') -> reqs s' = reqs s.
Proof.
  intros Hp. revert a s r s'.
  assert (Hreq : forall s r s1, do_request W url s = (r, s1) -> reqs s1 = reqs s).
  { intros s r s1 Hd. destruct (do_request_cases W _ _ _ _ Hd) as (_ & _ & Hc).
    destruct Hc as [(_ & _ & _ & Hrq) | (parsed & _ & _ & _ & Hp' & _)];
      [exact Hrq|congruence]. }
  apply (retry_loop_runs W url (fun a s r s' => reqs s' = reqs s)).
  - intros a s x s1 Hd. exact (Hreq _ _ _ Hd).
  - intros a s s1 Hd. exact (Hreq _ _ _ Hd).
  - intros a s e s1 Hd _. exact (Hreq _ _ _ Hd).
  - intros a s e s1 r s' Hd _ _ _ IH. rewrite IH. exact (Hreq _ _ _ Hd).
  - intros a s e s1 Hd _ _. exact (Hreq _ _ _ Hd).
Qed.

End Exits.

(** In a world that cancels nothing and whose sleeps complete the retry
    loop is left by [break]. *)
Lemma retry_loop_breaks (W : world) {lib : UrlLib} url a s r s' :
  answering W -> (forall k seconds, naps W k seconds = Ok tt) ->
  retry_loop W url a s = (r, s') -> exists attempt, r = Ok attempt.
Proof.
  intros Ha Hn Hr. pose proof (retry_loop_left W _ _ _ _ _ Hr) as Hl.
  destruct r as [a'|e|]; [eauto| |].
  - destruct Hl as (pre & d & k & _ & Hk). rewrite Hn in Hk. discriminate.
  - destruct Hl as (pre & ev & _ & Hc). destruct ev as [url2 hd t|d|lvl m].
    + destruct Hc as [k Hk]. pose proof (Ha k) as Hak.
      destruct Hk as [Hk|(resp & Hk & Ht)]; rewrite Hk in Hak; [contradiction|].
      contradiction.
    + destruct Hc as [k Hk]. rewrite Hn in Hk. discriminate.
    + contradiction.
Qed.

(* ================================================================== *)
(** * The claims of the specification *)

(** C1.  Every interval [random_interval] returns is at least one second
    and lies within [0.85 * MIN_INTERVAL_SECONDS, 1.15 * MAX_INTERVAL_SECONDS].
    The base is [MIN + (MAX - MIN) * u1] and the jittered value is
    [lo + (hi - lo) * u2] with [lo = base - base * JITTER_PCT] and
    [hi = base + base * JITTER_PCT], where [u1] and [u2] are the two
    draws of [random.random()], both in [0, 1): the base lies in
    [MIN, MAX] and the value in [0.85 * base, 1.15 * base]. *)
Theorem random_interval_bounds (W : world) (s : state) :
  let u1 := unit_of_raw (entropy W (drawn s)) in
  let u2 := unit_of_raw (entropy W (S (drawn s))) in
  let lo := inject_Z MIN_INTERVAL_SECONDS in
  let hi := inject_Z MAX_INTERVAL_SECONDS in
  let base := (lo + (hi - lo) * u1)%Q in
  let jitter := (base * JITTER_PCT)%Q in
  let value := ((base - jitter) + ((base + jitter) - (base - jitter)) * u2)%Q in
  exists interval s',
    random_interval W s = (Ok interval, s') /\
    interval = py_max1 value /\
    ((0 <= u1 /\ u1 < 1) /\ (0 <= u2 /\ u2 < 1) /\
     (lo <= base /\ base <= hi) /\
     ((85 # 100) * base <= value /\ value <= (115 # 100) * base) /\
     1 <= interval /\
     (85 # 100) * lo <= interval /\ interval <= (115 # 100) * hi)%Q.
Proof.
  intros u1 u2 lo hi base jitter value.
  exists (py_max1 value). eexists.
  split.
  { cbv [random_interval random_uniform random_random raw_draw bind ret].
    cbn [drawn tick_drawn]. reflexivity. }
  split; [reflexivity|].
  pose proof (unit_of_raw_range (entropy W (drawn s))) as [H1 H1'].
  pose proof (unit_of_raw_range (entropy W (S (drawn s)))) as [H2 H2'].
  fold u1 in H1, H1'. fold u2 in H2, H2'.
  pose proof (py_max1_spec value) as (Hm1 & Hm2 & Hm3).
  assert (Hlo : (lo == 600)%Q) by reflexivity.
  assert (Hhi : (hi == 1500)%Q) by reflexivity.
  assert (Hb : (lo <= base /\ base <= hi)%Q).
  { unfold base. rewrite Hlo, Hhi. split; nra. }
  assert (Hv : ((85 # 100) * base <= value /\ value <= (115 # 100) * base)%Q).
  { unfold value, jitter, JITTER_PCT. destruct Hb as [Hb1 Hb2]. rewrite Hlo in Hb1.
    split; nra. }
  destruct Hb as [Hb1 Hb2], Hv as [Hv1 Hv2]. rewrite Hlo in Hb1. rewrite Hhi in Hb2.
  split; [split; assumption|]. split; [split; assumption|].
  split; [rewrite Hlo, Hhi; split; assumption|].
  split; [split; assumption|].
  split; [assumption|]. rewrite Hlo, Hhi.
  split; [lra|]. destruct Hm3 as [E|E]; rewrite E; lra.
Qed.

(** C2.  When a delivery fails on the last attempt of a cycle, the
    consecutive-failure counter is incremented to [N], the script records
    and sleeps exactly [BACKOFF_BASE * 2 ^ (N - 1)] seconds, and leaves the
    retry loop; [N >= 1] since the counter is never negative.  In every
    run, each record of a cycle given up carries that backoff for the
    count it carries and is followed at once by the sleep of that backoff.
    Across the cycles of an unbroken streak the backoff escalates: in a
    world where every delivery fails and every sleep completes, [n]
    iterations from a counter [c] end with the counter at [c + n], having
    given up with [BACKOFF_BASE * 2 ^ c], then twice that, and so on. *)
Theorem backoff_after_exhaustion (W : world) {lib : UrlLib} :
  (forall url attempt0 s e s1,
      do_request W url s = (Raise e, s1) ->
      attempt0 + 1 >= MAX_RETRIES ->
      let N := consecutive_errors s + 1 in
      let backoff := BACKOFF_BASE * 2 ^ (N - 1) in
      exists s2,
        retry_loop W url attempt0 s =
        (after (naps W (slept s) (inject_Z backoff)) (attempt0 + 1), s2) /\
        consecutive_errors s2 = N /\
        trace s2 = trace s1 ++ [EvLog WARNING (MsgMaxRetries url backoff N);
                                EvSleep (inject_Z backoff)] /\
        (0 <= consecutive_errors s -> 1 <= N)) /\
  (forall n s r s',
      worker W n s = (r, s') -> 0 <= consecutive_errors s') /\
  (forall n s r s',
      worker_loop W n s = (r, s') ->
      exists T,
        trace s' = trace s ++ T /\ kept backoff_of T /\ Forall sound_backoff T /\
        (0 <= consecutive_errors s -> Forall counted T)) /\
  ((forall k, failing (net W k)) -> (forall k seconds, naps W k seconds = Ok tt) ->
   forall n s,
   exists s',
     worker_loop W n s = (Ok tt, s') /\
     consecutive_errors s' = consecutive_errors s + Z.of_nat n /\
     exhaustions (trace s') = exhaustions (trace s) ++ streak (consecutive_errors s) n).
Proof.
  split; [|split; [|split]].
  - intros url attempt0 s e s1 Hd Hge N backoff.
    exists (given_up url s1).
    rewrite (retry_loop_exhausted W _ _ _ _ _ Hd Hge).
    destruct (do_request_summary W _ _ _ _ Hd) as (Hce & Hsl & _).
    unfold given_up, backoff_nap.
    cbn [tick_slept logged with_errors consecutive_errors trace].
    subst N backoff. rewrite Hce, Hsl, <- app_assoc.
    split; [reflexivity|]. split; [reflexivity|]. split; [reflexivity|]. lia.
  - intros n s r s'. unfold worker.
    rewrite (bind_ok _ _ s tt (with_errors 0 s) eq_refl).
    intros Hw. destruct (worker_loop_summary W _ _ _ _ Hw) as (_ & _ & _ & _ & H & _).
    apply H. cbn. lia.
  - intros n s r s' Hw.
    destruct (worker_loop_stretch W _ _ _ _ Hw) as (T & Ht & (Kb & _ & Sb & _) & Hc).
    exists T. split; [assumption|]. split; [assumption|]. split; [assumption|].
    intros H0. apply Hc. assumption.
  - intros Hout Hawake n s. apply worker_loop_outage; assumption.
Qed.

(** In the world of timeouts three iterations give up with backoffs of 5,
    10 and 20 seconds. *)
Lemma backoff_after_exhaustion_witness :
  (exists s2,
      retry_loop (lib := Reference.lib) timeouts target 2 init = (Ok 3, s2) /\
      consecutive_errors s2 = 1 /\
      exhaustions (trace s2) = [(5, 1)]) /\
  (exists s',
      worker_loop (lib := Reference.lib) timeouts 3 init = (Ok tt, s') /\
      consecutive_errors s' = 3 /\
      exhaustions (trace s') = [(5, 1); (10, 2); (20, 3)]).
Proof.
  destruct (backoff_after_exhaustion (lib := Reference.lib) timeouts)
    as (Hstep & _ & _ & Hrun).
  split.
  - destruct (Hstep target 2 init TimeoutError
                (snd (do_request (lib := Reference.lib) timeouts target init)))
      as (s2 & H1 & H2 & H3 & _).
    + vm_compute. reflexivity.
    + vm_compute. discriminate.
    + exists s2. split; [exact H1|]. split; [exact H2|]. rewrite H3. reflexivity.
  - destruct (Hrun (fun _ => I) (fun _ _ => eq_refl) 3%nat init) as (s' & H1 & H2 & H3).
    exists s'. split; [exact H1|]. split; [exact H2|exact H3].
Defined.

(** C3.  When an attempt fails and attempts remain in the cycle, the
    script records the retry, sleeps exactly
    [BACKOFF_BASE * 2 ^ (attempt - 1)] seconds, where [attempt] is the
    number (from 1) of the attempt that failed, and only then tries again;
    the counter of consecutive failures is left alone.  In every run, each
    record of a retry carries that wait for the attempt it carries, an
    attempt from 1 and below [MAX_RETRIES], and is followed at once by the
    sleep of that wait. *)
Theorem retry_wait_between_attempts (W : world) {lib : UrlLib} :
  (forall url attempt0 s e s1,
      do_request W url s = (Raise e, s1) ->
      attempt0 + 1 < MAX_RETRIES ->
      let attempt := attempt0 + 1 in
      let retry_wait := BACKOFF_BASE * 2 ^ (attempt - 1) in
      exists s2,
        trace s2 = trace s1 ++ [EvLog INFO (MsgRetry attempt MAX_RETRIES retry_wait);
                                EvSleep (inject_Z retry_wait)] /\
        consecutive_errors s2 = consecutive_errors s /\
        slept s2 = S (slept s) /\
        retry_loop W url attempt0 s =
        match naps W (slept s) (inject_Z retry_wait) with
        | Ok _ => retry_loop W url attempt s2
        | Raise e' => (Raise e', s2)
        | Cancelled => (Cancelled, s2)
        end) /\
  (forall n s r s',
      worker_loop W n s = (r, s') ->
      exists T,
        trace s' = trace s ++ T /\ kept retry_wait_of T /\ Forall sound_retry T).
Proof.
  split.
  - intros url attempt0 s e s1 Hd Hlt attempt retry_wait.
    destruct (do_request_summary W _ _ _ _ Hd) as (Hce & Hsl & _).
    exists (retrying attempt s1).
    unfold retrying. cbn [tick_slept logged consecutive_errors slept trace].
    rewrite <- app_assoc, Hce, Hsl.
    split; [reflexivity|]. split; [reflexivity|]. split; [reflexivity|].
    rewrite (retry_loop_retry W _ _ _ _ _ Hd Hlt). unfold retry_nap. rewrite Hsl.
    reflexivity.
  - intros n s r s' Hw.
    destruct (worker_loop_stretch W _ _ _ _ Hw) as (T & Ht & (_ & Kr & _ & Sr) & _).
    exists T. auto.
Qed.

(** With the constants of the script the waits after the first and the
    second failed attempt are 5 and 10 seconds. *)
Lemma retry_wait_between_attempts_witness :
  (exists s2,
      trace s2 =
      trace (snd (do_request (lib := Reference.lib) timeouts target init)) ++
      [EvLog INFO (MsgRetry 1 3 5); EvSleep 5] /\
      retry_loop (lib := Reference.lib) timeouts target 0 init =
      retry_loop (lib := Reference.lib) timeouts target 1 s2) /\
  (exists s2,
      trace s2 =
      trace (snd (do_request (lib := Reference.lib) timeouts target init)) ++
      [EvLog INFO (MsgRetry 2 3 10); EvSleep 10]).
Proof.
  destruct (retry_wait_between_attempts (lib := Reference.lib) timeouts) as (Hstep & _).
  split.
  - destruct (Hstep target 0 init TimeoutError
                (snd (do_request (lib := Reference.lib) timeouts target init)))
      as (s2 & H1 & _ & _ & H2).
    + vm_compute. reflexivity.
    + vm_compute. reflexivity.
    + exists s2. split; [exact H1|exact H2].
  - destruct (Hstep target 1 init TimeoutError
                (snd (do_request (lib := Reference.lib) timeouts target init)))
      as (s2 & H1 & _).
    + vm_compute. reflexivity.
    + vm_compute. reflexivity.
    + exists s2. exact H1.
Defined.

(** C4.  The counter of consecutive failures is set to exactly 0 as soon
    as a delivery succeeds, with nothing done in between; an iteration
    that records a delivery ends with the counter at 0, one that records
    none leaves it where it was or one higher; and over any number of
    iterations without a delivery the counter never decreases. *)
Theorem errors_counter_discipline (W : world) {lib : UrlLib} :
  (forall url attempt0 s x s1,
      do_request W url s = (Ok x, s1) ->
      exists s2,
        retry_loop W url attempt0 s = (Ok (attempt0 + 1), s2) /\
        consecutive_errors s2 = 0 /\ trace s2 = trace s1) /\
  (forall s r s',
      iteration W s = (r, s') ->
      exists T,
        trace s' = trace s ++ T /\ (deliveries T <= 1)%nat /\
        (deliveries T = 1%nat -> consecutive_errors s' = 0) /\
        (deliveries T = 0%nat ->
         consecutive_errors s <= consecutive_errors s' <= consecutive_errors s + 1)) /\
  (forall n s r s',
      worker_loop W n s = (r, s') ->
      exists T,
        trace s' = trace s ++ T /\
        (deliveries T = 0%nat -> consecutive_errors s <= consecutive_errors s')).
Proof.
  split; [|split].
  - intros url attempt0 s x s1 Hd. exists (with_errors 0 s1).
    split; [apply (retry_loop_success W _ _ _ _ _ Hd)|]. split; reflexivity.
  - intros s r s' Hi.
    destruct (iteration_summary W _ _ _ Hi) as (T & Ht & _ & D1 & D2 & D3 & _).
    exists T. auto.
  - intros n s r s' Hw.
    destruct (worker_loop_summary W _ _ _ _ Hw) as (T & Ht & _ & D & _).
    exists T. split; [assumption|]. intros HD. specialize (D HD). lia.
Qed.

(** After two cycles given up, a response resets the counter from 2 to 0. *)
Lemma errors_counter_discipline_witness :
  let s := with_errors 2 init in
  (exists s2,
      retry_loop (lib := Reference.lib) healthy target 0 s = (Ok 1, s2) /\
      consecutive_errors s2 = 0) /\
  (exists T,
      trace (snd (iteration (lib := Reference.lib) timeouts s)) = trace s ++ T /\
      deliveries T = 0%nat /\
      consecutive_errors (snd (iteration (lib := Reference.lib) timeouts s)) = 3) /\
  2 <= consecutive_errors (snd (worker_loop (lib := Reference.lib) timeouts 4 s)).
Proof.
  intros s.
  destruct (errors_counter_discipline (lib := Reference.lib) healthy) as (Hreset & _ & _).
  destruct (errors_counter_discipline (lib := Reference.lib) timeouts) as (_ & Hiter & Hrun).
  split; [|split].
  - destruct (Hreset target 0 s
                (match fst (do_request (lib := Reference.lib) healthy target s) with
                 | Ok x => x
                 | _ => (0, 0%Q)
                 end)
                (snd (do_request (lib := Reference.lib) healthy target s)))
      as (s2 & H1 & H2 & _).
    + vm_compute. reflexivity.
    + exists s2. split; [exact H1|exact H2].
  - destruct (Hiter s (fst (iteration (lib := Reference.lib) timeouts s))
                (snd (iteration (lib := Reference.lib) timeouts s)))
      as (T & H1 & _ & _ & H2).
    + vm_compute. reflexivity.
    + exists T. split; [exact H1|].
      assert (HD : deliveries T = 0%nat).
      { apply (f_equal deliveries) in H1. rewrite deliveries_app in H1.
        vm_compute in H1. vm_compute. exact (eq_sym H1). }
      split; [exact HD|]. vm_compute. reflexivity.
  - destruct (Hrun 4%nat s (fst (worker_loop (lib := Reference.lib) timeouts 4 s))
                (snd (worker_loop (lib := Reference.lib) timeouts 4 s)))
      as (T & H1 & H2).
    + vm_compute. reflexivity.
    + apply H2.
      apply (f_equal deliveries) in H1. rewrite deliveries_app in H1.
      vm_compute in H1. exact (eq_sym H1).
Defined.

(** C6, as the specification states it, fails: a response can be
    received, with status 200, and the attempt fail all the same, because
    the body is read inside the [try] of [do_request] and the reading
    raises.  The three attempts of the cycle each receive a response, none
    is a delivery, and the cycle is given up with the counter at 1. *)
Lemma received_response_can_fail :
  net garbled (reqs init) =
    Ok (mkResponse 200 (Raise (OtherError "UnicodeDecodeError"))) /\
  ~ response_is_success (lib := Reference.lib) garbled target init /\
  exists s1 s',
    do_request (lib := Reference.lib) garbled target init =
      (Raise (OtherError "UnicodeDecodeError"), s1) /\
    retry_loop (lib := Reference.lib) garbled target 0 init = (Ok 3, s') /\
    reqs s' = 3%nat /\ consecutive_errors s' = 1 /\ deliveries (trace s') = 0%nat.
Proof.
  split; [reflexivity|]. split.
  - intros H. destruct (H _ eq_refl) as (x & s1 & Hd).
    vm_compute in Hd. discriminate.
  - eexists. eexists. split; [vm_compute; reflexivity|].
    split; [vm_compute; reflexivity|]. split; [reflexivity|].
    split; reflexivity.
Qed.

(** C6, amended.  An attempt is a success exactly when a response is
    received and its body is read without an error; the status code of
    the response plays no part: [do_request] returns whatever status it
    was given, 500 as well as 200.  On a success the retry loop is left at
    once with the counter of consecutive failures reset to 0.  When the
    request raises, or a response arrives and the reading of its body
    raises, [do_request] raises that error, the counter is left as it was
    and the loop goes on as after any failed attempt: it waits and tries
    again, or gives the cycle up on the last attempt. *)
Theorem any_response_is_success (W : world) {lib : UrlLib}
    (url : string) (attempt0 : Z) (s : state) :
  (forall x s1,
      do_request W url s = (Ok x, s1) ->
      (exists resp body,
          net W (reqs s) = Ok resp /\ text resp = Ok body /\ fst x = status resp) /\
      retry_loop W url attempt0 s = (Ok (attempt0 + 1), with_errors 0 s1)) /\
  (forall parsed resp body,
      urlparse url = Some parsed ->
      net W (reqs s) = Ok resp -> text resp = Ok body ->
      exists elapsed s1,
        do_request W url s = (Ok (status resp, elapsed), s1) /\
        retry_loop W url attempt0 s = (Ok (attempt0 + 1), with_errors 0 s1)) /\
  (forall parsed e,
      urlparse url = Some parsed ->
      net W (reqs s) = Raise e \/
      (exists resp, net W (reqs s) = Ok resp /\ text resp = Raise e) ->
      exists s1,
        do_request W url s = (Raise e, s1) /\
        consecutive_errors s1 = consecutive_errors s /\
        (attempt0 + 1 >= MAX_RETRIES ->
         retry_loop W url attempt0 s =
         (after (backoff_nap W s1) (attempt0 + 1), given_up url s1)) /\
        (attempt0 + 1 < MAX_RETRIES ->
         retry_nap W (attempt0 + 1) s1 = Ok tt ->
         retry_loop W url attempt0 s =
         retry_loop W url (attempt0 + 1) (retrying (attempt0 + 1) s1))).
Proof.
  split; [|split].
  - intros x s1 Hd. split; [|apply (retry_loop_success W _ _ _ _ _ Hd)].
    destruct (do_request_cases W _ _ _ _ Hd) as (_ & _ & Hc).
    destruct Hc as [(_ & Hx & _) | (parsed & url2 & hd & evs & _ & _ & _ & Hdel)];
      [discriminate|].
    inversion Hdel as [resp body el Hn Ht Hx Hev | | |]; subst.
    exists resp, body. auto.
  - intros parsed resp body Hp Hn Ht.
    destruct (do_request W url s) as [r s1] eqn:Hd.
    destruct (do_request_cases W _ _ _ _ Hd) as (_ & _ & Hc).
    destruct Hc as [(Hnone & _) | (parsed' & url2 & hd & evs & _ & _ & _ & Hdel)];
      [congruence|].
    assert (Hr : exists el, r = Ok (status resp, el)).
    { destruct Hdel as [resp' body' el Hn' Ht' | e ev Hn' _ | resp' e ev Hn' Ht' _
                       | [Hn' | (resp' & Hn' & Ht')]]; try congruence.
      assert (resp' = resp) by congruence. subst resp'. eauto. }
    destruct Hr as [el ->]. exists el, s1. split; [reflexivity|].
    apply (retry_loop_success W _ _ _ _ _ Hd).
  - intros parsed e Hp Hfail.
    destruct (do_request W url s) as [r s1] eqn:Hd.
    destruct (do_request_cases W _ _ _ _ Hd) as (Hce & _ & Hc).
    destruct Hc as [(Hnone & _) | (parsed' & url2 & hd & evs & _ & _ & _ & Hdel)];
      [congruence|].
    assert (Hr : r = Raise e).
    { destruct Hfail as [Hn|(resp & Hn & Ht)];
        destruct Hdel as [resp' body' el Hn' Ht' | e' ev Hn' _ | resp' e' ev Hn' Ht' _
                         | [Hn' | (resp' & Hn' & Ht')]]; congruence. }
    subst r. exists s1. split; [reflexivity|]. split; [exact Hce|]. split.
    + intros Hge. exact (retry_loop_exhausted W _ _ _ _ _ Hd Hge).
    + intros Hlt Hnap. rewrite (retry_loop_retry W _ _ _ _ _ Hd Hlt), Hnap. reflexivity.
Qed.

(** A response with status 500 is a success: the loop is left after one
    attempt with the counter back at 0. *)
Lemma any_response_is_success_witness :
  let s := with_errors 2 init in
  exists elapsed s1,
    do_request (lib := Reference.lib) sick target s = (Ok (500, elapsed), s1) /\
    retry_loop (lib := Reference.lib) sick target 0 s = (Ok 1, with_errors 0 s1).
Proof.
  intros s.
  destruct (any_response_is_success (lib := Reference.lib) sick target 0 s) as (_ & H & _).
  destruct (H (mkParseResult "https" "aimatrix-e8zs.onrender.com" "/upload_files_pyrus"
                 "" "" "")
              (mkResponse 500 (Ok "Internal Server Error"%string))
              "Internal Server Error"%string)
    as (elapsed & s1 & H1 & H2).
  - vm_compute. reflexivity.
  - reflexivity.
  - reflexivity.
  - exists elapsed, s1. split; [exact H1|exact H2].
Defined.

(** C7.  The retry loop of a cycle always ends, after at most
    [MAX_RETRIES] = 3 attempts: it issues at most [MAX_RETRIES] requests
    and records at most one delivery; when it is left by [break] the
    attempt counter is between 1 and [MAX_RETRIES] and, the URL being one
    that parses, counts the requests issued; it is left either on the
    first success, the counter of failures at 0, or without any success
    when the attempt counter has reached [MAX_RETRIES].  How it is left is
    decided by the world: on a URL that parses an attempt is made, the
    requests before the last one issued all failed, and the loop is left
    by [break] exactly on the first request delivered or on the failure
    of request [MAX_RETRIES]; it is left otherwise only by the error of
    one of its own sleeps, raised after a failed request, or by a
    cancellation.  In a world that cancels nothing and whose sleeps
    complete it is always left by [break]: after attempt [j + 1] when the
    first [j] requests fail and the next is delivered, after attempt
    [MAX_RETRIES] when all fail.  On a URL that does not parse no request
    is sent. *)
Theorem attempts_bounded (W : world) {lib : UrlLib} (url : string) (s : state) :
  MAX_RETRIES = 3 /\
  exists r s' T,
    retry_loop W url 0 s = (r, s') /\
    trace s' = trace s ++ T /\
    Z.of_nat (reqs s') <= Z.of_nat (reqs s) + MAX_RETRIES /\
    (deliveries T <= 1)%nat /\
    (forall attempt,
      r = Ok attempt ->
      1 <= attempt <= MAX_RETRIES /\
      (urlparse url = None \/ Z.of_nat (reqs s') = Z.of_nat (reqs s) + attempt) /\
      ((deliveries T = 1%nat /\ consecutive_errors s' = 0) \/
       (deliveries T = 0%nat /\ attempt = MAX_RETRIES /\
        consecutive_errors s' = consecutive_errors s + 1))) /\
    match r with
    | Ok _ => True
    | Raise e => nap_failed W e (trace s')
    | Cancelled => cut_short W (trace s')
    end /\
    (urlparse url = None -> reqs s' = reqs s) /\
    (urlparse url <> None ->
     exists n : nat,
       reqs s' = S (reqs s + n) /\ Z.of_nat (S n) <= MAX_RETRIES /\
       (forall i, (i < n)%nat -> failing (net W (reqs s + i))) /\
       match r with
       | Ok attempt =>
           attempt = Z.of_nat (S n) /\
           ((delivers (net W (reqs s + n)) /\ deliveries T = 1%nat /\
             consecutive_errors s' = 0) \/
            (failing (net W (reqs s + n)) /\ attempt = MAX_RETRIES /\
             deliveries T = 0%nat /\
             consecutive_errors s' = consecutive_errors s + 1))
       | Raise _ => failing (net W (reqs s + n))
       | Cancelled => ~ delivers (net W (reqs s + n))
       end) /\
    (answering W -> (forall k seconds, naps W k seconds = Ok tt) ->
     (exists attempt, r = Ok attempt) /\
     (urlparse url <> None ->
      (forall j : nat,
          Z.of_nat j < MAX_RETRIES ->
          (forall i, (i < j)%nat -> failing (net W (reqs s + i))) ->
          delivers (net W (reqs s + j)) ->
          r = Ok (Z.of_nat (S j)) /\ reqs s' = S (reqs s + j) /\
          consecutive_errors s' = 0) /\
      ((forall i, Z.of_nat i < MAX_RETRIES -> failing (net W (reqs s + i))) ->
       r = Ok MAX_RETRIES /\ Z.of_nat (reqs s') = Z.of_nat (reqs s) + MAX_RETRIES /\
       consecutive_errors s' = consecutive_errors s + 1))).
Proof.
  split; [reflexivity|].
  destruct (retry_loop W url 0 s) as [r s'] eqn:Hr.
  destruct (retry_loop_summary W _ _ _ _ _ Hr)
    as (T & Ht & _ & _ & Hrq & D1 & D2 & D3 & D4).
  assert (Hmax : Z.max 1 (MAX_RETRIES - 0) = MAX_RETRIES) by reflexivity.
  rewrite Hmax in Hrq.
  assert (Hold : forall attempt,
             r = Ok attempt ->
             1 <= attempt <= MAX_RETRIES /\
             (urlparse url = None \/ Z.of_nat (reqs s') = Z.of_nat (reqs s) + attempt) /\
             ((deliveries T = 1%nat /\ consecutive_errors s' = 0) \/
              (deliveries T = 0%nat /\ attempt = MAX_RETRIES /\
               consecutive_errors s' = consecutive_errors s + 1))).
  { intros attempt Ha. destruct (D4 attempt Ha) as (B1 & B2 & B3).
    assert (Hmax' : Z.max (0 + 1) MAX_RETRIES = MAX_RETRIES) by reflexivity.
    split; [lia|]. split.
    { destruct (urlparse url) eqn:Hp; [right|left; reflexivity].
      rewrite B2 by discriminate. lia. }
    destruct (deliveries T) as [|[|k]] eqn:HD.
    - right. destruct B3 as [B3 | (B3 & B4 & _)]; [discriminate|].
      split; [reflexivity|]. split; [lia|assumption].
    - left. split; [reflexivity|]. apply D2. reflexivity.
    - lia. }
  assert (Hworld : urlparse url <> None ->
     exists n : nat,
       reqs s' = S (reqs s + n) /\ Z.of_nat (S n) <= MAX_RETRIES /\
       (forall i, (i < n)%nat -> failing (net W (reqs s + i))) /\
       match r with
       | Ok attempt =>
           attempt = Z.of_nat (S n) /\
           ((delivers (net W (reqs s + n)) /\ deliveries T = 1%nat /\
             consecutive_errors s' = 0) \/
            (failing (net W (reqs s + n)) /\ attempt = MAX_RETRIES /\
             deliveries T = 0%nat /\
             consecutive_errors s' = consecutive_errors s + 1))
       | Raise _ => failing (net W (reqs s + n))
       | Cancelled => ~ delivers (net W (reqs s + n))
       end).
  { intros Hp.
    destruct (retry_loop_attempts W _ _ _ _ _ Hp Hr) as (n & T' & Hn & Ht' & Hfail & Hlast).
    assert (T' = T) by (rewrite Ht in Ht'; exact (eq_sym (app_inv_head _ _ _ Ht'))).
    subst T'. exists n. split; [exact Hn|]. split; [lia|]. split; [exact Hfail|].
    destruct r as [a'|e|]; [|exact Hlast|exact Hlast].
    destruct Hlast as (Ha' & Hcase). split; [lia|].
    destruct (Hold a' eq_refl) as (_ & _ & Hc).
    destruct Hcase as [(Hdel & HD)|(Hf & Hge & HD)]; [left|right].
    - split; [exact Hdel|]. split; [exact HD|].
      destruct Hc as [(_ & Hc)|(Hc & _)]; [exact Hc|congruence].
    - split; [exact Hf|].
      destruct Hc as [(Hc & _)|(_ & Hc1 & Hc2)]; [congruence|]. auto. }
  exists r, s', T. split; [reflexivity|]. split; [exact Ht|].
  split; [exact Hrq|]. split; [exact D1|]. split; [exact Hold|].
  split; [exact (retry_loop_left W _ _ _ _ _ Hr)|].
  split; [intros Hp; exact (retry_loop_unsent W _ _ _ _ _ Hp Hr)|].
  split; [exact Hworld|].
  intros Ha Hn. split; [exact (retry_loop_breaks W _ _ _ _ _ Ha Hn Hr)|].
  intros Hp. destruct (Hworld Hp) as (n & Hrn & Hle & Hfail & Hlast).
  destruct (retry_loop_breaks W _ _ _ _ _ Ha Hn Hr) as [a' ->].
  destruct Hlast as (Ha' & Hcase). split.
  - intros j Hj Hfj Hdj.
    assert (n = j).
    { destruct (Nat.lt_trichotomy n j) as [Hlt|[Heq|Hgt]]; [|exact Heq|].
      - exfalso. specialize (Hfj n Hlt).
        destruct Hcase as [(Hdel & _)|(_ & Hm & _)];
          [exact (delivers_not_failing _ Hdel Hfj)|].
        unfold MAX_RETRIES in *. lia.
      - exfalso. exact (delivers_not_failing _ Hdj (Hfail j Hgt)). }
    subst j. split; [f_equal; exact Ha'|]. split; [exact Hrn|].
    destruct Hcase as [(_ & _ & Hc)|(Hf & _)]; [exact Hc|].
    exfalso. exact (delivers_not_failing _ Hdj Hf).
  - intros Hall.
    destruct Hcase as [(Hdel & _)|(Hf & Hm & _ & Hc)].
    + exfalso. apply (delivers_not_failing _ Hdel). apply Hall. lia.
    + split; [f_equal; exact Hm|]. split; [|exact Hc]. rewrite Hrn. lia.
Qed.

(** A first request that times out and a second that is answered: the
    loop is left after two attempts, the counter at 0. *)
Lemma attempts_bounded_witness :
  exists s',
    retry_loop (lib := Reference.lib) flaky target 0 (with_errors 4 init) = (Ok 2, s') /\
    reqs s' = 2%nat /\ consecutive_errors s' = 0.
Proof.
  destruct (attempts_bounded (lib := Reference.lib) flaky target (with_errors 4 init))
    as (_ & r & s' & T & Hr & _ & _ & _ & _ & _ & _ & _ & H).
  destruct H as (_ & H).
  - intros [|k]; cbn; [exact I|discriminate].
  - intros k seconds. reflexivity.
  - destruct H as (H & _); [vm_compute; discriminate|].
    destruct (H 1%nat) as (H1 & H2 & H3).
    + reflexivity.
    + intros [|i] Hi; [exact I|lia].
    + cbn. eexists. reflexivity.
    + exists s'. rewrite Hr, H1. split; [reflexivity|]. split; [exact H2|exact H3].
Defined.

(** C8.  An error that escapes the logic of a cycle, from whatever call,
    is caught by the handler of the loop body: the iteration records it,
    sleeps 60 seconds and, that sleep completing, the loop goes on with the
    next iteration, the counter untouched.  No error raised in the logic
    of a cycle ends the loop: the loop is only ever left by an error when
    the 60-second sleep of the handler itself fails. *)
Theorem fatal_errors_are_survived (W : world) {lib : UrlLib} :
  (forall s,
   exists url s0,
     random_choice W URLS s = (Ok url, s0) /\ quiet s s0 /\
     forall e s1,
       cycle W url s0 = (Raise e, s1) ->
       exists s2,
         iteration W s = (naps W (slept s1) 60, s2) /\
         trace s2 = trace s1 ++ [EvLog ERROR (MsgFatal e); EvSleep 60] /\
         consecutive_errors s2 = consecutive_errors s1 /\
         (naps W (slept s1) 60 = Ok tt ->
          forall n, worker_loop W (S n) s = worker_loop W n s2)) /\
  (forall n s e s',
      worker_loop W n s = (Raise e, s') ->
      exists e0 s1 pre,
        trace s' = pre ++ [EvLog ERROR (MsgFatal e0); EvSleep 60] /\
        naps W (slept s1) 60 = Raise e) /\
  ((forall k e, naps W k 60 <> Raise e) ->
   forall n s e s', worker_loop W n s <> (Raise e, s')).
Proof.
  assert (Hleft : forall n s e s',
             worker_loop W n s = (Raise e, s') ->
             exists e0 s1 pre,
               trace s' = pre ++ [EvLog ERROR (MsgFatal e0); EvSleep 60] /\
               naps W (slept s1) 60 = Raise e).
  { intros n s e s' Hw.
    destruct (worker_loop_summary W _ _ _ _ Hw) as (_ & _ & _ & _ & _ & _ & H).
    destruct (H e eq_refl) as (e0 & s1 & Hs & Hn).
    exists e0, s1, (trace s1). split; [|assumption].
    subst s'. unfold recovered. cbn [tick_slept logged trace].
    rewrite <- app_assoc. reflexivity. }
  split; [|split].
  - intros s. destruct (iteration_cases W s) as (url & s0 & Hc & _ & Hq & Hi).
    exists url, s0. split; [assumption|]. split; [assumption|].
    intros e s1 Hcy. rewrite Hcy in Hi.
    exists (recovered e s1). split; [assumption|].
    unfold recovered. cbn [tick_slept logged trace consecutive_errors].
    rewrite <- app_assoc. split; [reflexivity|]. split; [reflexivity|].
    intros Hn n. rewrite worker_loop_step, Hi. unfold recovery_nap. rewrite Hn.
    reflexivity.
  - exact Hleft.
  - intros Hpause n s e s' Hw.
    destruct (Hleft _ _ _ _ Hw) as (e0 & s1 & _ & _ & Hn).
    exact (Hpause _ _ Hn).
Qed.

(** After 1022 cycles given up in a row the next backoff, 5 * 2 ^ 1022
    seconds, is more than the event loop can take: the sleep raises, the
    error is recorded, 60 seconds are slept and the loop goes on, the
    counter at 1023. *)
Lemma fatal_errors_are_survived_witness :
  let s := with_errors 1022 init in
  exists s1 s2,
    cycle (lib := Reference.lib) jolted target (tick_drawn s) =
    (Raise (OtherError "OverflowError"), s1) /\
    iteration (lib := Reference.lib) jolted s = (Ok tt, s2) /\
    trace s2 = trace s1 ++ [EvLog ERROR (MsgFatal (OtherError "OverflowError"));
                            EvSleep 60] /\
    consecutive_errors s2 = 1023 /\
    worker_loop (lib := Reference.lib) jolted 2 s =
    worker_loop (lib := Reference.lib) jolted 1 s2 /\
    forall e s', worker_loop (lib := Reference.lib) jolted 3 s <> (Raise e, s').
Proof.
  intros s.
  destruct (fatal_errors_are_survived (lib := Reference.lib) jolted) as (H & _ & Hnever).
  destruct (H s) as (url & s0 & Hc & _ & Hh).
  vm_compute in Hc. injection Hc as <- <-.
  destruct (Hh (OtherError "OverflowError")
               (snd (cycle (lib := Reference.lib) jolted target (tick_drawn s))))
    as (s2 & H1 & H2 & H3 & H4).
  - vm_compute. reflexivity.
  - exists (snd (cycle (lib := Reference.lib) jolted target (tick_drawn s))), s2.
    split; [vm_compute; reflexivity|]. split; [exact H1|]. split; [exact H2|].
    split; [rewrite H3; vm_compute; reflexivity|].
    split; [apply H4; reflexivity|].
    apply Hnever. intros k e. vm_compute. discriminate.
Defined.

(** C9.  Every request is issued with the fixed timeout
    [REQUEST_TIMEOUT] = 30 seconds.  A timeout is handled like any other
    failure of the request: between two worlds whose requests fail at the
    same places, whatever the errors raised, the script ends up with the
    same result, the same counter of consecutive failures, the same
    numbers of requests and sleeps, and the same trace but for the records
    [do_request] writes about the failures. *)
Theorem timeout_is_a_failure (W : world) (net' : nat -> result response)
    {lib : UrlLib} :
  REQUEST_TIMEOUT = 30 /\
  (forall n s r s',
      worker_loop W n s = (r, s') ->
      exists T, trace s' = trace s ++ T /\ Forall timed T) /\
  ((forall k, same_fate (net W k) (net' k)) ->
   forall n s,
     same_result true (fst (worker_loop W n s))
                      (fst (worker_loop (with_net W net') n s)) /\
     same_state (snd (worker_loop W n s)) (snd (worker_loop (with_net W net') n s))).
Proof.
  split; [reflexivity|]. split.
  - intros n s r s' Hw.
    destruct (worker_loop_summary W _ _ _ _ Hw) as (T & Ht & Ft & _).
    exists T. auto.
  - intros Halike n s. apply sim_worker_loop; [assumption|apply same_state_refl].
Qed.

(** Timeouts and refused connections lead the script through the same
    three attempts and the same backoff. *)
Lemma timeout_is_a_failure_witness :
  same_state (snd (worker_loop (lib := Reference.lib) timeouts 2 init))
             (snd (worker_loop (lib := Reference.lib) refusals 2 init)) /\
  consecutive_errors (snd (worker_loop (lib := Reference.lib) refusals 2 init)) = 2 /\
  reqs (snd (worker_loop (lib := Reference.lib) refusals 2 init)) = 6%nat.
Proof.
  destruct (timeout_is_a_failure (lib := Reference.lib) timeouts
              (fun _ => Raise (ClientError "Connection refused")))
    as (_ & _ & H).
  destruct (H (fun _ => I) 2%nat init) as (_ & Hs).
  split; [exact Hs|]. split; vm_compute; reflexivity.
Defined.

(** C10.  When a parameter is injected and the key chosen is already one
    of the keys of the query of the input, the value of that key is
    replaced by the fresh one and no parameter is added: the dictionary
    encoded into the new query has the keys of the one read from the input,
    in the same order, the chosen key once, with the fresh value and no
    other; so it is not the parameters of the input followed by added
    ones, and a value of that key in the input other than the fresh one is
    gone. *)
Theorem colliding_key_is_overwritten (W : world) {lib : UrlLib}
    (url : string) (s : state) (parsed : ParseResult) :
  urlparse url = Some parsed ->
  injects W s ->
  In (chosen_key W s) (map fst (parse_qsl (query parsed))) ->
  let pairs := parse_qsl (query parsed) in
  let q := dict pairs in
  let key := chosen_key W s in
  let value := fresh_value W s in
  exists q' s',
    randomize_url W url s =
    (Ok (urlunparse (replace_query parsed (urlencode q'))), s') /\
    q' = dict_set key value q /\
    keys q' = keys q /\
    List.length q' = List.length q /\
    count_occ string_dec (keys q') key = 1%nat /\
    dict_get key q' = Some value /\
    (forall v, In (key, v) q' -> v = value) /\
    (forall extra, extra <> [] -> q' <> pairs ++ extra) /\
    (forall extra, extra <> [] -> q' <> q ++ extra) /\
    (forall old, In (key, old) pairs -> old <> value -> ~ In (key, old) q').
Proof.
  intros Hp Hinj Hin pairs q key value.
  destruct (randomize_url_result W url s parsed Hp) as (s' & Hr & _).
  assert (Hq' : new_params W s parsed = dict_set key value q).
  { unfold new_params. fold pairs q key value. unfold injects in Hinj.
    destruct (Qlt_le_dec (unit_of_raw (entropy W (drawn s))) float_0_7) as [_|Hge];
      [reflexivity|].
    exfalso. apply (Qlt_not_le _ _ Hinj Hge). }
  rewrite Hq' in Hr.
  assert (Hk : In key (keys q)) by (apply dict_keys; assumption).
  assert (Hnd : NoDup (keys (dict_set key value q)))
    by (apply dict_set_NoDup, dict_NoDup).
  assert (Hlen : List.length (dict_set key value q) = List.length q)
    by (apply dict_set_length_present; assumption).
  assert (Hone : forall v, In (key, v) (dict_set key value q) -> v = value).
  { intros v Hv. apply (In_dict_get _ _ _ Hnd) in Hv.
    rewrite dict_get_set_same in Hv. congruence. }
  exists (dict_set key value q), s'.
  split; [assumption|]. split; [reflexivity|].
  split; [apply dict_set_keys_present; assumption|].
  split; [assumption|].
  split.
  { apply NoDup_count_occ'; [assumption|].
    rewrite dict_set_keys_present; assumption. }
  split; [apply dict_get_set_same|].
  split; [assumption|].
  split.
  { intros extra Hne Heq. apply (f_equal (@List.length _)) in Heq.
    rewrite Hlen, length_app in Heq.
    pose proof (dict_length pairs). fold q in H.
    destruct extra; [congruence|]. cbn [List.length] in Heq. lia. }
  split.
  { intros extra Hne Heq. apply (f_equal (@List.length _)) in Heq.
    rewrite Hlen, length_app in Heq.
    destruct extra; [congruence|]. cbn [List.length] in Heq. lia. }
  intros old _ Hne Hold. apply Hne. apply Hone. assumption.
Qed.

(** The configured URL with [t=1] appended: the key drawn is [t], and the
    query that comes out has one parameter, [t] with the fresh value. *)
Lemma colliding_key_is_overwritten_witness :
  exists q' s',
    randomize_url (lib := Reference.lib) healthy tagged_target init =
    (Ok (Reference.urlunparse (replace_query
           (mkParseResult "https" "aimatrix-e8zs.onrender.com" "/upload_files_pyrus"
              "" "t=1" "")
           (Reference.urlencode q'))), s') /\
    q' = [("t", "1700000000_1")]%string /\
    ~ In ("t", "1")%string q'.
Proof.
  destruct (colliding_key_is_overwritten (lib := Reference.lib) healthy tagged_target init
              (mkParseResult "https" "aimatrix-e8zs.onrender.com" "/upload_files_pyrus"
                 "" "t=1" ""))
    as (q' & s' & H1 & H2 & _ & _ & _ & _ & _ & _ & _ & H3).
  - vm_compute. reflexivity.
  - vm_compute. reflexivity.
  - vm_compute. left. reflexivity.
  - exists q', s'. split; [exact H1|]. split; [rewrite H2; vm_compute; reflexivity|].
    apply H3.
    + vm_compute. left. reflexivity.
    + vm_compute. discriminate.
Defined.




(* ================================================================== *)
(** * Further properties of the code *)

(** ** Draws and intervals *)

Section Draws.
Variable W : world.
Context {lib : UrlLib}.

Lemma random_headers_exact (s : state) :
  exists ua, In ua USER_AGENTS /\
    random_headers W s =
    (Ok [("User-Agent"%string, ua); ("Accept"%string, "*/*"%string)], tick_drawn s).
Proof.
  eexists. split; [|reflexivity].
  pose proof (Z.mod_pos_bound (Z.of_N (entropy W (drawn s)))
                (Z.of_nat (List.length USER_AGENTS)) eq_refl).
  apply nth_In. lia.
Qed.

Lemma randomize_url_exact url s parsed :
  urlparse url = Some parsed ->
  randomize_url W url s =
  (Ok (urlunparse (replace_query parsed (urlencode (new_params W s parsed)))),
   randomized W s).
Proof.
  intros Hp. unfold randomize_url, new_params, randomized. rewrite Hp.
  cbv [bind random_random raw_draw ret].
  destruct (Qlt_le_dec (unit_of_raw (entropy W (drawn s))) float_0_7); reflexivity.
Qed.

Lemma jittered_bounds (s : state) :
  (inject_Z 510 <= jittered W s /\ jittered W s <= inject_Z 1725)%Q.
Proof.
  unfold jittered.
  pose proof (unit_of_raw_range (entropy W (drawn s))) as [H1 H1'].
  pose proof (unit_of_raw_range (entropy W (S (drawn s)))) as [H2 H2'].
  set (u1 := unit_of_raw (entropy W (drawn s))) in *.
  set (u2 := unit_of_raw (entropy W (S (drawn s)))) in *.
  cbv zeta.
  assert (Hlo : (inject_Z MIN_INTERVAL_SECONDS == 600)%Q) by reflexivity.
  assert (Hhi : (inject_Z MAX_INTERVAL_SECONDS == 1500)%Q) by reflexivity.
  assert (H510 : (inject_Z 510 == 510)%Q) by reflexivity.
  assert (H1725 : (inject_Z 1725 == 1725)%Q) by reflexivity.
  rewrite Hlo, Hhi, H510, H1725. unfold JITTER_PCT.
  set (base := (600 + (1500 - 600) * u1)%Q).
  assert (Hb : (600 <= base /\ base <= 1500)%Q) by (unfold base; split; nra).
  destruct Hb. split; nra.
Qed.

Lemma random_interval_exact (s : state) :
  random_interval W s = (Ok (jittered W s), tick_drawn (tick_drawn s)).
Proof.
  pose proof (jittered_bounds s) as [Hlo _].
  assert (H1 : (1 < jittered W s)%Q).
  { eapply Qlt_le_trans; [|exact Hlo]. reflexivity. }
  assert (Hm : py_max1 (jittered W s) = jittered W s).
  { unfold py_max1. destruct (Qlt_le_dec 1 (jittered W s)) as [_|Hle]; [reflexivity|].
    exfalso. exact (Qlt_not_le _ _ H1 Hle). }
  rewrite <- Hm at 1.
  cbv [random_interval random_uniform random_random raw_draw bind ret jittered].
  reflexivity.
Qed.

Lemma interval_of_jittered (s : state) : interval_of W s = jittered W s.
Proof. unfold interval_of. rewrite random_interval_exact. reflexivity. Qed.

End Draws.

(** X1.  [random_headers] never fails: it returns exactly two headers,
    [User-Agent] with one of the configured [USER_AGENTS] and [Accept]
    with [*/*], and takes one draw of the generator and nothing else. *)
Theorem random_headers_shape (W : world) (s : state) :
  exists ua,
    In ua USER_AGENTS /\
    random_headers W s =
    (Ok [("User-Agent", ua); ("Accept", "*/*")]%string, tick_drawn s).
Proof.
  eexists. split; [|reflexivity].
  pose proof (Z.mod_pos_bound (Z.of_N (entropy W (drawn s)))
                (Z.of_nat (List.length USER_AGENTS)) eq_refl).
  apply nth_In. lia.
Qed.

(** X2.  With the configured bounds the floor [max(1, value)] of
    [random_interval] never applies: the jittered value is at least 510
    seconds, so the interval returned is the jittered value itself.  The
    call takes two draws of the generator and nothing else. *)
Theorem interval_floor_is_idle (W : world) (s : state) :
  random_interval W s = (Ok (jittered W s), tick_drawn (tick_drawn s)) /\
  (1 < jittered W s)%Q /\
  py_max1 (jittered W s) = jittered W s.
Proof.
  pose proof (jittered_bounds W s) as [Hlo _].
  assert (H1 : (1 < jittered W s)%Q).
  { eapply Qlt_le_trans; [|exact Hlo]. reflexivity. }
  split; [apply random_interval_exact|]. split; [exact H1|].
  unfold py_max1. destruct (Qlt_le_dec 1 (jittered W s)) as [_|Hle]; [reflexivity|].
  exfalso. exact (Qlt_not_le _ _ H1 Hle).
Qed.

(** ** The query of the URL requested *)

Lemma dict_from_last pairs : forall acc k,
  dict_get k (dict_from acc pairs) =
  match last_value k pairs with
  | Some v => Some v
  | None => dict_get k acc
  end.
Proof.
  induction pairs as [|[k' v'] rest IH]; intros acc k; [reflexivity|].
  rewrite dict_from_cons, IH. cbn [last_value].
  destruct (last_value k rest) as [v|]; [reflexivity|].
  destruct (String.eqb_spec k k') as [->|Hne].
  - apply dict_get_set_same.
  - apply dict_get_set_other. exact Hne.
Qed.

Lemma filter_filter_ext {A} (f g h : A -> bool) (l : list A) :
  (forall x, h x = f x && g x) -> filter f (filter g l) = filter h l.
Proof.
  intros H. induction l as [|x l IH]; [reflexivity|].
  cbn [filter]. rewrite (H x). destruct (g x); cbn [filter].
  - rewrite andb_true_r. destruct (f x); rewrite IH; reflexivity.
  - rewrite andb_false_r. exact IH.
Qed.

Lemma dict_from_first pairs : forall acc,
  keys (dict_from acc pairs) =
  keys acc ++ filter (fun k => negb (existsb (String.eqb k) (keys acc))) (first_keys pairs).
Proof.
  induction pairs as [|[k v] rest IH]; intros acc.
  - cbn. rewrite app_nil_r. reflexivity.
  - rewrite dict_from_cons, IH. cbn [first_keys filter].
    destruct (existsb (String.eqb k) (keys acc)) eqn:Hk.
    + apply existsb_eqb_In in Hk. rewrite (dict_set_keys_present _ _ _ Hk).
      cbn [negb]. f_equal. symmetry. apply filter_filter_ext.
      intros x. destruct (String.eqb_spec k x) as [<-|Hne].
      * apply existsb_eqb_In in Hk. rewrite Hk. reflexivity.
      * cbn [negb]. rewrite andb_true_r. reflexivity.
    + assert (Hn : ~ In k (keys acc)).
      { intros Hin. apply existsb_eqb_In in Hin. congruence. }
      rewrite (dict_set_keys_absent _ _ _ Hn). cbn [negb].
      rewrite <- app_assoc. cbn [app]. f_equal. f_equal.
      symmetry. rewrite filter_filter_ext
        with (h := fun x => negb (existsb (String.eqb x) (keys acc ++ [k]))).
      * reflexivity.
      * intros x. rewrite existsb_app. cbn [existsb]. rewrite orb_false_r.
        rewrite negb_orb. rewrite (String.eqb_sym k x). reflexivity.
Qed.

Lemma dict_last pairs k : dict_get k (dict pairs) = last_value k pairs.
Proof.
  unfold dict. change (dict_get k (dict_from [] pairs) = last_value k pairs).
  rewrite dict_from_last. destruct (last_value k pairs); reflexivity.
Qed.

Lemma dict_first pairs : keys (dict pairs) = first_keys pairs.
Proof.
  change (keys (dict_from [] pairs) = first_keys pairs).
  rewrite dict_from_first. cbn [keys map app existsb negb].
  induction (first_keys pairs) as [|x l IH]; [reflexivity|].
  cbn [filter]. rewrite IH. reflexivity.
Qed.

Lemma randbelow_range (r : N) (n : Z) : 0 < n -> 0 <= Z.of_N r mod n < n.
Proof. intros H. apply Z.mod_pos_bound. exact H. Qed.

Section Params.
Variable W : world.
Context {lib : UrlLib}.

Lemma new_params_plain s parsed :
  ~ injects W s -> new_params W s parsed = dict (parse_qsl (query parsed)).
Proof.
  intros Hn. unfold new_params.
  destruct (Qlt_le_dec (unit_of_raw (entropy W (drawn s))) float_0_7) as [Hlt|_];
    [|reflexivity].
  exfalso. exact (Hn Hlt).
Qed.

Lemma new_params_injected s parsed :
  injects W s ->
  new_params W s parsed =
  dict_set (chosen_key W s) (fresh_value W s) (dict (parse_qsl (query parsed))).
Proof.
  intros Hi. unfold new_params.
  destruct (Qlt_le_dec (unit_of_raw (entropy W (drawn s))) float_0_7) as [_|Hge];
    [reflexivity|].
  exfalso. exact (Qlt_not_le _ _ Hi Hge).
Qed.

Lemma randomized_plain s : ~ injects W s -> randomized W s = tick_drawn s.
Proof.
  intros Hn. unfold randomized.
  destruct (Qlt_le_dec (unit_of_raw (entropy W (drawn s))) float_0_7) as [Hlt|_];
    [|reflexivity].
  exfalso. exact (Hn Hlt).
Qed.

Lemma randomized_injected s :
  injects W s -> randomized W s = tick_drawn (tick_walls (tick_drawn (tick_drawn s))).
Proof.
  intros Hi. unfold randomized.
  destruct (Qlt_le_dec (unit_of_raw (entropy W (drawn s))) float_0_7) as [_|Hge];
    [reflexivity|].
  exfalso. exact (Qlt_not_le _ _ Hi Hge).
Qed.

End Params.

(** X3.  When no parameter is injected and the query of the input names
    every key once, [randomize_url] passes the parameters through: the
    query of the result encodes the very pairs [parse_qsl] reads from the
    input, in their order, and one draw of the generator is all the call
    consumes. *)
Theorem plain_query_passes_through (W : world) {lib : UrlLib}
    (url : string) (s : state) (parsed : ParseResult) :
  urlparse url = Some parsed ->
  ~ injects W s ->
  NoDup (map fst (parse_qsl (query parsed))) ->
  randomize_url W url s =
  (Ok (urlunparse (replace_query parsed (urlencode (parse_qsl (query parsed))))),
   tick_drawn s).
Proof.
  intros Hp Hn Hnd. rewrite (randomize_url_exact W url s parsed Hp).
  rewrite (new_params_plain W s parsed Hn), (randomized_plain W s Hn).
  rewrite (dict_distinct _ Hnd). reflexivity.
Qed.

(** With [a=1&b=2] and a draw equal to the double 0.7, which is not
    below it, the URL comes back as it went in. *)
Lemma plain_query_passes_through_witness :
  (unit_of_raw (entropy brink (drawn init)) == float_0_7)%Q /\
  randomize_url (lib := Reference.lib) brink plain_target init =
  (Ok plain_target, tick_drawn init).
Proof.
  split; [reflexivity|].
  rewrite (plain_query_passes_through (lib := Reference.lib) brink plain_target init
             (mkParseResult "https" "aimatrix-e8zs.onrender.com" "/upload_files_pyrus"
                "" "a=1&b=2" "")).
  - vm_compute. reflexivity.
  - vm_compute. reflexivity.
  - vm_compute. discriminate.
  - vm_compute. repeat constructor; cbn; intuition discriminate.
Defined.

(** X4.  When a parameter is injected under a key the query of the input
    does not have, it goes last: the query of the result encodes the
    dictionary read from the input followed by the new pair.  The key is
    one of [EXTRA_QUERY_KEYS]; the value is the wall clock truncated to
    an integer, an underscore, and an integer between 1 and 99999.  The
    call consumes three draws of the generator and one reading of the
    clock. *)
Theorem fresh_key_goes_last (W : world) {lib : UrlLib}
    (url : string) (s : state) (parsed : ParseResult) :
  urlparse url = Some parsed ->
  injects W s ->
  ~ In (chosen_key W s) (map fst (parse_qsl (query parsed))) ->
  exists n,
    1 <= n <= 99999 /\
    In (chosen_key W s) EXTRA_QUERY_KEYS /\
    randomize_url W url s =
    (Ok (urlunparse (replace_query parsed (urlencode
           (dict (parse_qsl (query parsed)) ++
            [(chosen_key W s, (str (py_int (wall W (walls s))) ++ "_" ++ str n)%string)])))),
     tick_drawn (tick_walls (tick_drawn (tick_drawn s)))).
Proof.
  intros Hp Hi Hn.
  exists (1 + Z.of_N (entropy W (S (S (drawn s)))) mod (99999 - 1 + 1)).
  split.
  { pose proof (randbelow_range (entropy W (S (S (drawn s)))) (99999 - 1 + 1) eq_refl).
    lia. }
  split; [apply chosen_key_extra|].
  rewrite (randomize_url_exact W url s parsed Hp).
  rewrite (new_params_injected W s parsed Hi), (randomized_injected W s Hi).
  rewrite dict_set_absent; [reflexivity|].
  intros Hin. apply Hn. apply dict_keys. exact Hin.
Qed.

(** With [a=1&b=2] and the key [t] drawn, [t] comes third. *)
Lemma fresh_key_goes_last_witness :
  exists n,
    1 <= n <= 99999 /\
    fst (randomize_url (lib := Reference.lib) healthy plain_target init) =
    Ok (Reference.urlunparse
          (mkParseResult "https" "aimatrix-e8zs.onrender.com" "/upload_files_pyrus" ""
             (Reference.urlencode
                [("a", "1"); ("b", "2"); ("t", "1700000000_" ++ str n)]%string) "")).
Proof.
  destruct (fresh_key_goes_last (lib := Reference.lib) healthy plain_target init
              (mkParseResult "https" "aimatrix-e8zs.onrender.com" "/upload_files_pyrus"
                 "" "a=1&b=2" ""))
    as (n & Hn & _ & H).
  - vm_compute. reflexivity.
  - vm_compute. reflexivity.
  - vm_compute. intuition discriminate.
  - exists n. split; [exact Hn|]. rewrite H. reflexivity.
Defined.

(** X5.  A key the query of the input repeats comes out once:
    [randomize_url] encodes a dictionary whose keys are those of the
    input in the order of their first occurrences, followed by the
    injected key when it is new, and in which every key other than the
    injected one has the value of its last occurrence in the input. *)
Theorem repeated_keys_collapse (W : world) {lib : UrlLib}
    (url : string) (s : state) (parsed : ParseResult) :
  urlparse url = Some parsed ->
  let pairs := parse_qsl (query parsed) in
  exists q',
    fst (randomize_url W url s) =
    Ok (urlunparse (replace_query parsed (urlencode q'))) /\
    (keys q' = first_keys pairs \/
     (injects W s /\ keys q' = first_keys pairs ++ [chosen_key W s])) /\
    (forall k, (injects W s -> k <> chosen_key W s) ->
               dict_get k q' = last_value k pairs) /\
    (List.length q' <= S (List.length pairs))%nat.
Proof.
  intros Hp pairs. exists (new_params W s parsed).
  rewrite (randomize_url_exact W url s parsed Hp). split; [reflexivity|].
  destruct (Qlt_le_dec (unit_of_raw (entropy W (drawn s))) float_0_7) as [Hi|Hge].
  - rewrite (new_params_injected W s parsed Hi). fold pairs.
    split; [|split].
    + destruct (in_dec string_dec (chosen_key W s) (keys (dict pairs))) as [Hin|Hout].
      * left. rewrite (dict_set_keys_present _ _ _ Hin). apply dict_first.
      * right. split; [exact Hi|].
        rewrite (dict_set_keys_absent _ _ _ Hout), dict_first. reflexivity.
    + intros k Hk. rewrite dict_get_set_other; [apply dict_last|]. exact (Hk Hi).
    + pose proof (dict_set_length (chosen_key W s) (fresh_value W s) (dict pairs)).
      pose proof (dict_length pairs). lia.
  - assert (Hn : ~ injects W s) by (intros Hi; exact (Qlt_not_le _ _ Hi Hge)).
    rewrite (new_params_plain W s parsed Hn). fold pairs.
    split; [left; apply dict_first|]. split; [intros k _; apply dict_last|].
    pose proof (dict_length pairs). lia.
Qed.

(** With [a=1&b=2&a=3] and no injection the dictionary encoded has the
    keys [a] and [b], and [a] has the value 3. *)
Lemma repeated_keys_collapse_witness :
  exists q',
    fst (randomize_url (lib := Reference.lib) calm repeated_target init) =
    Ok (Reference.urlunparse
          (mkParseResult "https" "aimatrix-e8zs.onrender.com" "/upload_files_pyrus" ""
             (Reference.urlencode q') "")) /\
    keys q' = ["a"; "b"]%string /\
    dict_get "a" q' = Some "3"%string.
Proof.
  destruct (repeated_keys_collapse (lib := Reference.lib) calm repeated_target init
              (mkParseResult "https" "aimatrix-e8zs.onrender.com" "/upload_files_pyrus"
                 "" "a=1&b=2&a=3" ""))
    as (q' & H1 & H2 & H3 & _).
  - vm_compute. reflexivity.
  - exists q'. split; [exact H1|]. split.
    + destruct H2 as [H2|[Hi _]]; [rewrite H2; vm_compute; reflexivity|].
      vm_compute in Hi. discriminate.
    + rewrite H3; [vm_compute; reflexivity|].
      intros Hi. vm_compute in Hi. discriminate.
Defined.

(** ** What a request leaves in the trace *)

Section Sending.
Variable W : world.
Context {lib : UrlLib}.

Lemma randomized_quiet s :
  consecutive_errors (randomized W s) = consecutive_errors s /\
  reqs (randomized W s) = reqs s /\ slept (randomized W s) = slept s /\
  perfs (randomized W s) = perfs s /\ trace (randomized W s) = trace s.
Proof.
  unfold randomized.
  destruct (Qlt_le_dec (unit_of_raw (entropy W (drawn s))) float_0_7); repeat split.
Qed.

Lemma do_request_sends url s parsed r s1 :
  urlparse url = Some parsed ->
  do_request W url s = (r, s1) ->
  exists ua evs,
    let url2 := urlunparse (replace_query parsed
                              (urlencode (new_params W (tick_drawn s) parsed))) in
    In ua USER_AGENTS /\
    trace s1 = trace s ++
               EvGet url2 [("User-Agent"%string, ua); ("Accept"%string, "*/*"%string)]
                     REQUEST_TIMEOUT :: evs /\
    match r with
    | Ok x =>
        exists resp body,
          net W (reqs s) = Ok resp /\ text resp = Ok body /\
          x = (status resp, elapsed_since W s 1) /\
          evs = [EvLog INFO (MsgResponse url2 (status resp) (elapsed_since W s 1)
                               (String.length body))]
    | Raise e =>
        (net W (reqs s) = Raise e /\ evs = [failure_record url2 e (elapsed_since W s 1)]) \/
        (exists resp, net W (reqs s) = Ok resp /\ text resp = Raise e /\
                      evs = [failure_record url2 e (elapsed_since W s 2)])
    | Cancelled =>
        (net W (reqs s) = Cancelled \/
         exists resp, net W (reqs s) = Ok resp /\ text resp = Cancelled) /\
        evs = []
    end.
Proof.
  intros Hp. unfold do_request.
  destruct (random_headers_exact W s) as (ua & Hua & Hh).
  rewrite (bind_ok _ _ _ _ _ Hh). clear Hh.
  rewrite (bind_ok _ _ _ _ _ (randomize_url_exact W url (tick_drawn s) parsed Hp)).
  destruct (randomized_quiet (tick_drawn s)) as (Hce & Hrq & Hsl & Hpf & Htr).
  cbn [consecutive_errors reqs slept perfs trace tick_drawn] in Hce, Hrq, Hsl, Hpf, Htr.
  set (s0 := randomized W (tick_drawn s)) in *.
  set (url2 := urlunparse (replace_query parsed
                             (urlencode (new_params W (tick_drawn s) parsed)))).
  cbv [bind perf_counter session_get resp_text try_except log emit ret raise].
  cbv [tick_reqs tick_perfs logged].
  cbn [consecutive_errors reqs slept drawn walls perfs trace].
  rewrite Hrq, Hpf, Htr. unfold elapsed_since. cbn [Nat.add].
  intros H. exists ua.
  destruct (net W (reqs s)) as [resp|e|] eqn:Hn.
  - destruct (text resp) as [body|e|] eqn:Ht.
    + injection H as <- <-. cbn [trace]. eexists.
      split; [assumption|]. split; [rewrite <- app_assoc; reflexivity|].
      exists resp, body. auto.
    + destruct e; injection H as <- <-; cbn [trace]; eexists;
        (split; [assumption|]); (split; [rewrite <- app_assoc; reflexivity|]);
        right; exists resp; auto.
    + injection H as <- <-. cbn [trace]. exists [].
      split; [assumption|]. split; [reflexivity|]. split; [|reflexivity].
      right. exists resp. auto.
  - destruct e; injection H as <- <-; cbn [trace]; eexists;
      (split; [assumption|]); (split; [rewrite <- app_assoc; reflexivity|]);
      left; auto.
  - injection H as <- <-. cbn [trace]. exists [].
    split; [assumption|]. split; [reflexivity|]. auto.
Qed.

End Sending.

(** ** Events of a run, stretch by stretch *)

Section Traces.
Variable W : world.
Context {lib : UrlLib}.

Section Blocks.

(** What holds of the events of a run when it holds of those of every
    request and of each of the four pairs of a record and a sleep that
    [worker] writes, and is kept when stretches are put end to end. *)
Variable Q : list event -> Prop.
Hypothesis Q_nil : Q [].
Hypothesis Q_app : forall T1 T2, Q T1 -> Q T2 -> Q (T1 ++ T2).
Hypothesis Q_retry : forall a,
  Q [EvLog INFO (MsgRetry a MAX_RETRIES (BACKOFF_BASE * 2 ^ (a - 1)));
     EvSleep (inject_Z (BACKOFF_BASE * 2 ^ (a - 1)))].
Hypothesis Q_given_up : forall url n,
  Q [EvLog WARNING (MsgMaxRetries url (BACKOFF_BASE * 2 ^ (n - 1)) n);
     EvSleep (inject_Z (BACKOFF_BASE * 2 ^ (n - 1)))].
Hypothesis Q_rested : forall i,
  (510 <= i /\ i <= 1725)%Q -> Q [EvLog INFO (MsgNextPing i); EvSleep i].
Hypothesis Q_recovered : forall e, Q [EvLog ERROR (MsgFatal e); EvSleep 60].

Lemma retry_loop_blocks url :
  (forall s r s1, do_request W url s = (r, s1) ->
                  exists T, trace s1 = trace s ++ T /\ Q T) ->
  forall a s r s', retry_loop W url a s = (r, s') ->
                   exists T, trace s' = trace s ++ T /\ Q T.
Proof.
  intros Hreq.
  apply (retry_loop_runs W url
           (fun a s r s' => exists T, trace s' = trace s ++ T /\ Q T)).
  - intros a s x s1 Hd. destruct (Hreq _ _ _ Hd) as (T & Ht & HT).
    exists T. split; [exact Ht|exact HT].
  - intros a s s1 Hd. exact (Hreq _ _ _ Hd).
  - intros a s e s1 Hd _. destruct (Hreq _ _ _ Hd) as (T & Ht & HT).
    eexists. unfold given_up. cbn [trace tick_slept logged with_errors].
    rewrite Ht, <- !app_assoc. split; [reflexivity|].
    apply Q_app; [exact HT|apply Q_given_up].
  - intros a s e s1 r s' Hd _ _ _ (T2 & Ht2 & HT2).
    destruct (Hreq _ _ _ Hd) as (T & Ht & HT).
    eexists. rewrite Ht2. unfold retrying. cbn [trace tick_slept logged].
    rewrite Ht, <- !app_assoc. split; [reflexivity|].
    apply Q_app; [exact HT|].
    apply (Q_app [_; _]); [apply Q_retry|exact HT2].
  - intros a s e s1 Hd _ _. destruct (Hreq _ _ _ Hd) as (T & Ht & HT).
    eexists. unfold retrying. cbn [trace tick_slept logged].
    rewrite Ht, <- !app_assoc. split; [reflexivity|].
    apply Q_app; [exact HT|apply Q_retry].
Qed.

Hypothesis Q_request :
  forall url s r s1, In url URLS -> do_request W url s = (r, s1) ->
                     exists T, trace s1 = trace s ++ T /\ Q T.

Lemma iteration_blocks s r s' :
  iteration W s = (r, s') -> exists T, trace s' = trace s ++ T /\ Q T.
Proof.
  destruct (iteration_cases W s) as (url & s0 & _ & Hin & (_ & _ & _ & Htr0) & ->).
  rewrite cycle_cases.
  destruct (retry_loop W url 0 s0) as [r1 s1] eqn:Hr.
  destruct (retry_loop_blocks url (fun s r s1 => Q_request url s r s1 Hin) _ _ _ _ Hr)
    as (T & Ht & HT).
  rewrite Htr0 in Ht.
  destruct (rested_quiet W s1) as (_ & _ & _ & Hrest).
  assert (Hrec : forall e s2 T',
             trace s2 = trace s ++ T' -> Q T' ->
             exists T'', trace (recovered e s2) = trace s ++ T'' /\ Q T'').
  { intros e s2 T' Ht' HT'. eexists. unfold recovered. cbn [trace tick_slept logged].
    rewrite Ht', <- !app_assoc. split; [reflexivity|].
    apply Q_app; [exact HT'|apply Q_recovered]. }
  assert (Hrs : exists T', trace (rested W s1) = trace s ++ T' /\ Q T').
  { eexists. rewrite Hrest, Ht, <- app_assoc. split; [reflexivity|].
    apply Q_app; [exact HT|]. apply Q_rested.
    rewrite interval_of_jittered. apply jittered_bounds. }
  destruct r1 as [a|e|].
  - destruct (interval_nap W s1) as [[]|e|] eqn:Hn.
    + intros [= <- <-]. exact Hrs.
    + intros [= <- <-]. destruct Hrs as (T' & Ht' & HT'). exact (Hrec e _ _ Ht' HT').
    + intros [= <- <-]. exact Hrs.
  - intros [= <- <-]. exact (Hrec e _ _ Ht HT).
  - intros [= <- <-]. exists T. auto.
Qed.

Lemma worker_loop_blocks n : forall s r s',
  worker_loop W n s = (r, s') -> exists T, trace s' = trace s ++ T /\ Q T.
Proof.
  induction n as [|n IH]; intros s r s'.
  - intros [= <- <-]. exists []. rewrite app_nil_r. split; [reflexivity|exact Q_nil].
  - rewrite worker_loop_step. destruct (iteration W s) as [r1 s1] eqn:Hi.
    destruct (iteration_blocks _ _ _ Hi) as (T1 & Ht1 & HT1).
    destruct r1 as [[]|e|].
    + intros Hw. destruct (IH _ _ _ Hw) as (T2 & Ht2 & HT2).
      exists (T1 ++ T2). rewrite Ht2, Ht1, <- app_assoc. split; [reflexivity|].
      apply Q_app; assumption.
    + intros [= <- <-]. exists T1. auto.
    + intros [= <- <-]. exists T1. auto.
Qed.

End Blocks.

(** The same for what holds of every event. *)
Lemma worker_loop_events (P : event -> Prop) :
  (forall ev, of_worker ev -> P ev) ->
  (forall url s r s1, In url URLS -> do_request W url s = (r, s1) ->
                      exists T, trace s1 = trace s ++ T /\ Forall P T) ->
  forall n s r s', worker_loop W n s = (r, s') ->
                   exists T, trace s' = trace s ++ T /\ Forall P T.
Proof.
  intros Pw Pr. apply (worker_loop_blocks (Forall P)).
  - constructor.
  - intros T1 T2 H1 H2. apply Forall_app. auto.
  - intros a. repeat constructor; apply Pw; exact I.
  - intros url n. repeat constructor; apply Pw; exact I.
  - intros i _. repeat constructor; apply Pw; exact I.
  - intros e. repeat constructor; apply Pw; exact I.
  - exact Pr.
Qed.

Lemma do_request_well_sent url s r s1 :
  In url URLS -> do_request W url s = (r, s1) ->
  exists T, trace s1 = trace s ++ T /\ Forall well_sent T.
Proof.
  intros Hin Hd. destruct (urlparse url) as [parsed|] eqn:Hp.
  - destruct (do_request_sends W url s parsed r s1 Hp Hd) as (ua & evs & Hua & Ht & Hr).
    eexists. split; [exact Ht|]. constructor.
    + split; [reflexivity|]. split; [exists ua; auto|].
      exists url, parsed. eexists. auto.
    + destruct r as [x|e|].
      * destruct Hr as (resp & body & _ & _ & _ & ->). repeat constructor.
      * destruct Hr as [(_ & ->)|(resp & _ & _ & ->)]; destruct e; repeat constructor.
      * destruct Hr as (_ & ->). constructor.
  - destruct (do_request_cases W _ _ _ _ Hd) as (_ & _ & Hc).
    destruct Hc as [(_ & _ & Ht & _)|(parsed & _ & _ & _ & Hp' & _)]; [|congruence].
    exists []. rewrite app_nil_r. split; [exact Ht|constructor].
Qed.

Lemma elapsed_since_nonneg s k :
  (forall i, (perf W i <= perf W (S i))%Q) -> (0 <= elapsed_since W s k)%Q.
Proof.
  intros Hmono. unfold elapsed_since.
  assert (H : (perf W (perfs s) <= perf W (k + perfs s))%Q).
  { induction k as [|k IH]; [apply Qle_refl|].
    eapply Qle_trans; [exact IH|]. apply Hmono. }
  lra.
Qed.

Lemma do_request_timely url s r s1 :
  (forall i, (perf W i <= perf W (S i))%Q) ->
  do_request W url s = (r, s1) ->
  exists T, trace s1 = trace s ++ T /\ Forall timely T.
Proof.
  intros Hmono Hd. destruct (urlparse url) as [parsed|] eqn:Hp.
  - destruct (do_request_sends W url s parsed r s1 Hp Hd) as (ua & evs & Hua & Ht & Hr).
    eexists. split; [exact Ht|]. constructor; [exact I|].
    assert (Hf : forall e k, timely (failure_record
                 (urlunparse (replace_query parsed
                    (urlencode (new_params W (tick_drawn s) parsed)))) e
                 (elapsed_since W s k))).
    { intros e k. destruct e; apply (elapsed_since_nonneg s k Hmono). }
    destruct r as [x|e|].
    + destruct Hr as (resp & body & _ & _ & _ & ->).
      constructor; [|constructor]. apply (elapsed_since_nonneg s 1 Hmono).
    + destruct Hr as [(_ & ->)|(resp & _ & _ & ->)]; (constructor; [apply Hf|constructor]).
    + destruct Hr as (_ & ->). constructor.
  - destruct (do_request_cases W _ _ _ _ Hd) as (_ & _ & Hc).
    destruct Hc as [(_ & _ & Ht & _)|(parsed & _ & _ & _ & Hp' & _)]; [|congruence].
    exists []. rewrite app_nil_r. split; [exact Ht|constructor].
Qed.

End Traces.

(** ** The counter and the records *)

Lemma tally_app c T1 T2 : tally c (T1 ++ T2) = tally (tally c T1) T2.
Proof. apply fold_left_app. Qed.

Lemma tallied_app T1 : forall c T2,
  tallied c T1 -> tallied (tally c T1) T2 -> tallied c (T1 ++ T2).
Proof.
  induction T1 as [|ev T1 IH]; intros c T2 H1 H2; [exact H2|].
  destruct H1 as [Hev H1]. split; [exact Hev|]. apply IH; assumption.
Qed.

Lemma audited_trans s1 s2 s3 T1 T2 :
  audited s1 s2 T1 -> audited s2 s3 T2 -> audited s1 s3 (T1 ++ T2).
Proof.
  intros (H1 & C1 & A1) (H2 & C2 & A2). split; [|split].
  - rewrite H2, H1, app_assoc. reflexivity.
  - rewrite tally_app, <- C1. exact C2.
  - apply tallied_app; [exact A1|]. rewrite <- C1. exact A2.
Qed.

Lemma audited_quiet s s0 s' T : quiet s s0 -> audited s0 s' T -> audited s s' T.
Proof.
  intros (Hce & _ & _ & Htr) (H & C & A). rewrite Hce, Htr in *.
  split; [|split]; assumption.
Qed.

Section Audit.
Variable W : world.
Context {lib : UrlLib}.

Lemma do_request_silent url s r s1 c :
  do_request W url s = (r, s1) ->
  exists T, trace s1 = trace s ++ T /\ tallied c T /\
            tally c T = match r with Ok _ => 0 | _ => c end.
Proof.
  intros Hd. destruct (do_request_cases W _ _ _ _ Hd) as (_ & _ & Hc).
  destruct Hc as [(_ & -> & Ht & _) | (parsed & url2 & hd & evs & _ & _ & Ht & Hdel)].
  - exists []. rewrite app_nil_r. split; [exact Ht|]. split; [exact I|reflexivity].
  - exists (EvGet url2 hd REQUEST_TIMEOUT :: evs). split; [exact Ht|].
    assert (Hf : forall e ev, failure_msg url2 e ev ->
                   tallied c [ev] /\ tally c [ev] = c).
    { intros e ev Hm. destruct e; destruct Hm as [el ->]; cbn; auto. }
    destruct Hdel as [resp body el _ _ | e ev _ Hm | resp e ev _ _ Hm | _].
    + cbn. auto.
    + destruct (Hf _ _ Hm) as [A E]. split; [split; [exact I|exact A]|exact E].
    + destruct (Hf _ _ Hm) as [A E]. split; [split; [exact I|exact A]|exact E].
    + cbn. auto.
Qed.

Lemma audited_request url s r s1 :
  do_request W url s = (r, s1) ->
  exists T, trace s1 = trace s ++ T /\ tallied (consecutive_errors s) T /\
            consecutive_errors s1 = consecutive_errors s /\
            tally (consecutive_errors s) T =
            match r with Ok _ => 0 | _ => consecutive_errors s end.
Proof.
  intros Hd. destruct (do_request_silent _ _ _ _ (consecutive_errors s) Hd)
    as (T & Ht & A & E).
  destruct (do_request_cases W _ _ _ _ Hd) as (Hce & _).
  exists T. auto.
Qed.

Lemma retry_loop_audited url a s r s' :
  retry_loop W url a s = (r, s') -> exists T, audited s s' T.
Proof.
  revert a s r s'.
  apply (retry_loop_runs W url (fun a s r s' => exists T, audited s s' T)).
  - intros a s x s1 Hd. destruct (audited_request _ _ _ _ Hd) as (T & Ht & A & _ & E).
    exists T. split; [exact Ht|]. split; [|exact A]. rewrite E. reflexivity.
  - intros a s s1 Hd. destruct (audited_request _ _ _ _ Hd) as (T & Ht & A & Hce & E).
    exists T. split; [exact Ht|]. split; [|exact A]. rewrite E. exact Hce.
  - intros a s e s1 Hd _. destruct (audited_request _ _ _ _ Hd) as (T & Ht & A & Hce & E).
    eexists. eapply audited_trans; [split; [exact Ht|split; [|exact A]]|].
    { rewrite E. exact Hce. }
    unfold given_up. split; [|split].
    + cbn [trace tick_slept logged with_errors]. rewrite <- app_assoc. reflexivity.
    + reflexivity.
    + cbn [tallied]. split; [|split; exact I]. split; [reflexivity|].
      f_equal. f_equal. lia.
  - intros a s e s1 r s' Hd _ _ _ (T2 & A2).
    destruct (audited_request _ _ _ _ Hd) as (T & Ht & A & Hce & E).
    eexists. eapply audited_trans; [split; [exact Ht|split; [|exact A]]|].
    { rewrite E. exact Hce. }
    eapply audited_trans; [|exact A2].
    unfold retrying. split; [|split].
    + cbn [trace tick_slept logged]. rewrite <- app_assoc. reflexivity.
    + reflexivity.
    + cbn. auto.
  - intros a s e s1 Hd _ _.
    destruct (audited_request _ _ _ _ Hd) as (T & Ht & A & Hce & E).
    eexists. eapply audited_trans; [split; [exact Ht|split; [|exact A]]|].
    { rewrite E. exact Hce. }
    unfold retrying. split; [|split].
    + cbn [trace tick_slept logged]. rewrite <- app_assoc. reflexivity.
    + reflexivity.
    + cbn. auto.
Qed.

Lemma audited_rested s1 :
  audited s1 (rested W s1)
    [EvLog INFO (MsgNextPing (interval_of W s1)); EvSleep (interval_of W s1)].
Proof.
  destruct (rested_quiet W s1) as (Hce & _ & _ & Ht).
  split; [exact Ht|]. split; [exact Hce|]. cbn. auto.
Qed.

Lemma audited_recovered e s1 :
  audited s1 (recovered e s1) [EvLog ERROR (MsgFatal e); EvSleep 60].
Proof.
  unfold recovered. split; [|split].
  - cbn [trace tick_slept logged]. rewrite <- app_assoc. reflexivity.
  - reflexivity.
  - cbn. auto.
Qed.

Lemma iteration_audited s r s' :
  iteration W s = (r, s') -> exists T, audited s s' T.
Proof.
  destruct (iteration_cases W s) as (url & s0 & _ & _ & Hq & ->).
  rewrite cycle_cases.
  destruct (retry_loop W url 0 s0) as [r1 s1] eqn:Hr.
  destruct (retry_loop_audited _ _ _ _ _ Hr) as (T & HT).
  apply (audited_quiet _ _ _ _ Hq) in HT.
  pose proof (audited_trans _ _ _ _ _ HT (audited_rested s1)) as Hrest.
  destruct r1 as [a|e|].
  - destruct (interval_nap W s1) as [[]|e|].
    + intros [= <- <-]. eexists. exact Hrest.
    + intros [= <- <-]. eexists.
      exact (audited_trans _ _ _ _ _ Hrest (audited_recovered e _)).
    + intros [= <- <-]. eexists. exact Hrest.
  - intros [= <- <-]. eexists.
    exact (audited_trans _ _ _ _ _ HT (audited_recovered e _)).
  - intros [= <- <-]. eexists. exact HT.
Qed.

Lemma worker_loop_audited n : forall s r s',
  worker_loop W n s = (r, s') -> exists T, audited s s' T.
Proof.
  induction n as [|n IH]; intros s r s'.
  - intros [= <- <-]. exists []. split; [rewrite app_nil_r; reflexivity|].
    split; [reflexivity|exact I].
  - rewrite worker_loop_step. destruct (iteration W s) as [r1 s1] eqn:Hi.
    destruct (iteration_audited _ _ _ Hi) as (T1 & H1).
    destruct r1 as [[]|e|].
    + intros Hw. destruct (IH _ _ _ Hw) as (T2 & H2).
      eexists. exact (audited_trans _ _ _ _ _ H1 H2).
    + intros [= <- <-]. eexists. exact H1.
    + intros [= <- <-]. eexists. exact H1.
Qed.

End Audit.

(** ** Cancellation *)

Lemma pings_app t1 t2 : pings (t1 ++ t2) = (pings t1 + pings t2)%nat.
Proof. unfold pings. rewrite filter_app, length_app. reflexivity. Qed.

Lemma fatals_app t1 t2 : fatals (t1 ++ t2) = (fatals t1 + fatals t2)%nat.
Proof. unfold fatals. rewrite filter_app, length_app. reflexivity. Qed.

Lemma of_request_unmarked T : Forall of_request T -> pings T = 0%nat /\ fatals T = 0%nat.
Proof.
  induction 1 as [|ev T Hev _ [IH1 IH2]]; [split; reflexivity|].
  change (ev :: T) with ([ev] ++ T). rewrite pings_app, fatals_app, IH1, IH2.
  destruct ev as [url2 hd t|d|lvl []]; cbn in Hev; try contradiction; split; reflexivity.
Qed.

Section Cancellation.
Variable W : world.
Context {lib : UrlLib}.

(** *** Cancellation *)

Lemma nap_cut k d (s' : state) pre :
  naps W k d = Cancelled -> trace s' = pre ++ [EvSleep d] -> cut_short W (trace s').
Proof. intros Hn Ht. exists pre, (EvSleep d). split; [exact Ht|]. exists k. exact Hn. Qed.

Lemma retry_loop_cut url a s s' :
  retry_loop W url a s = (Cancelled, s') -> cut_short W (trace s').
Proof. intros Hr. exact (retry_loop_left W _ _ _ _ _ Hr). Qed.

Lemma iteration_cut s s' :
  iteration W s = (Cancelled, s') -> cut_short W (trace s').
Proof.
  destruct (iteration_cases W s) as (url & s0 & _ & _ & _ & ->).
  rewrite cycle_cases.
  destruct (retry_loop W url 0 s0) as [r1 s1] eqn:Hr.
  assert (Hrec : forall e, recovery_nap W s1 = Cancelled ->
                           cut_short W (trace (recovered e s1))).
  { intros e Hn. eapply nap_cut; [exact Hn|]. unfold recovered.
    cbn [trace tick_slept logged]. reflexivity. }
  destruct r1 as [a|e|].
  - destruct (interval_nap W s1) as [[]|e|] eqn:Hn.
    + discriminate.
    + intros [= Hc <-]. eapply nap_cut; [exact Hc|]. unfold recovered.
      cbn [trace tick_slept logged]. reflexivity.
    + intros [= <-]. eapply nap_cut; [exact Hn|].
      destruct (rested_quiet W s1) as (_ & _ & _ & Ht). rewrite Ht.
      exact (app_assoc (trace s1) [_] [_]).
  - intros [= Hc <-]. exact (Hrec e Hc).
  - intros [= <-]. exact (retry_loop_cut _ _ _ _ Hr).
Qed.

Lemma worker_loop_cut n : forall s s',
  worker_loop W n s = (Cancelled, s') -> cut_short W (trace s').
Proof.
  induction n as [|n IH]; intros s s'; [discriminate|].
  rewrite worker_loop_step. destruct (iteration W s) as [[[]|e|] s1] eqn:Hi.
  - apply IH.
  - discriminate.
  - intros [= <-]. exact (iteration_cut _ _ Hi).
Qed.

End Cancellation.

(** ** Progress *)

Section Progress.
Variable W : world.
Context {lib : UrlLib}.

Section Going.

Hypothesis answered : answering W.
Hypothesis awake : forall k seconds, naps W k seconds = Ok tt.

Lemma do_request_going url s r s1 :
  do_request W url s = (r, s1) ->
  r <> Cancelled /\ slept s1 = slept s /\
  (urlparse url <> None -> reqs s1 = S (reqs s)) /\
  exists T, trace s1 = trace s ++ T /\ pings T = 0%nat /\ fatals T = 0%nat.
Proof.
  intros Hd. split; [|split; [|split]].
  - destruct (do_request_cases W _ _ _ _ Hd) as (_ & _ & Hc).
    destruct Hc as [(_ & -> & _) | (parsed & url2 & hd & evs & _ & _ & _ & Hdel)];
      [discriminate|].
    destruct Hdel as [resp body el _ _ | e ev _ _ | resp e ev _ _ _ | Hcan];
      try discriminate.
    exfalso. pose proof (answered (reqs s)) as Ha.
    destruct Hcan as [Hn|(resp & Hn & Ht)]; rewrite Hn in Ha; auto.
  - destruct (do_request_cases W _ _ _ _ Hd) as (_ & Hsl & _). exact Hsl.
  - destruct (do_request_summary W _ _ _ _ Hd) as (_ & _ & _ & Hrq & _). exact Hrq.
  - destruct (do_request_events W _ _ _ _ Hd) as (T & Ht & HT).
    destruct (of_request_unmarked _ HT). exists T. auto.
Qed.

Lemma retry_loop_going url a s r s' :
  retry_loop W url a s = (r, s') ->
  (exists a', r = Ok a') /\ (slept s <= slept s')%nat /\
  (urlparse url <> None -> (reqs s < reqs s')%nat) /\
  exists T, trace s' = trace s ++ T /\ pings T = 0%nat /\ fatals T = 0%nat.
Proof.
  revert a s r s'.
  apply (retry_loop_runs W url (fun a s r s' =>
           (exists a', r = Ok a') /\ (slept s <= slept s')%nat /\
           (urlparse url <> None -> (reqs s < reqs s')%nat) /\
           exists T, trace s' = trace s ++ T /\ pings T = 0%nat /\ fatals T = 0%nat)).
  - intros a s x s1 Hd.
    destruct (do_request_going _ _ _ _ Hd) as (_ & Hsl & Hrq & T & Ht & P & F).
    split; [eauto|]. split; [cbn [slept with_errors]; lia|].
    split; [intros Hp; cbn [reqs with_errors]; rewrite (Hrq Hp); lia|]. exists T. auto.
  - intros a s s1 Hd. destruct (do_request_going _ _ _ _ Hd) as (Hc & _). congruence.
  - intros a s e s1 Hd _.
    destruct (do_request_going _ _ _ _ Hd) as (_ & Hsl & Hrq & T & Ht & P & F).
    unfold backoff_nap. rewrite awake. split; [cbn [after]; eauto|].
    unfold given_up. cbn [slept reqs trace tick_slept logged with_errors].
    split; [lia|]. split; [intros Hp; rewrite (Hrq Hp); lia|].
    eexists. rewrite Ht, <- !app_assoc. split; [reflexivity|].
    rewrite pings_app, fatals_app, P, F. split; reflexivity.
  - intros a s e s1 r s' Hd _ _ _ (Hr & Hsl2 & Hrq2 & T2 & Ht2 & P2 & F2).
    destruct (do_request_going _ _ _ _ Hd) as (_ & Hsl & Hrq & T & Ht & P & F).
    split; [exact Hr|]. unfold retrying in *.
    cbn [slept reqs trace tick_slept logged] in Hsl2, Hrq2, Ht2.
    split; [lia|].
    split; [intros Hp; specialize (Hrq Hp); specialize (Hrq2 Hp); lia|].
    eexists. rewrite Ht2, Ht, <- !app_assoc. split; [reflexivity|].
    rewrite !pings_app, !fatals_app, P, F, P2, F2. split; reflexivity.
  - intros a s e s1 _ _ Hn. exfalso. apply Hn. apply awake.
Qed.

Lemma iteration_going s :
  exists s' T,
    iteration W s = (Ok tt, s') /\ (slept s < slept s')%nat /\
    ((forall url, In url URLS -> urlparse url <> None) -> (reqs s < reqs s')%nat) /\
    trace s' = trace s ++ T /\ pings T = 1%nat /\ fatals T = 0%nat.
Proof.
  destruct (iteration_cases W s) as (url & s0 & _ & Hin & (_ & Hrq0 & Hsl0 & Htr0) & ->).
  rewrite cycle_cases.
  destruct (retry_loop W url 0 s0) as [r1 s1] eqn:Hr.
  destruct (retry_loop_going _ _ _ _ _ Hr) as ([a ->] & Hsl & Hrq & T & Ht & P & F).
  unfold interval_nap. rewrite awake.
  destruct (rested_quiet W s1) as (_ & Hrq1 & Hsl1 & Ht1).
  exists (rested W s1). eexists. split; [reflexivity|].
  split; [lia|].
  split; [intros Hp; specialize (Hrq (Hp url Hin)); lia|].
  rewrite Ht1, Ht, Htr0, <- app_assoc. split; [reflexivity|].
  rewrite pings_app, fatals_app, P, F. split; reflexivity.
Qed.

Lemma worker_loop_going n : forall s,
  exists s' T,
    worker_loop W n s = (Ok tt, s') /\ (n + slept s <= slept s')%nat /\
    ((forall url, In url URLS -> urlparse url <> None) -> (n + reqs s <= reqs s')%nat) /\
    trace s' = trace s ++ T /\ pings T = n /\ fatals T = 0%nat.
Proof.
  induction n as [|n IH]; intros s.
  - exists s, []. rewrite app_nil_r. repeat split; cbn; lia.
  - destruct (iteration_going s) as (s1 & T1 & Hi & Hsl1 & Hrq1 & Ht1 & P1 & F1).
    destruct (IH s1) as (s' & T2 & Hw & Hsl2 & Hrq2 & Ht2 & P2 & F2).
    exists s', (T1 ++ T2). rewrite worker_loop_step, Hi.
    split; [exact Hw|]. split; [lia|].
    split; [intros Hp; specialize (Hrq1 Hp); specialize (Hrq2 Hp); lia|].
    rewrite Ht2, Ht1, <- app_assoc, pings_app, fatals_app, P1, P2, F1, F2.
    repeat split.
Qed.

End Going.

Lemma do_request_unparsable url s :
  urlparse url = None ->
  do_request W url s = (Raise (OtherError "ValueError"), tick_drawn s).
Proof.
  intros Hp. unfold do_request.
  destruct (random_headers_exact W s) as (ua & _ & Hh).
  rewrite (bind_ok _ _ _ _ _ Hh).
  apply bind_raise. unfold randomize_url. rewrite Hp. reflexivity.
Qed.

End Progress.

(** ** Records and sleeps *)

Lemma announced_any T : announced None T -> forall prev, announced prev T.
Proof.
  destruct T as [|ev rest]; [intros _ prev; exact I|].
  intros [H1 H2] prev. split; [|exact H2].
  destruct ev; try exact I. contradiction.
Qed.

Lemma announced_app T1 : forall prev T2,
  announced prev T1 -> announced None T2 -> announced prev (T1 ++ T2).
Proof.
  induction T1 as [|ev rest IH]; intros prev T2 H1 H2.
  - apply announced_any. exact H2.
  - destruct H1 as [H1 H1']. split; [exact H1|]. apply IH; assumption.
Qed.

Lemma in_step_nil : in_step [].
Proof. split; [exact I|]. split; [exact I|constructor]. Qed.

Lemma in_step_app T1 T2 : in_step T1 -> in_step T2 -> in_step (T1 ++ T2).
Proof.
  intros (K1 & A1 & S1) (K2 & A2 & S2). split; [|split].
  - apply kept_app; assumption.
  - apply announced_app; assumption.
  - apply Forall_app. auto.
Qed.

Lemma in_step_pair lvl m d :
  pause_of (EvLog lvl m) = Some d -> sound_interval (EvLog lvl m) ->
  in_step [EvLog lvl m; EvSleep d].
Proof.
  intros Hp Hs. split; [|split].
  - cbn [kept]. rewrite Hp. cbn. auto.
  - cbn [announced]. auto.
  - repeat constructor. exact Hs.
Qed.

Lemma of_request_in_step T : Forall of_request T -> in_step T.
Proof.
  intros H. split; [|split].
  - apply kept_silent. eapply Forall_impl; [|exact H].
    intros [| |lvl []]; cbn; auto; contradiction.
  - generalize (@None event).
    induction H as [|ev rest Hev _ IH]; intros prev; [exact I|].
    split; [|apply IH]. destruct ev; try exact I. contradiction.
  - eapply Forall_impl; [|exact H]. intros [| |lvl []]; cbn; auto; contradiction.
Qed.

Section Pairs.
Variable W : world.
Context {lib : UrlLib}.

Lemma worker_loop_in_step n s r s' :
  worker_loop W n s = (r, s') -> exists T, trace s' = trace s ++ T /\ in_step T.
Proof.
  apply (worker_loop_blocks W in_step).
  - exact in_step_nil.
  - exact in_step_app.
  - intros a. apply in_step_pair; [reflexivity|exact I].
  - intros url k. apply in_step_pair; [reflexivity|exact I].
  - intros i Hi. apply in_step_pair; [reflexivity|exact Hi].
  - intros e. apply in_step_pair; [reflexivity|exact I].
  - intros url s0 r0 s1 _ Hd.
    destruct (do_request_events W _ _ _ _ Hd) as (T & Ht & HT).
    exists T. split; [exact Ht|apply of_request_in_step; exact HT].
Qed.

End Pairs.

(** ** Runs of [worker] *)

Lemma worker_run (W : world) {lib : UrlLib} (n : nat) (s : state) :
  worker W n s = worker_loop W n (with_errors 0 s).
Proof. reflexivity. Qed.

(** X6.  A URL that [urlparse] rejects is never requested: [randomize_url]
    raises [ValueError] before drawing anything, [do_request] passes the
    error on having drawn only the headers, and the retry loop treats it
    as any failed attempt: with sleeps that complete, it announces and
    waits for two retries, gives up after [MAX_RETRIES] attempts with the
    counter of consecutive failures one higher and the backoff that goes
    with it, and not one request has been sent. *)
Theorem unparsable_url_is_never_requested (W : world) {lib : UrlLib}
    (url : string) (s : state) :
  urlparse url = None ->
  (forall k seconds, naps W k seconds = Ok tt) ->
  randomize_url W url s = (Raise (OtherError "ValueError"), s) /\
  do_request W url s = (Raise (OtherError "ValueError"), tick_drawn s) /\
  exists s',
    retry_loop W url 0 s = (Ok MAX_RETRIES, s') /\
    reqs s' = reqs s /\
    consecutive_errors s' = consecutive_errors s + 1 /\
    trace s' = trace s ++
      [EvLog INFO (MsgRetry 1 MAX_RETRIES (BACKOFF_BASE * 2 ^ 0));
       EvSleep (inject_Z (BACKOFF_BASE * 2 ^ 0));
       EvLog INFO (MsgRetry 2 MAX_RETRIES (BACKOFF_BASE * 2 ^ 1));
       EvSleep (inject_Z (BACKOFF_BASE * 2 ^ 1));
       EvLog WARNING (MsgMaxRetries url (BACKOFF_BASE * 2 ^ consecutive_errors s)
                        (consecutive_errors s + 1));
       EvSleep (inject_Z (BACKOFF_BASE * 2 ^ consecutive_errors s))].
Proof.
  intros Hp awake.
  split; [unfold randomize_url; rewrite Hp; reflexivity|].
  split; [apply do_request_unparsable; exact Hp|].
  set (s1 := retrying 1 (tick_drawn s)).
  set (s2 := retrying 2 (tick_drawn s1)).
  exists (given_up url (tick_drawn s2)).
  split.
  { rewrite (retry_loop_retry W url 0 s _ _ (do_request_unparsable W url s Hp))
      by reflexivity.
    unfold retry_nap. rewrite awake. change (0 + 1) with 1. fold s1.
    rewrite (retry_loop_retry W url 1 s1 _ _ (do_request_unparsable W url s1 Hp))
      by reflexivity.
    unfold retry_nap. rewrite awake. change (1 + 1) with 2. fold s2.
    rewrite (retry_loop_exhausted W url 2 s2 _ _ (do_request_unparsable W url s2 Hp))
      by (unfold MAX_RETRIES; lia).
    unfold backoff_nap. rewrite awake. reflexivity. }
  split; [reflexivity|]. split; [reflexivity|].
  unfold given_up, s2, s1, retrying.
  cbn [trace consecutive_errors tick_slept tick_drawn logged with_errors].
  rewrite <- !app_assoc. cbn [app].
  replace (consecutive_errors s + 1 - 1) with (consecutive_errors s) by lia.
  reflexivity.
Qed.

(** A URL whose bracketed host is not closed, in a world where every
    request would time out: three attempts, no request. *)
Lemma unparsable_url_is_never_requested_witness :
  exists s',
    retry_loop (lib := Reference.lib) timeouts malformed_target 0 init = (Ok 3, s') /\
    reqs s' = 0%nat /\ consecutive_errors s' = 1.
Proof.
  destruct (unparsable_url_is_never_requested (lib := Reference.lib)
              timeouts malformed_target init)
    as (_ & _ & s' & H1 & H2 & H3 & _).
  - vm_compute. reflexivity.
  - intros k seconds. reflexivity.
  - exists s'. split; [exact H1|]. split; [exact H2|exact H3].
Defined.

(** X7.  What one call of [do_request] on a URL that parses does: it
    sends exactly one request, with the configured timeout, and leaves
    the counter of consecutive failures and the sleeps alone.  On a
    response whose body is read it writes one INFO record with the
    status, the length of the body and the elapsed time it also returns,
    the time between the first two readings of the performance counter.
    On an error it writes one record, a WARNING for a timeout and an
    ERROR carrying the error for anything else, and raises the very
    error it received; the elapsed time recorded runs to the second
    reading of the counter when the request failed and to the third when
    the reading of the body failed.  On a cancellation it writes
    nothing. *)
Theorem do_request_reports (W : world) {lib : UrlLib}
    (url : string) (s : state) (parsed : ParseResult)
    (r : result (Z * Q)) (s1 : state) :
  urlparse url = Some parsed ->
  do_request W url s = (r, s1) ->
  consecutive_errors s1 = consecutive_errors s /\ slept s1 = slept s /\
  reqs s1 = S (reqs s) /\
  exists url2 headers evs,
    trace s1 = trace s ++ EvGet url2 headers REQUEST_TIMEOUT :: evs /\
    match r with
    | Ok (st, elapsed) =>
        exists resp body,
          net W (reqs s) = Ok resp /\ text resp = Ok body /\
          st = status resp /\ elapsed = elapsed_since W s 1 /\
          evs = [EvLog INFO (MsgResponse url2 st elapsed (String.length body))]
    | Raise e =>
        (net W (reqs s) = Raise e /\
         evs = [failure_record url2 e (elapsed_since W s 1)]) \/
        (exists resp, net W (reqs s) = Ok resp /\ text resp = Raise e /\
                      evs = [failure_record url2 e (elapsed_since W s 2)])
    | Cancelled => evs = []
    end.
Proof.
  intros Hp Hd.
  destruct (do_request_summary W _ _ _ _ Hd) as (Hce & Hsl & _ & Hrq & _).
  split; [exact Hce|]. split; [exact Hsl|].
  split; [apply Hrq; congruence|].
  destruct (do_request_sends W url s parsed r s1 Hp Hd) as (ua & evs & _ & Ht & Hr).
  eexists. eexists. exists evs. split; [exact Ht|].
  destruct r as [[st el]|e|].
  - destruct Hr as (resp & body & Hn & Hb & [= -> ->] & ->).
    exists resp, body. auto.
  - exact Hr.
  - destruct Hr as (_ & ->). reflexivity.
Qed.

(** A response whose body fails to arrive: the error is raised again and
    recorded once, at level ERROR, with the time to the third reading of
    the counter, two seconds. *)
Lemma do_request_reports_witness :
  exists url2 headers,
    trace (snd (do_request (lib := Reference.lib) truncated target init)) =
    [EvGet url2 headers 30;
     EvLog ERROR (MsgRequestError url2
                    (ClientError "Response payload is not completed") 2)].
Proof.
  destruct (do_request_reports (lib := Reference.lib) truncated target init
              (mkParseResult "https" "aimatrix-e8zs.onrender.com" "/upload_files_pyrus"
                 "" "" "")
              (Raise (ClientError "Response payload is not completed"))
              (snd (do_request (lib := Reference.lib) truncated target init)))
    as (_ & _ & _ & url2 & headers & evs & Ht & Hr).
  - vm_compute. reflexivity.
  - vm_compute. reflexivity.
  - exists url2, headers. rewrite Ht.
    destruct Hr as [(Hn & _)|(resp & Hn & _ & ->)]; [vm_compute in Hn; discriminate|].
    reflexivity.
Defined.

(** X8.  Every request a run of [worker] sends is one [do_request]
    builds: it carries the configured timeout, exactly the two headers
    with a user agent of the pool, and a URL put together from the
    components of one of the configured [URLS] with only the query
    replaced. *)
Theorem requests_are_well_sent (W : world) {lib : UrlLib} (n : nat) (s : state) :
  exists T,
    trace (snd (worker W n s)) = trace s ++ T /\ Forall well_sent T.
Proof.
  rewrite worker_run.
  destruct (worker_loop W n (with_errors 0 s)) as [r s'] eqn:Hw.
  apply (worker_loop_events W well_sent) in Hw.
  - exact Hw.
  - intros [| |lvl []]; cbn; auto; contradiction.
  - intros url s0 r0 s1. apply do_request_well_sent.
Qed.

(** X9.  When the performance counter never goes back, no record of a run
    of [worker] carries a negative elapsed time. *)
Theorem elapsed_times_are_nonnegative (W : world) {lib : UrlLib} :
  (forall i, (perf W i <= perf W (S i))%Q) ->
  forall n s,
  exists T,
    trace (snd (worker W n s)) = trace s ++ T /\ Forall timely T.
Proof.
  intros Hmono n s. rewrite worker_run.
  destruct (worker_loop W n (with_errors 0 s)) as [r s'] eqn:Hw.
  apply (worker_loop_events W timely) in Hw.
  - exact Hw.
  - intros [| |lvl []]; cbn; auto; contradiction.
  - intros url s0 r0 s1 _. apply do_request_timely. exact Hmono.
Qed.

(** Two iterations in a world where every request times out and the
    counter advances by one second a reading. *)
Lemma elapsed_times_are_nonnegative_witness :
  Forall timely (trace (snd (worker (lib := Reference.lib) timeouts 2 init))).
Proof.
  destruct (elapsed_times_are_nonnegative (lib := Reference.lib) timeouts) with
    (n := 2%nat) (s := init) as (T & Ht & HT).
  - intros i. unfold timeouts, steady, perf, Qle. cbn. lia.
  - rewrite Ht. exact HT.
Defined.

(** X10.  The counter of consecutive failures is what the records say:
    after any run of [worker] it equals the number of cycles recorded as
    given up since the last response recorded, and every record of a
    cycle given up carries the count of those before it since the last
    response, plus one, and the backoff [BACKOFF_BASE * 2 ^ count]. *)
Theorem counter_is_tally_of_records (W : world) {lib : UrlLib} (n : nat) (s : state) :
  exists T,
    trace (snd (worker W n s)) = trace s ++ T /\
    consecutive_errors (snd (worker W n s)) = tally 0 T /\
    tallied 0 T.
Proof.
  rewrite worker_run.
  destruct (worker_loop W n (with_errors 0 s)) as [r s'] eqn:Hw.
  destruct (worker_loop_audited W _ _ _ _ Hw) as (T & Ht & Hc & Ha).
  exists T. split; [exact Ht|]. split; [exact Hc|exact Ha].
Qed.

(** X11.  A cancellation is caught nowhere: when a run of [worker] ends
    cancelled, the last thing it did is the awaited call the world
    cancelled, a request or a sleep, and nothing is recorded after it. *)
Theorem cancellation_ends_the_loop (W : world) {lib : UrlLib} (n : nat) (s : state) :
  fst (worker W n s) = Cancelled ->
  cut_short W (trace (snd (worker W n s))).
Proof.
  rewrite worker_run.
  destruct (worker_loop W n (with_errors 0 s)) as [r s'] eqn:Hw.
  cbn [fst snd]. intros ->. exact (worker_loop_cut W _ _ _ Hw).
Qed.

(** A world that cancels the first request: the run ends there. *)
Lemma cancellation_ends_the_loop_witness :
  cut_short interrupted (trace (snd (worker (lib := Reference.lib) interrupted 3 init))).
Proof.
  apply (cancellation_ends_the_loop (lib := Reference.lib) interrupted 3 init).
  vm_compute. reflexivity.
Defined.

(** X12.  In a world that cancels nothing and in which every sleep
    completes, the loop keeps going whatever the requests do: every
    number of iterations is completed, each announces one interval and
    sleeps at least once, and the handler of the loop body never has
    anything to record.  When the configured URLS parse, each iteration
    sends at least one request. *)
Theorem loop_keeps_going (W : world) {lib : UrlLib} :
  answering W ->
  (forall k seconds, naps W k seconds = Ok tt) ->
  forall n s,
  exists s' T,
    worker W n s = (Ok tt, s') /\
    trace s' = trace s ++ T /\
    pings T = n /\ fatals T = 0%nat /\
    (n + slept s <= slept s')%nat /\
    ((forall url, In url URLS -> urlparse url <> None) -> (n + reqs s <= reqs s')%nat).
Proof.
  intros Ha Hn n s. rewrite worker_run.
  destruct (worker_loop_going W Ha Hn n (with_errors 0 s))
    as (s' & T & Hw & Hsl & Hrq & Ht & Hp & Hf).
  exists s', T. split; [exact Hw|]. split; [exact Ht|]. split; [exact Hp|].
  split; [exact Hf|]. split; [exact Hsl|exact Hrq].
Qed.

(** Three iterations against a server that answers 500. *)
Lemma loop_keeps_going_witness :
  exists s' T,
    worker (lib := Reference.lib) sick 3 init = (Ok tt, s') /\
    trace s' = T /\ pings T = 3%nat /\ fatals T = 0%nat.
Proof.
  destruct (loop_keeps_going (lib := Reference.lib) sick) with (n := 3%nat) (s := init)
    as (s' & T & Hw & Ht & Hp & Hf & _ & _).
  - intros k. cbn. discriminate.
  - intros k seconds. reflexivity.
  - exists s', T. auto.
Defined.

(** X13.  No iteration that completes ends without a sleep: the last
    thing it did is a sleep that returned, either the interval, between
    510 and 1725 seconds, or the 60 seconds of the handler. *)
Theorem every_iteration_ends_asleep (W : world) {lib : UrlLib} (s s' : state) :
  iteration W s = (Ok tt, s') ->
  exists pre d,
    trace s' = pre ++ [EvSleep d] /\ naps W (pred (slept s')) d = Ok tt /\
    (d = 60%Q \/ (510 <= d /\ d <= 1725)%Q).
Proof.
  destruct (iteration_cases W s) as (url & s0 & _ & _ & _ & ->).
  rewrite cycle_cases.
  destruct (retry_loop W url 0 s0) as [r1 s1] eqn:Hr.
  assert (Hrec : forall e s2, recovery_nap W s2 = Ok tt ->
            exists pre d,
              trace (recovered e s2) = pre ++ [EvSleep d] /\
              naps W (pred (slept (recovered e s2))) d = Ok tt /\
              (d = 60%Q \/ (510 <= d /\ d <= 1725)%Q)).
  { intros e s2 Hn. eexists. exists 60%Q. unfold recovered.
    cbn [trace slept tick_slept logged pred]. split; [reflexivity|].
    split; [exact Hn|left; reflexivity]. }
  destruct r1 as [a|e|].
  - destruct (interval_nap W s1) as [[]|e|] eqn:Hn.
    + intros [= <-]. destruct (rested_quiet W s1) as (_ & _ & Hsl & Ht).
      exists (trace s1 ++ [EvLog INFO (MsgNextPing (interval_of W s1))]), (interval_of W s1).
      split; [rewrite Ht, <- app_assoc; reflexivity|].
      split; [rewrite Hsl; exact Hn|]. right.
      rewrite interval_of_jittered. apply jittered_bounds.
    + intros [= Hc <-]. apply Hrec. destruct (recovery_nap W _) as [[]| |]; congruence.
    + discriminate.
  - intros [= Hc <-]. apply Hrec. destruct (recovery_nap W _) as [[]| |]; congruence.
  - discriminate.
Qed.

(** One iteration against a server that answers 200. *)
Lemma every_iteration_ends_asleep_witness :
  exists pre d,
    trace (snd (iteration (lib := Reference.lib) healthy init)) = pre ++ [EvSleep d] /\
    (d = 60%Q \/ (510 <= d /\ d <= 1725)%Q).
Proof.
  destruct (every_iteration_ends_asleep (lib := Reference.lib) healthy init
              (snd (iteration (lib := Reference.lib) healthy init)))
    as (pre & d & Ht & _ & Hd).
  - vm_compute. reflexivity.
  - exists pre, d. split; [exact Ht|exact Hd].
Defined.

(** X14.  Records and sleeps go in pairs through every run of [worker]:
    every record of a retry, of a cycle given up, of the next interval
    and of an error caught by the loop is followed at once by the sleep
    of the delay it announces, 60 seconds for the last; every sleep comes
    right after such a record; and every interval announced lies between
    510 and 1725 seconds. *)
Theorem records_and_sleeps_pair_up (W : world) {lib : UrlLib} (n : nat) (s : state) :
  exists T,
    trace (snd (worker W n s)) = trace s ++ T /\
    kept pause_of T /\ announced None T /\ Forall sound_interval T.
Proof.
  rewrite worker_run.
  destruct (worker_loop W n (with_errors 0 s)) as [r s'] eqn:Hw.
  destruct (worker_loop_in_step W _ _ _ _ Hw) as (T & Ht & K & A & S).
  exists T. auto.
Qed.
